(** * The Postgres metrics collector of dbeda_framework

    A shallow embedding of [server/driver/collector/postgres_collector.py]
    (class [PostgresCollector]) and the properties of its target selection,
    bloat estimation, row normalisation and collection cycles.

    Modelling conventions.
    - Python [int] is [Z]; Python [float] and [Decimal] values are exact
      rationals ([Q]): rounding, infinities and NaN are outside the model.
    - A [datetime] is represented by its ISO-8601 rendering, the only thing
      the collector ever asks of it.
    - Python [str] is [string]; its characters are read as code points
      below 256.
    - Mutable objects ([list], [dict]) live in a store and are referred to
      by location; tuples and scalars are values.
    - The database connection is an oracle: the reply to a statement may
      depend on everything sent before it.  Every statement sent is appended
      to a trace.
    - A raised exception is the [Raise] outcome of the monad [M]. *)

From Stdlib Require Import Ascii String ZArith QArith Qround Qabs Lqa Lia Sorted.
From stdpp Require Import gmap strings list pretty.

Close Scope Q_scope.
Open Scope string_scope.
Open Scope Z_scope.
Open Scope list_scope.

(** ** Values *)

(** Scalars as the database driver hands them over. *)
Inductive pyval :=
| PNone
| PBool (b : bool)
| PInt (z : Z)
| PFloat (q : Q)
| PStr (s : string)
| PDatetime (iso : string)
| PDecimal (q : Q).

(** Objects are referred to by their location in the store. *)
Definition loc := nat.

Inductive val :=
| Sc (x : pyval)
| Ref (l : loc).

(** Dictionary keys.  Python identifies numeric keys of equal value
    ([1 == 1.0 == True]), so a numeric key is its reduced fraction. *)
Inductive dkey :=
| KStr (s : string)
| KNum (n : Z) (d : positive)
| KNone
| KDatetime (iso : string).

Global Instance dkey_eq_dec : EqDecision dkey.
Proof. solve_decision. Defined.

Global Instance dkey_countable : Countable dkey.
Proof.
  refine (inj_countable'
    (fun k => match k with
              | KStr s => inl (inl s)
              | KNum n d => inl (inr (n, d))
              | KNone => inr (inl tt)
              | KDatetime s => inr (inr s)
              end)
    (fun x => match x with
              | inl (inl s) => KStr s
              | inl (inr (n, d)) => KNum n d
              | inr (inl _) => KNone
              | inr (inr s) => KDatetime s
              end) _).
  by intros [].
Defined.

Coercion KStr : string >-> dkey.

Definition key_of_Q (q : Q) : dkey :=
  let r := Qred q in KNum (Qnum r) (Qden r).

Definition key_of (x : pyval) : dkey :=
  match x with
  | PNone => KNone
  | PBool b => KNum (if b then 1 else 0) 1
  | PInt z => KNum z 1
  | PFloat q => key_of_Q q
  | PStr s => KStr s
  | PDatetime iso => KDatetime iso
  | PDecimal q => key_of_Q q
  end.

Inductive obj :=
| OList (items : list val)
| ODict (entries : gmap dkey val).

(** ** Exceptions and outcomes *)

Inductive exn :=
| PostgresCollectorException (sql : string)
| AssertionError
| IndexError
| KeyError (k : dkey)
| TypeError
| ValueError
| AttributeError
| ZeroDivisionError
| DriverError
| SystemError.

Inductive result (A : Type) :=
| Ok (a : A)
| Raise (e : exn).
Arguments Ok {A} a.
Arguments Raise {A} e.

(** ** The connection *)

(** What the collector asks of the connection. *)
Inductive event :=
| EFetch (sql : string)        (* [_cmd]: execute, then fetchall *)
| EExec (sql : string)         (* [_cmd_wo_fetch]: execute only *)
| ERawExec (sql : string)      (* [self._conn.cursor().execute] *)
| ECommit
| ERollback.

Inductive reply :=
| Failed
| Done
| Rows (res : list (list pyval)) (description : list string).

(** The server decides each reply from the requests seen so far. *)
Definition server := list event -> event -> reply.

Record state := mkState {
  heap : list obj;
  trace : list event
}.

Definition M (A : Type) := state -> result A * state.

Definition ret {A} (a : A) : M A := fun s => (Ok a, s).

Definition raise {A} (e : exn) : M A := fun s => (Raise e, s).

Definition bind {A B} (m : M A) (f : A -> M B) : M B :=
  fun s => match m s with
           | (Ok a, s') => f a s'
           | (Raise e, s') => (Raise e, s')
           end.

Global Instance M_ret : MRet M := @ret.
Global Instance M_bind : MBind M := fun A B f m => bind m f.

(** A [for] loop over a sequence whose body may raise. *)
Fixpoint for_each {A} (xs : list A) (body : A -> M unit) : M unit :=
  match xs with
  | [] => ret tt
  | x :: rest => body x ;; for_each rest body
  end.

(** [try: m except PostgresCollectorException: h]. *)
Definition try_collector {A} (m : M A) (h : M A) : M A :=
  fun s => match m s with
           | (Raise (PostgresCollectorException _), s') => h s'
           | r => r
           end.

(** [try: m except Exception: h]. *)
Definition try_any {A} (m : M A) (h : M A) : M A :=
  fun s => match m s with
           | (Raise _, s') => h s'
           | r => r
           end.

Definition lift {A} (r : result A) : M A := fun s => (r, s).

Definition send (srv : server) (ev : event) : M reply :=
  fun s => (Ok (srv (trace s) ev),
            {| heap := heap s; trace := trace s ++ [ev] |}).

(** [x[i]] on a tuple or on the rows of a result. *)
Definition index {A} (xs : list A) (i : nat) : result A :=
  match xs !! i with
  | Some x => Ok x
  | None => Raise IndexError
  end.

(** [tuple(f(x) for x in xs)] where [f] may raise. *)
Fixpoint map_result {A B} (f : A -> result B) (xs : list A) : result (list B) :=
  match xs with
  | [] => Ok []
  | x :: rest =>
      match f x with
      | Raise e => Raise e
      | Ok y => match map_result f rest with
                | Raise e => Raise e
                | Ok ys => Ok (y :: ys)
                end
      end
  end.

(** ** Rendering of scalars *)

Section Rendering.

(** [repr] and [str] of the scalars that are not integers are not modelled;
    they are whatever Python makes of them. *)
Variable repr_other : pyval -> string.
Variable str_other : pyval -> string.

Definition py_repr (x : pyval) : string :=
  match x with
  | PInt z => pretty z
  | _ => repr_other x
  end.

Definition py_str (x : pyval) : string :=
  match x with
  | PInt z => pretty z
  | _ => str_other x
  end.

(** [str(t)] of a tuple: the [repr] of its items, separated by a comma and
    a space, with the trailing comma of the one-item tuple. *)
Definition tuple_str (t : list pyval) : string :=
  match t with
  | [] => "()"
  | [x] => "(" +:+ py_repr x +:+ ",)"
  | _ => "(" +:+ String.concat ", " (py_repr <$> t) +:+ ")"
  end.

(** The expression shared by [get_target_table_info] and
    [collect_index_metrics]:
    [str(t) if len(t) > 1 else (f"({t[0]})" if len(t) == 1 else "(0)")]. *)
Definition id_list_str (t : list pyval) : string :=
  if (1 <? length t)%nat then tuple_str t
  else match t with
       | [x] => "(" +:+ py_str x +:+ ")"
       | _ => "(0)"
       end.

End Rendering.

(** ** The query layer and target selection *)

Record target_table_info := {
  target_tables : list pyval;
  target_tables_str : string
}.

Record table := {
  columns : list string;
  rows : list (list pyval)
}.

Section Collector.

Variable srv : server.
Variable repr_other : pyval -> string.
Variable str_other : pyval -> string.

(** The statement templates of [pg_table_level_stats_sqls], each taken with
    its [format] arguments. *)
Variable TOP_N_LARGEST_TABLES_SQL_TEMPLATE : Z -> string.
Variable TOP_N_LARGEST_INDEXES_SQL_TEMPLATE : string -> Z -> string.
Variable PG_STAT_USER_INDEXES_TEMPLATE : string -> string.
Variable PG_STATIO_USER_INDEXES_TEMPLATE : string -> string.
Variable PG_INDEX_TEMPLATE : string -> string.

Definition _cmd_wo_fetch (sql : string) : M unit :=
  r ← send srv (EExec sql);
  match r with
  | Failed => raise (PostgresCollectorException sql)
  | _ => mret tt
  end.

Definition _cmd (sql : string) : M (list (list pyval) * list string) :=
  r ← send srv (EFetch sql);
  match r with
  | Rows res meta => mret (res, meta)
  | _ => raise (PostgresCollectorException sql)
  end.

Definition get_target_table_info (num_table_to_collect_stats : Z)
  : M target_table_info :=
  '(target_tables_tuple, _) ←
      _cmd (TOP_N_LARGEST_TABLES_SQL_TEMPLATE num_table_to_collect_stats);
  target_tables ← lift (map_result (fun t => index t 0) target_tables_tuple);
  let target_tables_str := id_list_str repr_other str_other target_tables in
  mret {| target_tables := target_tables;
          target_tables_str := target_tables_str |}.

Definition INDEX_STATS_SQLS : list (string * (string -> string)) :=
  [ ("pg_stat_user_indexes_all_fields", PG_STAT_USER_INDEXES_TEMPLATE);
    ("pg_statio_user_indexes_all_fields", PG_STATIO_USER_INDEXES_TEMPLATE);
    ("pg_index_all_fields", PG_INDEX_TEMPLATE) ].

(** The loop over [INDEX_STATS_SQLS.items()], threading the result
    dictionary. *)
Fixpoint index_stats_loop (items : list (string * (string -> string)))
    (target_indexes_str : string) (metrics : gmap string table)
  : M (gmap string table) :=
  match items with
  | [] => mret metrics
  | (field, sql_template) :: rest =>
      '(rows, columns) ← _cmd (sql_template target_indexes_str);
      index_stats_loop rest target_indexes_str
        (<[field := {| columns := columns; rows := rows |}]> metrics)
  end.

Definition collect_index_metrics (info : target_table_info)
    (num_index_to_collect_stats : Z) : M (gmap string table) :=
  let metrics : gmap string table := ∅ in
  let target_tables_str := target_tables_str info in
  '(target_indexes_tuple, _) ←
      _cmd (TOP_N_LARGEST_INDEXES_SQL_TEMPLATE target_tables_str
              num_index_to_collect_stats);
  target_indexes ← lift (map_result (fun t => index t 0) target_indexes_tuple);
  let target_indexes_str := id_list_str repr_other str_other target_indexes in
  metrics ← index_stats_loop INDEX_STATS_SQLS target_indexes_str metrics;
  let metrics :=
    <["indexes_size" := {| columns := ["indexrelid"; "index_size"];
                           rows := [] |}]> metrics in
  match target_indexes with
  | [] => mret metrics
  | _ =>
      sizes ← lift (map_result
                      (fun t => match index t 0, index t 1 with
                                | Ok a, Ok b => Ok [a; b]
                                | Raise e, _ => Raise e
                                | _, Raise e => Raise e
                                end) target_indexes_tuple);
      mret (<["indexes_size" := {| columns := ["indexrelid"; "index_size"];
                                   rows := sizes |}]> metrics)
  end.

End Collector.

(** ** BloatEstimator *)

Global Instance result_ret : MRet result := @Ok.
Global Instance result_bind : MBind result := fun A B f r =>
  match r with
  | Ok a => f a
  | Raise e => Raise e
  end.

(** One row of the padding helper query:
    [('relid', 'attname', 'attalign', 'avg_width')]. *)
Record field_info := {
  relid : Z;
  attname : string;
  attalign : string;
  avg_width : Z
}.

Section Padding.

(** [ALIGNMENT_DICT] of [pg_table_level_stats_sqls]: the alignment in
    bytes of each alignment class. *)
Variable ALIGNMENT_DICT : gmap string Z.

(** The loop over [table_fields_info[1:]], on the pair of the variables
    [padding] and [offset]. *)
Fixpoint padding_loop (fields : list field_info) (padding offset : Z)
  : result (Z * Z) :=
  match fields with
  | [] => Ok (padding, offset)
  | field :: rest =>
      match ALIGNMENT_DICT !! attalign field with
      | None => Raise (KeyError (attalign field))
      | Some cur_alignment =>
          let cur_alignment_ := cur_alignment - 1 in
          let padded_size :=
            Z.land (offset + cur_alignment_) (Z.lnot cur_alignment_) in
          let padding := padding + (padded_size - offset) in
          let offset := padded_size + avg_width field in
          padding_loop rest padding offset
      end
  end.

Definition _calculate_padding_size_for_table
    (table_fields_info : list field_info) : result Z :=
  let padding := 0 in
  first ← index table_fields_info 0;
  let offset := avg_width first in
  '(padding, offset) ← padding_loop (tail table_fields_info) padding offset;
  let padded_size := Z.land (offset + 3) (Z.lnot 3) in
  let padding := padding + (padded_size - offset) in
  Ok padding.

End Padding.

(** The alignment classes of Postgres ([pg_type.typalign]) with the byte
    counts 1, 2, 4 and 8. *)
Definition pg_alignment_dict : gmap string Z :=
  <["c" := 1]> (<["s" := 2]> (<["i" := 4]> (<["d" := 8]> ∅))).

(** Python arithmetic on exact numbers. *)
Definition Qis_zero (x : Q) : bool := Qeq_bool x 0.

Definition Qpositive (x : Q) : bool := negb (Qle_bool x 0).

(** [x / y] on floats. *)
Definition py_div (x y : Q) : result Q :=
  if Qis_zero y then Raise ZeroDivisionError else Ok (x / y)%Q.

(** [x % m] on floats: the remainder has the sign of [m]. *)
Definition py_mod_float (x m : Q) : result Q :=
  if Qis_zero m then Raise ZeroDivisionError
  else Ok (x - m * inject_Z (Qfloor (x / m)))%Q.

(** [a % m] on integers. *)
Definition py_mod_int (a m : Z) : result Z :=
  if m =? 0 then Raise ZeroDivisionError else Ok (a mod m).

(** [est_tblpages_ff] as [_calculate_bloat_ratio_for_table] computes it,
    once [is_na] is known to be false. *)
Definition est_tblpages_ff (padding_size : Z) (tpl_data_size tpl_hdr_size : Q)
    (ma : Z) (reltuples bs page_hdr fillfactor : Q) : result Z :=
  let tpl_data_size := (tpl_data_size + inject_Z padding_size)%Q in
  hdr_rem ← py_mod_float tpl_hdr_size (inject_Z ma);
  data_rem ← py_mod_int (Qceiling tpl_data_size) ma;
  let tpl_size :=
    (4 + tpl_hdr_size + tpl_data_size + 2 * inject_Z ma
     - (if Qis_zero hdr_rem then inject_Z ma else hdr_rem)
     - inject_Z (if data_rem =? 0 then ma else data_rem))%Q in
  per_page ← py_div ((bs - page_hdr) * fillfactor)%Q (tpl_size * 100)%Q;
  pages ← py_div reltuples per_page;
  Ok (Qceiling pages).

Definition _calculate_bloat_ratio_for_table (is_na : bool) (padding_size : Z)
    (tpl_data_size tpl_hdr_size : Q) (ma : Z)
    (tblpages reltuples bs page_hdr fillfactor : Q) : result pyval :=
  if is_na then Ok PNone
  else
    est_tblpages_ff ← est_tblpages_ff padding_size tpl_data_size tpl_hdr_size
                        ma reltuples bs page_hdr fillfactor;
    if Qpositive (tblpages - inject_Z est_tblpages_ff)%Q
    then
      ratio ← py_div (100 * (tblpages - inject_Z est_tblpages_ff))%Q tblpages;
      Ok (PFloat ratio)
    else Ok (PInt 0).

(** ** Statements *)

Definition TABLE_STAT : string :=
  "
SELECT
  sum(seq_scan) as seq_scan,
  sum(seq_tup_read) as seq_tup_read,
  sum(idx_scan) as idx_scan,
  sum(idx_tup_fetch) as idx_tup_fetch,
  sum(n_tup_ins) as n_tup_ins,
  sum(n_tup_upd) as n_tup_upd,
  sum(n_tup_del) as n_tup_del,
  sum(n_tup_hot_upd) as n_tup_hot_upd,
  sum(n_live_tup) as n_live_tup,
  sum(n_dead_tup) as n_dead_tup,
  sum(n_mod_since_analyze) as n_mod_since_analyze,
  sum(vacuum_count) as vacuum_count,
  sum(autovacuum_count) as autovacuum_count,
  sum(analyze_count) as analyze_count,
  sum(autoanalyze_count) as autoanalyze_count
FROM
  pg_stat_user_tables;
".

Definition TABLE_STATIO : string :=
  "
SELECT
  sum(heap_blks_read) as heap_blks_read,
  sum(heap_blks_hit) as heap_blks_hit,
  sum(idx_blks_read) as idx_blks_read,
  sum(idx_blks_hit) as idx_blks_hit,
  sum(toast_blks_read) as toast_blks_read,
  sum(toast_blks_hit) as toast_blks_hit,
  sum(tidx_blks_read) as tidx_blks_read,
  sum(tidx_blks_hit) as tidx_blks_hit
FROM
  pg_statio_user_tables;
".

Definition INDEX_STAT : string :=
  "
SELECT
  sum(idx_scan) as idx_scan,
  sum(idx_tup_read) as idx_tup_read,
  sum(idx_tup_fetch) as idx_tup_fetch
FROM
  pg_stat_user_indexes;
".

Definition INDEX_STATIO : string :=
  "
SELECT
  sum(idx_blks_read) as idx_blks_read,
  sum(idx_blks_hit) as idx_blks_hit
FROM
  pg_statio_user_indexes;
".

Definition PG_STAT_STATEMENTS_EDA_SQL : string :=
  "SELECT queryid, query,  calls, total_exec_time as wait_time, mean_exec_time as latency, blk_read_time+blk_write_time as io, 
            shared_blks_hit,shared_blks_read,shared_blks_dirtied, shared_blks_written, local_blks_hit, local_blks_read, local_blks_dirtied, local_blks_written, 
            temp_blks_read, temp_blks_written, blk_read_time, blk_write_time FROM pg_stat_statements;".

Definition TPS_SQL : string :=
  "SELECT total_calls / total_exec_time AS tps
                                    FROM (
                                    SELECT sum(calls) AS total_calls, sum(total_exec_time) AS total_exec_time
                                    FROM pg_stat_statements
                                    ) AS subquery;".

Definition LATENCY_95TH_SQL : string :=
  "SELECT percentile_cont(0.95) WITHIN GROUP (ORDER BY total_exec_time) AS latency_95th_percentile
                                    FROM pg_stat_statements;".

(** ** Strings *)

(** [str.isspace] on one character (code points below 256). *)
Definition py_isspace (a : ascii) : bool :=
  let n := nat_of_ascii a in
  ((9 <=? n) && (n <=? 13) || (28 <=? n) && (n <=? 32)
   || (n =? 133) || (n =? 160))%nat.

Definition tab : ascii := ascii_of_nat 9.
Definition newline : ascii := ascii_of_nat 10.
Definition space : ascii := ascii_of_nat 32.
Definition underscore : ascii := ascii_of_nat 95.

(** [s.replace(c, '')] for a one-character [c]. *)
Fixpoint remove_char (c : ascii) (s : string) : string :=
  match s with
  | EmptyString => EmptyString
  | String a rest =>
      if decide (a = c) then remove_char c rest
      else String a (remove_char c rest)
  end.

(** [s.replace(c, d)] for one-character [c] and [d]. *)
Fixpoint replace_char (c d : ascii) (s : string) : string :=
  match s with
  | EmptyString => EmptyString
  | String a rest =>
      String (if decide (a = c) then d else a) (replace_char c d rest)
  end.

(** [s.split()]: the maximal runs of characters that are not whitespace. *)
Fixpoint split_ws (s : string) : list string :=
  match s with
  | EmptyString => []
  | String a rest =>
      if py_isspace a then split_ws rest
      else match rest with
           | EmptyString => [String a EmptyString]
           | String b _ =>
               if py_isspace b then String a EmptyString :: split_ws rest
               else match split_ws rest with
                    | w :: ws => String a w :: ws
                    | [] => [String a EmptyString]
                    end
           end
  end.

(** [s.split(c)] for a one-character separator. *)
Fixpoint split_char (c : ascii) (s : string) : list string :=
  match s with
  | EmptyString => [EmptyString]
  | String a rest =>
      if decide (a = c) then EmptyString :: split_char c rest
      else match split_char c rest with
           | w :: ws => String a w :: ws
           | [] => [String a EmptyString]
           end
  end.

(** [xs[-1]]. *)
Definition last_item {A} (xs : list A) : result A :=
  index xs (length xs - 1)%nat.

(** ** The store *)

Definition alloc (o : obj) : M val :=
  fun s => (Ok (Ref (length (heap s))),
            {| heap := heap s ++ [o]; trace := trace s |}).

Definition update (l : loc) (o : obj) : M unit :=
  fun s => (Ok tt, {| heap := <[l := o]> (heap s); trace := trace s |}).

(** The object a value refers to.  A reference always has its object; the
    [SystemError] stands for a store that Python cannot produce. *)
Definition deref (v : val) (not_an_object : exn) : M (loc * obj) :=
  fun s => match v with
           | Sc _ => (Raise not_an_object, s)
           | Ref l => match heap s !! l with
                      | Some o => (Ok (l, o), s)
                      | None => (Raise SystemError, s)
                      end
           end.

(** [v.append(x)] *)
Definition list_append (v x : val) : M unit :=
  '(l, o) ← deref v AttributeError;
  match o with
  | OList items => update l (OList (items ++ [x]))
  | ODict _ => raise AttributeError
  end.

(** [len(v)] of a list or a dictionary. *)
Definition py_len (v : val) : M nat :=
  '(_, o) ← deref v TypeError;
  match o with
  | OList items => mret (length items)
  | ODict d => mret (size d)
  end.

(** The items a [for] loop over the list [v] visits. *)
Definition list_items (v : val) : M (list val) :=
  '(_, o) ← deref v TypeError;
  match o with
  | OList items => mret items
  | ODict _ => raise TypeError
  end.

(** [v[i]] for a list [v] and a literal index [i]. *)
Definition getitem_index (v : val) (i : nat) : M val :=
  '(_, o) ← deref v TypeError;
  match o with
  | OList items => lift (index items i)
  | ODict _ => raise (KeyError (KNum (Z.of_nat i) 1))
  end.

(** [v[k]] for a dictionary [v]. *)
Definition getitem (v : val) (k : dkey) : M val :=
  '(_, o) ← deref v TypeError;
  match o with
  | ODict d => match d !! k with
               | Some x => mret x
               | None => raise (KeyError k)
               end
  | OList _ => raise TypeError
  end.

(** [v[k] = x] for a dictionary [v]. *)
Definition setitem (v : val) (k : dkey) (x : val) : M unit :=
  '(l, o) ← deref v TypeError;
  match o with
  | ODict d => update l (ODict (<[k := x]> d))
  | OList _ => raise TypeError
  end.

(** [del v[k]] for a dictionary [v]. *)
Definition delitem (v : val) (k : dkey) : M unit :=
  '(l, o) ← deref v TypeError;
  match o with
  | ODict d => match d !! k with
               | Some _ => update l (ODict (delete k d))
               | None => raise (KeyError k)
               end
  | OList _ => raise TypeError
  end.

(** [k in v] for a dictionary [v]. *)
Definition contains (k : dkey) (v : val) : M bool :=
  '(_, o) ← deref v TypeError;
  match o with
  | ODict d => mret (bool_decide (is_Some (d !! k)))
  | OList _ => mret false
  end.

(** The entries of the dictionary [v], for [v.items()] and [**v]. *)
Definition dict_entries (v : val) (not_a_mapping : exn) : M (gmap dkey val) :=
  '(_, o) ← deref v not_a_mapping;
  match o with
  | ODict d => mret d
  | OList _ => raise not_a_mapping
  end.

(** [v.update(w)]: the entries of [w] win. *)
Definition dict_update (v w : val) : M unit :=
  '(l, o) ← deref v AttributeError;
  match o with
  | ODict d => e ← dict_entries w TypeError; update l (ODict (e ∪ d))
  | OList _ => raise AttributeError
  end.

(** [if 'stats_reset' in row: del row['stats_reset']] *)
Definition drop_stats_reset (lookup_row : M val) : M unit :=
  row ← lookup_row;
  b ← contains "stats_reset" row;
  if b : bool then (row ← lookup_row; delitem row "stats_reset") else mret tt.

(** ** Row normalisation *)

(** The conversions [_get_metrics] applies to a value that is not [None]. *)
Definition normalize (val : pyval) : pyval :=
  match val with
  | PDatetime iso => PStr iso
  | PDecimal q => PFloat q
  | PStr s =>
      let s := remove_char tab s in
      let s := remove_char newline s in
      PStr (String.concat " " (split_ws s))
  | _ => val
  end.

(** [int(x)] of a scalar; parsing a string is left to [int_of_str]. *)
Definition py_int (int_of_str : string -> result Z) (x : pyval) : result Z :=
  match x with
  | PInt z => Ok z
  | PBool b => Ok (if b then 1 else 0)
  | PFloat q | PDecimal q => Ok (Z.quot (Qnum q) (Z.pos (Qden q)))
  | PStr s => int_of_str s
  | PNone | PDatetime _ => Raise TypeError
  end.

(** [x.replace(' ', '_')] *)
Definition py_replace_space (x : val) : result val :=
  match x with
  | Sc (PStr s) => Ok (Sc (PStr (replace_char space underscore s)))
  | Sc (PDatetime _) => Raise TypeError
  | _ => Raise AttributeError
  end.

Section Cycle.

Variable srv : server.
Variable int_of_str : string -> result Z.

(** The loop over [enumerate(data)] that fills [row]. *)
Fixpoint fill_row (row : val) (col : list string) (idx : nat)
    (data : list pyval) : M unit :=
  match data with
  | [] => mret tt
  | val :: rest =>
      match val with
      | PNone => mret tt
      | _ =>
          let val := normalize val in
          name ← lift (index col idx);
          setitem row (KStr name) (Sc val)
      end;;
      fill_row row col (S idx) rest
  end.

Definition _get_metrics (query : string) : M val :=
  metrics ← alloc (OList []);
  '(ret, col) ← _cmd srv query;
  (if (0 <? length ret)%nat then
     for_each ret (fun data =>
       row ← alloc (ODict ∅);
       fill_row row col 0 data;;
       list_append metrics row)
   else mret tt);;
  mret metrics.

Definition raw_execute (sql : string) : M unit :=
  r ← send srv (ERawExec sql);
  match r with Failed => raise DriverError | _ => mret tt end.

Definition commit : M unit :=
  r ← send srv ECommit;
  match r with Failed => raise DriverError | _ => mret tt end.

Definition rollback : M unit :=
  r ← send srv ERollback;
  match r with Failed => raise DriverError | _ => mret tt end.

Definition check_module_sql : string :=
  "SELECT count(*) FROM pg_extension where extname='pg_stat_statements';".

Definition load_module_sql : string := "CREATE EXTENSION pg_stat_statements;".

Definition _load_stat_statements : M bool :=
  '(res, _) ← _cmd srv check_module_sql;
  row ← lift (index res 0);
  count ← lift (index row 0);
  let module_exists := bool_decide (key_of count = KNum 1 1) in
  if negb module_exists then
    try_any (raw_execute load_module_sql;; commit;; mret true)
            (rollback;; mret false)
  else mret true.

Definition stat_statements_reset_sql : string :=
  "select pg_stat_statements_reset(0);".

(** The [try] block assigns [res] before it resets, so a failing reset
    keeps the rows that were read. *)
Definition _get_stat_statements : M val :=
  res ← alloc (OList []);
  success ← _load_stat_statements;
  if success : bool then
    try_collector
      (res ← _get_metrics PG_STAT_STATEMENTS_EDA_SQL;
       try_collector (_cmd_wo_fetch srv stat_statements_reset_sql) (mret tt);;
       mret res)
      (mret res)
  else mret res.

Definition PG_STAT_VIEWS_LOCAL_RAW_database : list string :=
  ["pg_stat_database"; "pg_stat_database_conflicts"].

Definition PG_STAT_VIEWS_LOCAL_KEY_database : string := "datid".

Definition activity_queries : list string :=
  [ "select extract(epoch from (NOW() - min(backend_start))) as oldest_backend_time_sec from pg_stat_activity;";
    "select extract(epoch from (NOW() - min(query_start))) as longest_query_time_sec from pg_stat_activity where state = 'active';";
    "select extract(epoch from (NOW() - min(xact_start))) as longest_transaction_time_sec from pg_stat_activity where state = 'active';";
    "SELECT count(*) as num_sessions FROM pg_stat_activity WHERE state = 'active';";
    "SELECT count(*) as num_wait_sessions FROM pg_stat_activity WHERE wait_event_type is not null;" ].

Definition state_sql : string :=
  "select state, count(*) from pg_stat_activity group by state having state is not null;".

Definition wait_event_sql : string :=
  "select wait_event_type, count(*) from pg_stat_activity group by wait_event_type having wait_event_type is not null;".

Definition stat_reset_sql : string := "select pg_stat_reset();".

(** The name a database view is reported under. *)
Definition view_name (view : string) : result string :=
  if decide (view = "pg_stat_database") then Ok "database_statistics"
  else last_item (split_char underscore view).

(** [assert len(rows) == 1] *)
Definition assert_one_row (rows : val) : M unit :=
  n ← py_len rows;
  if (n =? 1)%nat then mret tt else raise AssertionError.

(** The loop over the activity queries; [slot] is ['fields'] or ['data']. *)
Definition sessions_loop (metric : val) (slot : string) : M unit :=
  for_each activity_queries (fun q =>
    '(res, meta) ← _cmd srv q;
    row ← lift (index res 0);
    x ← lift (index row 0);
    n ← lift (py_int int_of_str x);
    fields ← getitem metric slot;
    name ← lift (index meta 0);
    setitem fields (KStr name) (Sc (PInt n))).

(** The loop over the rows of the session states. *)
Definition active_sessions_loop (rows metric : val) (slot : string) : M unit :=
  items ← list_items rows;
  for_each items (fun row =>
    state ← getitem row "state";
    state ← lift (py_replace_space state);
    setitem row "state" state;;
    count ← getitem row "count";
    fields ← getitem metric slot;
    state ← getitem row "state";
    match state with
    | Sc k => setitem fields (key_of k) count
    | Ref _ => raise TypeError
    end).

(** The loop over the rows of the wait events. *)
Definition waiting_sessions_loop (rows metric : val) (slot : string) : M unit :=
  items ← list_items rows;
  for_each items (fun row =>
    count ← getitem row "count";
    fields ← getitem metric slot;
    k ← getitem row "wait_event_type";
    match k with
    | Sc k => setitem fields (key_of k) count
    | Ref _ => raise TypeError
    end).

(** [{k: v for k, v in row.items() if keep k}] *)
Definition dict_filter (keep : dkey -> bool) (row : val) : M val :=
  e ← dict_entries row AttributeError;
  alloc (ODict (filter (fun kv => keep kv.1 = true) e)).

Definition collect_metrics_influx (metrics : val) : M val :=
  (* bgwriter *)
  let view := "bgwriter" in
  let query := "SELECT * FROM pg_stat_bgwriter;" in
  rows ← _get_metrics query;
  assert_one_row rows;;
  metric ← alloc (ODict ∅);
  setitem metric "measurement" (Sc (PStr view));;
  drop_stats_reset (getitem_index rows 0);;
  row0 ← getitem_index rows 0;
  setitem metric "fields" row0;;
  list_append metrics metric;;
  (* database *)
  let views := PG_STAT_VIEWS_LOCAL_RAW_database in
  let views_key := PG_STAT_VIEWS_LOCAL_KEY_database in
  for_each views (fun view =>
    let query := "SELECT * FROM " +:+ view +:+ ";" in
    rows ← _get_metrics query;
    items ← list_items rows;
    for_each items (fun row =>
      metric ← alloc (ODict ∅);
      name ← lift (view_name view);
      setitem metric "measurement" (Sc (PStr name));;
      key ← getitem row (KStr views_key);
      tags ← alloc (ODict {[ KStr views_key := key ]});
      setitem metric "tags" tags;;
      delitem row (KStr views_key);;
      drop_stats_reset (mret row);;
      setitem metric "fields" row;;
      list_append metrics metric));;
  (* access *)
  let view := "access" in
  let query := TABLE_STAT in
  rows ← _get_metrics query;
  metric ← alloc (ODict ∅);
  setitem metric "measurement" (Sc (PStr view));;
  drop_stats_reset (getitem_index rows 0);;
  row0 ← getitem_index rows 0;
  setitem metric "fields" row0;;
  let query := INDEX_STAT in
  rows ← _get_metrics query;
  fields ← getitem metric "fields";
  row0 ← getitem_index rows 0;
  dict_update fields row0;;
  list_append metrics metric;;
  (* io *)
  let view := "io" in
  let query := TABLE_STATIO in
  rows ← _get_metrics query;
  metric ← alloc (ODict ∅);
  setitem metric "measurement" (Sc (PStr view));;
  drop_stats_reset (getitem_index rows 0);;
  row0 ← getitem_index rows 0;
  setitem metric "fields" row0;;
  let query := INDEX_STATIO in
  rows ← _get_metrics query;
  fields ← getitem metric "fields";
  row0 ← getitem_index rows 0;
  dict_update fields row0;;
  list_append metrics metric;;
  (* activity *)
  metric ← alloc (ODict ∅);
  setitem metric "measurement" (Sc (PStr "sessions"));;
  fields ← alloc (ODict ∅);
  setitem metric "fields" fields;;
  sessions_loop metric "fields";;
  list_append metrics metric;;
  rows ← _get_metrics state_sql;
  metric ← alloc (ODict ∅);
  setitem metric "measurement" (Sc (PStr "active_sessions"));;
  fields ← alloc (ODict ∅);
  setitem metric "fields" fields;;
  active_sessions_loop rows metric "fields";;
  list_append metrics metric;;
  rows ← _get_metrics wait_event_sql;
  metric ← alloc (ODict ∅);
  setitem metric "measurement" (Sc (PStr "waiting_sessions"));;
  fields ← alloc (ODict ∅);
  setitem metric "fields" fields;;
  waiting_sessions_loop rows metric "fields";;
  list_append metrics metric;;
  (* query statistics *)
  rows ← _get_stat_statements;
  items ← list_items rows;
  for_each items (fun row =>
    metric ← alloc (ODict ∅);
    setitem metric "measurement" (Sc (PStr "query_statistics"));;
    tags ← dict_filter (fun k => bool_decide (k = KStr "queryid")) row;
    setitem metric "tags" tags;;
    fields ← dict_filter (fun k => bool_decide (k ≠ KStr "queryid")) row;
    setitem metric "fields" fields;;
    list_append metrics metric);;
  _cmd_wo_fetch srv stat_reset_sql;;
  mret metrics.

Definition collect_metrics_pg (metrics : val) : M val :=
  (* bgwriter *)
  let view := "bgwriter" in
  let query := "SELECT * FROM pg_stat_bgwriter;" in
  rows ← _get_metrics query;
  assert_one_row rows;;
  metric ← alloc (ODict ∅);
  drop_stats_reset (getitem_index rows 0);;
  setitem metric "table" (Sc (PStr view));;
  row0 ← getitem_index rows 0;
  setitem metric "data" row0;;
  list_append metrics metric;;
  (* database *)
  let views := PG_STAT_VIEWS_LOCAL_RAW_database in
  for_each views (fun view =>
    let query := "SELECT * FROM " +:+ view +:+ ";" in
    rows ← _get_metrics query;
    metric ← alloc (ODict ∅);
    name ← lift (view_name view);
    setitem metric "table" (Sc (PStr name));;
    items ← list_items rows;
    for_each items (fun row => drop_stats_reset (mret row));;
    setitem metric "data" rows;;
    list_append metrics metric);;
  (* access *)
  let view := "access" in
  let query := TABLE_STAT in
  rows ← _get_metrics query;
  metric ← alloc (ODict ∅);
  setitem metric "table" (Sc (PStr view));;
  drop_stats_reset (getitem_index rows 0);;
  row0 ← getitem_index rows 0;
  setitem metric "data" row0;;
  let query := INDEX_STAT in
  rows ← _get_metrics query;
  data ← getitem metric "data";
  row0 ← getitem_index rows 0;
  dict_update data row0;;
  list_append metrics metric;;
  (* io *)
  let view := "io" in
  let query := TABLE_STATIO in
  rows ← _get_metrics query;
  metric ← alloc (ODict ∅);
  setitem metric "table" (Sc (PStr view));;
  drop_stats_reset (getitem_index rows 0);;
  row0 ← getitem_index rows 0;
  setitem metric "data" row0;;
  let query := INDEX_STATIO in
  rows ← _get_metrics query;
  data ← getitem metric "data";
  row0 ← getitem_index rows 0;
  dict_update data row0;;
  list_append metrics metric;;
  (* activity *)
  metric ← alloc (ODict ∅);
  setitem metric "table" (Sc (PStr "sessions"));;
  data ← alloc (ODict ∅);
  setitem metric "data" data;;
  sessions_loop metric "data";;
  list_append metrics metric;;
  rows ← _get_metrics state_sql;
  metric ← alloc (ODict ∅);
  setitem metric "table" (Sc (PStr "active_sessions"));;
  data ← alloc (ODict ∅);
  setitem metric "data" data;;
  active_sessions_loop rows metric "data";;
  list_append metrics metric;;
  rows ← _get_metrics wait_event_sql;
  metric ← alloc (ODict ∅);
  setitem metric "table" (Sc (PStr "waiting_sessions"));;
  data ← alloc (ODict ∅);
  setitem metric "data" data;;
  waiting_sessions_loop rows metric "data";;
  list_append metrics metric;;
  (* query statistics *)
  rows ← _get_stat_statements;
  metric ← alloc (ODict ∅);
  setitem metric "table" (Sc (PStr "query_statistics"));;
  setitem metric "data" rows;;
  list_append metrics metric;;
  (* performance *)
  tps_rows ← _get_metrics TPS_SQL;
  tps ← getitem_index tps_rows 0;
  latency_rows ← _get_metrics LATENCY_95TH_SQL;
  latency_95th ← getitem_index latency_rows 0;
  metric ← alloc (ODict ∅);
  setitem metric "table" (Sc (PStr "performance"));;
  tps_entries ← dict_entries tps TypeError;
  latency_entries ← dict_entries latency_95th TypeError;
  merged ← alloc (ODict (latency_entries ∪ tps_entries));
  data ← alloc (OList [merged]);
  setitem metric "data" data;;
  list_append metrics metric;;
  _cmd_wo_fetch srv stat_reset_sql;;
  mret metrics.

End Cycle.

(** ** Reference definitions

    The rules in the words of the specification, and the inputs of the
    examples. *)

(** The padding rule in the words of the specification: the offset starts
    at the first column's width; each later column rounds the offset up with
    [(offset + mask) AND NOT mask], [mask = align - 1], adds the difference
    to the padding and advances by the column's width; one 4-byte step
    closes the tuple.  A column is its pair (alignment, width). *)
Definition spec_padded_offset (align offset : Z) : Z :=
  let mask := align - 1 in Z.land (offset + mask) (Z.lnot mask).

Fixpoint spec_padding_from (offset : Z) (cols : list (Z * Z)) : Z :=
  match cols with
  | [] => spec_padded_offset 4 offset - offset
  | (align, width) :: rest =>
      let padded_offset := spec_padded_offset align offset in
      (padded_offset - offset) + spec_padding_from (padded_offset + width) rest
  end.

(** The least multiple of [align] that is not below [offset]. *)
Definition next_boundary (align offset : Z) : Z :=
  align * ((offset + align - 1) / align).

Definition example_columns : list field_info :=
  [ {| relid := 1544350; attname := "fixture_id"; attalign := "i"; avg_width := 4 |};
    {| relid := 1544350; attname := "flag"; attalign := "c"; avg_width := 1 |};
    {| relid := 1544350; attname := "score"; attalign := "d"; avg_width := 8 |} ].

(** The claim as the specification states it, for every alignment. *)
Definition zero_width_column_invariance : Prop :=
  forall (dict : gmap string Z) (fields : list field_info)
         (prev extra : field_info),
    last fields = Some prev ->
    attalign extra = attalign prev ->
    avg_width extra = 0 ->
    _calculate_padding_size_for_table dict (fields ++ [extra])
    = _calculate_padding_size_for_table dict fields.

Local Open Scope Q_scope.

(** A bloat ratio that is a number between 0 and 100. *)
Definition ratio_in_range (v : pyval) : Prop :=
  match v with
  | PInt z => (0 <= z <= 100)%Z
  | PFloat q => 0 <= q /\ q <= 100
  | _ => False
  end.

(** The claim as the specification states it, with nonnegative factors as
    its only precondition: the function never returns a number outside the
    interval from 0 to 100. *)
Definition bloat_ratio_range_nonnegative : Prop :=
  forall (is_na : bool) (padding_size : Z) (tpl_data_size tpl_hdr_size : Q)
         (ma : Z) (tblpages reltuples bs page_hdr fillfactor : Q) (v : pyval),
    (0 <= padding_size)%Z -> 0 <= tpl_data_size -> 0 <= tpl_hdr_size ->
    (0 <= ma)%Z -> 0 <= tblpages -> 0 <= reltuples ->
    0 <= bs -> 0 <= page_hdr -> 0 <= fillfactor ->
    _calculate_bloat_ratio_for_table is_na padding_size tpl_data_size
      tpl_hdr_size ma tblpages reltuples bs page_hdr fillfactor = Ok v ->
    v = PNone \/ ratio_in_range v.

Local Close Scope Q_scope.

(** The three-way rule on the selected ids, as the code renders it. *)
Definition render_ids (ids : list Z) : string :=
  match ids with
  | [] => "(0)"
  | [x] => "(" +:+ pretty x +:+ ")"
  | _ => "(" +:+ String.concat ", " (pretty <$> ids) +:+ ")"
  end.

(** The rule in the form the specification gives for two or more ids,
    ["(id1,id2,...)"]. *)
Definition spec_render_ids (ids : list Z) : string :=
  match ids with
  | [] => "(0)"
  | [x] => "(" +:+ pretty x +:+ ")"
  | _ => "(" +:+ String.concat "," (pretty <$> ids) +:+ ")"
  end.

(** A server whose size rankings select the ids 16384 and 16390. *)
Definition two_tables_server : server := fun _ ev =>
  match ev with
  | EFetch _ => Rows [[PInt 16384; PInt 90112]; [PInt 16390; PInt 8192]]
                     ["relid"; "size"]
  | _ => Done
  end.

(** Stand-ins for the statement templates in the examples. *)
Definition top_tables_sql (n : Z) : string :=
  "SELECT relid, size FROM largest_tables LIMIT " +:+ pretty n +:+ ";".

Definition top_indexes_sql (table_list : string) (n : Z) : string :=
  "SELECT indexrelid, size FROM largest_indexes WHERE relid IN "
  +:+ table_list +:+ " LIMIT " +:+ pretty n +:+ ";".

Definition index_view_sql (view index_list : string) : string :=
  "SELECT * FROM " +:+ view +:+ " WHERE indexrelid IN " +:+ index_list +:+ ";".

(** The examples only render integers. *)
Definition no_render (x : pyval) : string := EmptyString.

Definition two_tables_info : target_table_info :=
  {| target_tables := [PInt 16384; PInt 16390];
     target_tables_str := "(16384, 16390)" |}.

(** The claim as the specification states it: the string returned for the
    selected ids is the comma list without spaces. *)
Definition id_list_without_spaces : Prop :=
  forall (srv : server) (repr_other str_other : pyval -> string)
         (sql : Z -> string) (n : Z) (s s' : state)
         (info : target_table_info) (ids : list Z),
    get_target_table_info srv repr_other str_other sql n s = (Ok info, s') ->
    target_tables info = PInt <$> ids ->
    target_tables_str info = spec_render_ids ids.

(** *** Collection cycles *)

(** The two statistics resets. *)
Definition is_reset (ev : event) : bool :=
  match ev with
  | EExec sql =>
      bool_decide (sql = stat_reset_sql \/ sql = stat_statements_reset_sql)
  | _ => false
  end.

Definition is_read (ev : event) : bool :=
  match ev with
  | EFetch _ => true
  | _ => false
  end.

(** No read follows a reset. *)
Fixpoint reads_complete_before_reset (t : list event) : bool :=
  match t with
  | [] => true
  | ev :: rest =>
      (if is_reset ev then forallb (fun e => negb (is_read e)) rest else true)
      && reads_complete_before_reset rest
  end.

(** A server on which a cycle runs to its end: one row with the column
    [datid] for every query but the two grouped ones, which find no
    session. *)
Definition healthy_server : server := fun _ ev =>
  match ev with
  | EFetch sql =>
      if decide (sql = state_sql) then Rows [] ["state"; "count"]
      else if decide (sql = wait_event_sql)
           then Rows [] ["wait_event_type"; "count"]
           else Rows [[PInt 1]] ["datid"]
  | _ => Done
  end.

Definition no_int_of_str : string -> result Z := fun _ => Raise ValueError.

(** The caller's empty list [metrics = []]. *)
Definition empty_metrics : state := {| heap := [OList []]; trace := [] |}.

(** *** The store around a cycle *)

Section World.

(** The store before the call, the location of the caller's list and its
    items, and the key under which a record carries its name. *)
Variable h0 : list obj.
Variable l : loc.
Variable old : list val.
Variable slot : string.

(** What the cycle has appended to the caller's list. *)
Definition records (h : list obj) : list val :=
  match h !! l with
  | Some (OList items) => drop (length old) items
  | _ => []
  end.

(** The record under construction, with its name once it has one. *)
Definition open_record : Type := option (loc * option string).

(** An object the cycle has created, that is neither an appended record
    nor the record under construction. *)
Definition plain (h : list obj) (cur : open_record) (k : loc) : Prop :=
  (length h0 <= k < length h)%nat
  /\ (Ref k ∉ records h)
  /\ fst <$> cur <> Some k.

Definition pv (h : list obj) (cur : open_record) (v : val) : Prop :=
  match v with
  | Sc _ => True
  | Ref k => plain h cur k
  end.

Definition obj_Forall (P : val -> Prop) (o : obj) : Prop :=
  match o with
  | OList items => Forall P items
  | ODict d => map_Forall (fun _ => P) d
  end.

Definition named (h : list obj) (k : loc) (name : string) : Prop :=
  exists d, h !! k = Some (ODict d) /\ d !! KStr slot = Some (Sc (PStr name)).

Definition open_ok (h : list obj) (cur : open_record) : Prop :=
  match cur with
  | None => True
  | Some (m, name) =>
      (length h0 <= m < length h)%nat
      /\ (Ref m ∉ records h)
      /\ exists d, h !! m = Some (ODict d)
                   /\ match name with
                      | Some x => d !! KStr slot = Some (Sc (PStr x))
                      | None => True
                      end
  end.

(** The store [h] in the middle of a cycle that has appended records
    named [names] so far. *)
Record world (names : list string) (cur : open_record) (h : list obj)
  : Prop := {
  w_len : (length h0 <= length h)%nat;
  w_frame : forall k, (k < length h0)%nat -> k <> l -> h !! k = h0 !! k;
  w_list : exists recs,
      h !! l = Some (OList (old ++ (Ref <$> recs)))
      /\ Forall2 (named h) recs names
      /\ Forall (fun k => (length h0 <= k < length h)%nat) recs;
  w_closed : forall k o,
      (length h0 <= k)%nat -> h !! k = Some o -> obj_Forall (pv h cur) o;
  w_cur : open_ok h cur
}.

(** Objects that were plain stay plain. *)
Definition mono (h : list obj) (cur : open_record)
    (h' : list obj) (cur' : open_record) : Prop :=
  forall v, pv h cur v -> pv h' cur' v.

End World.

(** The outcome of a run: [Q] on a return, [E] on an exception. *)
Definition run_post {A} (Q : A -> state -> Prop) (E : state -> Prop)
    (out : result A * state) : Prop :=
  match out with
  | (Ok a, s') => Q a s'
  | (Raise _, s') => E s'
  end.

Section Quiet.

Variable h0 : list obj.
Variable l : loc.
Variable old : list val.
Variable slot : string.

(** A value the cycle may read from: a scalar or an object it created. *)
Definition fresh (v : val) : Prop :=
  match v with
  | Sc _ => True
  | Ref k => (length h0 <= k)%nat
  end.

(** A run from [s] that leaves alone the caller's list and the record
    under construction, and returns something that satisfies [G]. *)
Definition quiet {A} (names : list string) (cur : open_record) (s : state)
    (G : list obj -> A -> Prop) (out : result A * state) : Prop :=
  run_post
    (fun a s' => world h0 l old slot names cur (heap s')
                 /\ mono h0 l old (heap s) cur (heap s') cur
                 /\ G (heap s') a)
    (fun s' => world h0 l old slot names cur (heap s')
               /\ mono h0 l old (heap s) cur (heap s') cur)
    out.

End Quiet.

(** *** The order of the appended records *)

Definition influx_order (names : list string) : Prop :=
  exists n1 n2 n3 : nat,
    names = ["bgwriter"]
            ++ replicate n1 "database_statistics"
            ++ replicate n2 "conflicts"
            ++ ["access"; "io"; "sessions"; "active_sessions";
                "waiting_sessions"]
            ++ replicate n3 "query_statistics".

Definition pg_order (names : list string) : Prop :=
  names = ["bgwriter"; "database_statistics"; "conflicts"; "access"; "io";
           "sessions"; "active_sessions"; "waiting_sessions";
           "query_statistics"; "performance"].

(** What a cycle called on the list at [l], with items [old], may do to the
    store: every other object that existed is unchanged, the list keeps its
    items in place and gains references to new objects, which are records
    named under [slot]; on return the result is the list itself and the
    names follow [order]. *)
Definition appended_only (l : loc) (old : list val) (slot : string)
    (order : list string -> Prop) (s : state) (out : result val * state)
  : Prop :=
  (forall k o, k <> l -> heap s !! k = Some o -> heap out.2 !! k = Some o)
  /\ exists (recs : list loc) (names : list string),
      heap out.2 !! l = Some (OList (old ++ (Ref <$> recs)))
      /\ Forall (fun k => (length (heap s) <= k)%nat) recs
      /\ Forall2 (named slot (heap out.2)) recs names
      /\ forall v, out.1 = Ok v -> v = Ref l /\ order names.

(** *** Row mappings *)

(** The cleaning [_get_metrics] applies to a string. *)
Definition clean (s : string) : string :=
  String.concat " " (split_ws (remove_char newline (remove_char tab s))).

(** The mapping of one row in the words of the specification: keyed by
    column name, null values dropped, the other values normalised. *)
Definition spec_fill (d : gmap dkey val) (cells : list (string * pyval))
  : gmap dkey val :=
  fold_left
    (fun d cell =>
       match cell.2 with
       | PNone => d
       | raw => <[KStr cell.1 := Sc (normalize raw)]> d
       end)
    cells d.

Definition spec_row (col : list string) (data : list pyval) : gmap dkey val :=
  spec_fill ∅ (zip col data).

(** A string without whitespace, and a string with its whitespace removed. *)
Fixpoint no_ws (s : string) : bool :=
  match s with
  | EmptyString => true
  | String a rest => negb (py_isspace a) && no_ws rest
  end.

Fixpoint strip_ws (s : string) : string :=
  match s with
  | EmptyString => EmptyString
  | String a rest =>
      if py_isspace a then strip_ws rest else String a (strip_ws rest)
  end.

Definition word (w : string) : Prop := w <> EmptyString /\ no_ws w = true.

(** Every character is a space or no whitespace at all. *)
Fixpoint spaces_only (s : string) : bool :=
  match s with
  | EmptyString => true
  | String a rest =>
      (bool_decide (a = space) || negb (py_isspace a)) && spaces_only rest
  end.

(** A reply with a null, a padded string, a decimal and a timestamp. *)
Definition sample_reply_server : server := fun _ ev =>
  match ev with
  | EFetch _ =>
      Rows [ [PInt 16384; PNone; PStr (" checkpoints " +:+ String tab "  timed ");
              PDecimal (1 # 2); PDatetime "2023-05-12T19:48:47"];
             [PInt 16385; PStr "idle"; PNone; PNone; PNone] ]
           ["datid"; "state"; "note"; "ratio"; "stats_reset"]
  | _ => Done
  end.

(** *** What a computation sends *)

(** Every event the computation sends satisfies [P]. *)
Definition only {A} (P : event -> bool) (m : M A) : Prop :=
  forall s, exists evs,
    trace (m s).2 = trace s ++ evs /\ forallb P evs = true.

Definition not_reset (ev : event) : bool := negb (is_reset ev).
Definition not_read (ev : event) : bool := negb (is_read ev).
Definition nothing (ev : event) : bool := false.

(** Events that are no resets, then events that are no reads. *)
Definition reset_at_end {A} (m : M A) : Prop :=
  forall s, exists evs1 evs2,
    trace (m s).2 = trace s ++ evs1 ++ evs2
    /\ forallb not_reset evs1 = true /\ forallb not_read evs2 = true.

(** No read, and the unconditional reset last on a return. *)
Definition closing {A} (m : M A) : Prop :=
  forall s, exists evs,
    trace (m s).2 = trace s ++ evs
    /\ forallb not_read evs = true
    /\ forall v, (m s).1 = Ok v -> last evs = Some (EExec stat_reset_sql).

(** No read after a reset, and the unconditional reset last on a return. *)
Definition resets_last {A} (m : M A) : Prop :=
  forall s, exists evs,
    trace (m s).2 = trace s ++ evs
    /\ reads_complete_before_reset evs = true
    /\ forall v, (m s).1 = Ok v -> last evs = Some (EExec stat_reset_sql).

Definition anything (ev : event) : bool := true.

(** The unconditional reset is the last event of a run that returns. *)
Definition ends_with_reset {A} (m : M A) : Prop :=
  forall s, exists evs,
    trace (m s).2 = trace s ++ evs
    /\ forall v, (m s).1 = Ok v -> last evs = Some (EExec stat_reset_sql).

(** * The rest of the collector *)

(** ** The collector object *)

(** What [__init__] leaves in [self], the connection apart. *)
Record collector := {
  _version_str : string;
  PG_STAT_VIEWS : list string;
  PG_STAT_STATEMENTS_SQL : string
}.

Definition dot : ascii := ascii_of_nat 46.

Section Construction.

(** [float(s)] of a string is not modelled; the number it returns is taken
    exactly. *)
Variable py_float : string -> result Q.

(** [float(".".join(version.split(".")[:2]))] *)
Definition version_float (version : string) : result Q :=
  py_float (String.concat "." (take 2 (split_char dot version))).

Definition __init__ (version : string) : result collector :=
  version_float ← version_float version;
  Ok {| _version_str := version;
        PG_STAT_VIEWS :=
          if Qle_bool (94 # 10) version_float
          then ["pg_stat_archiver"; "pg_stat_bgwriter"]
          else ["pg_stat_bgwriter"];
        PG_STAT_STATEMENTS_SQL :=
          if Qle_bool (13 # 1) version_float
          then "SELECT CONCAT(userid, '_', dbid, '_', queryid) as queryid, "
               +:+ "calls, mean_exec_time as avg_time_ms "
               +:+ "FROM pg_stat_statements;"
          else "SELECT CONCAT(userid, '_', dbid, '_', queryid) as queryid, "
               +:+ "calls, mean_time as avg_time_ms "
               +:+ "FROM pg_stat_statements;" |}.

End Construction.

Definition get_version (self : collector) : string := _version_str self.

(** ** Knobs and row counts *)

Definition KNOBS_SQL : string := "SELECT name, setting From pg_settings;".

Definition ROW_NUM_STAT : string :=
  "
SELECT
  count(*) as num_tables,
  count(nullif(n_live_tup = 0, false)) as num_empty_tables,
  count(nullif(n_live_tup > 0 and n_live_tup <= 1e4, false)) as num_tables_row_count_0_10k,
  count(nullif(n_live_tup > 1e4 and n_live_tup <= 1e5, false)) as num_tables_row_count_10k_100k,
  count(nullif(n_live_tup > 1e5 and n_live_tup <= 1e6, false)) as num_tables_row_count_100k_1m,
  count(nullif(n_live_tup > 1e6 and n_live_tup <= 1e7, false)) as num_tables_row_count_1m_10m,
  count(nullif(n_live_tup > 1e7 and n_live_tup <= 1e8, false)) as num_tables_row_count_10m_100m,
  count(nullif(n_live_tup > 1e8, false)) as num_tables_row_count_100m_inf,
  max(n_live_tup) as max_row_num,
  min(n_live_tup) as min_row_num
FROM
  pg_stat_user_tables;
".

Definition ROW_NUMS_SQL : string := ROW_NUM_STAT.

(** [dict(zip(keys, values))], also as a comprehension over the pairs: a
    later pair wins over an earlier one with the same key. *)
Definition dict_of_zip (keys : list string) (values : list pyval)
  : gmap string pyval :=
  fold_left (fun d entry => <[entry.1 := entry.2]> d) (zip keys values) ∅.

(** The value [collect_knobs] stores for a setting. *)
Definition knob_setting (val : pyval) : pyval :=
  match val with
  | PDatetime iso => PStr iso
  | _ => val
  end.

Section Knobs.

Variable srv : server.

Definition collect_knobs : M val :=
  inner ← alloc (ODict ∅);
  outer ← alloc (ODict {[ KStr "global" := inner ]});
  knobs ← alloc (ODict (<[ KStr "global" := outer ]>
                          {[ KStr "local" := Sc PNone ]}));
  '(knobs_info, _) ← _cmd srv KNOBS_SQL;
  knobs_json ← alloc (ODict ∅);
  for_each knobs_info (fun knob_tuple =>
    val ← lift (index knob_tuple 1);
    let val := knob_setting val in
    name ← lift (index knob_tuple 0);
    setitem knobs_json (key_of name) (Sc val));;
  outer ← getitem knobs "global";
  setitem outer "global" knobs_json;;
  mret knobs.

Definition collect_table_row_number_stats : M (gmap string pyval) :=
  raw_stats ← _cmd srv ROW_NUMS_SQL;
  first_row ← lift (index raw_stats.1 0);
  mret (dict_of_zip raw_stats.2 first_row).

End Knobs.

(** ** Table level statistics *)

(** [itertools.groupby(xs, key)] with every group read out as a list: the
    maximal runs of neighbours with the same key. *)
Fixpoint groupby {A K} `{EqDecision K} (key : A -> K) (xs : list A)
  : list (K * list A) :=
  match xs with
  | [] => []
  | x :: rest =>
      match groupby key rest with
      | (k, g) :: groups =>
          if decide (key x = k) then (key x, x :: g) :: groups
          else (key x, [x]) :: (k, g) :: groups
      | [] => [(key x, [x])]
      end
  end.

(** A dictionary in the order of insertion, with the keys as they were
    first inserted: an assignment to a key that is present (that is equal,
    as [1 == 1.0]) replaces the value and keeps key and place. *)
Definition odict (V : Type) : Type := list (pyval * V).

Fixpoint odict_set {V} (k : pyval) (v : V) (d : odict V) : odict V :=
  match d with
  | [] => [(k, v)]
  | (k', v') :: rest =>
      if decide (key_of k' = key_of k) then (k', v) :: rest
      else (k', v') :: odict_set k v rest
  end.

(** A row of the padding helper query that is the tuple of the annotation,
    [(int, str, str, int)]. *)
Definition field_of_row (row : list pyval) : option field_info :=
  match row with
  | [PInt relid; PStr attname; PStr attalign; PInt avg_width] =>
      Some {| relid := relid; attname := attname; attalign := attalign;
              avg_width := avg_width |}
  | _ => None
  end.

(** The parameters [_calculate_bloat_ratio_for_table] takes by keyword
    from the factors of a table. *)
Definition bloat_ratio_factors : list string :=
  ["is_na"; "tpl_data_size"; "tpl_hdr_size"; "ma"; "tblpages"; "reltuples";
   "bs"; "page_hdr"; "fillfactor"].

(** An [int] or a [float] as a number. *)
Definition py_number (x : pyval) : option Q :=
  match x with
  | PInt z => Some (inject_Z z)
  | PFloat q => Some q
  | _ => None
  end.

Section TableLevel.

Variable srv : server.
Variable ALIGNMENT_DICT : gmap string Z.

(** The statement templates of [pg_table_level_stats_sqls], each taken with
    its [format] argument [table_list]. *)
Variable PG_STAT_TABLE_STATS_TEMPLATE : string -> string.
Variable PG_STATIO_TABLE_STATS_TEMPLATE : string -> string.
Variable TABLE_SIZE_TABLE_STATS_TEMPLATE : string -> string.
Variable PADDING_HELPER_TEMPLATE : string -> string.
Variable TABLE_BLOAT_RATIO_FACTOR_TEMPLATE : string -> string.

(** What Python makes of rows and factors of other types than the
    annotations describe is not modelled. *)
Variable untyped_padding_sizes : list (list pyval) -> result (gmap dkey Z).
Variable untyped_bloat_ratio : Z -> gmap string pyval -> result pyval.

(** The dictionary comprehension over the groups, threading the
    dictionary. *)
Fixpoint padding_sizes_loop (groups : list (Z * list field_info))
    (sizes : gmap dkey Z) : result (gmap dkey Z) :=
  match groups with
  | [] => Ok sizes
  | (relid, field_info) :: rest =>
      size ← _calculate_padding_size_for_table ALIGNMENT_DICT field_info;
      padding_sizes_loop rest (<[KNum relid 1 := size]> sizes)
  end.

Definition _calculate_padding_size_for_tables
    (raw_fields_info : list field_info) : result (gmap dkey Z) :=
  padding_sizes_loop (groupby relid raw_fields_info) ∅.

(** The dictionary comprehension over the factor rows. *)
Fixpoint factors_loop (columns : list string) (factors : list (list pyval))
    (d : odict (gmap string pyval)) : result (odict (gmap string pyval)) :=
  match factors with
  | [] => Ok d
  | factor :: rest =>
      relid ← index factor 0;
      factors_loop columns rest
        (odict_set relid (dict_of_zip (tail columns) (tail factor)) d)
  end.

Definition _retrive_bloat_ratio_factors_for_tables
    (target_tables_str : string) : M (odict (gmap string pyval)) :=
  '(factors, columns) ←
      _cmd srv (TABLE_BLOAT_RATIO_FACTOR_TEMPLATE target_tables_str);
  lift (factors_loop columns factors []).

(** The call
    [self._calculate_bloat_ratio_for_table(padding_size=..., **factors)]:
    the keys of [factors] have to be the other nine parameters. *)
Definition call_bloat_ratio (padding_size : Z) (factors : gmap string pyval)
  : result pyval :=
  if bool_decide (dom factors = list_to_set bloat_ratio_factors) then
    match factors !! "is_na",
          factors !! "tpl_data_size" ≫= py_number,
          factors !! "tpl_hdr_size" ≫= py_number,
          factors !! "ma",
          factors !! "tblpages" ≫= py_number,
          factors !! "reltuples" ≫= py_number,
          factors !! "bs" ≫= py_number,
          factors !! "page_hdr" ≫= py_number,
          factors !! "fillfactor" ≫= py_number with
    | Some (PBool is_na), Some tpl_data_size, Some tpl_hdr_size,
      Some (PInt ma), Some tblpages, Some reltuples, Some bs, Some page_hdr,
      Some fillfactor =>
        _calculate_bloat_ratio_for_table is_na padding_size tpl_data_size
          tpl_hdr_size ma tblpages reltuples bs page_hdr fillfactor
    | _, _, _, _, _, _, _, _, _ => untyped_bloat_ratio padding_size factors
    end
  else Raise TypeError.

(** The loop over [bloat_ratio_factors_dict.items()], threading [res]. *)
Fixpoint bloat_ratios_loop (padding_size_dict : gmap dkey Z)
    (items : odict (gmap string pyval)) (res : list (list pyval))
  : result (list (list pyval)) :=
  match items with
  | [] => Ok res
  | (relid, factors) :: rest =>
      let padding_size :=
        match padding_size_dict !! key_of relid with
        | Some size => size
        | None => 0
        end in
      bloat_ratio ← call_bloat_ratio padding_size factors;
      bloat_ratios_loop padding_size_dict rest (res ++ [[relid; bloat_ratio]])
  end.

Definition _calculate_bloat_ratios (padding_size_dict : gmap dkey Z)
    (bloat_ratio_factors_dict : odict (gmap string pyval))
  : result (list (list pyval)) :=
  bloat_ratios_loop padding_size_dict bloat_ratio_factors_dict [].

Definition TABLE_LEVEL_STATS_SQLS : list (string * (string -> string)) :=
  [ ("pg_stat_user_tables_all_fields", PG_STAT_TABLE_STATS_TEMPLATE);
    ("pg_statio_user_tables_all_fields", PG_STATIO_TABLE_STATS_TEMPLATE);
    ("pg_stat_user_tables_table_sizes", TABLE_SIZE_TABLE_STATS_TEMPLATE) ].

(** The loop over [TABLE_LEVEL_STATS_SQLS.items()], threading the result
    dictionary. *)
Fixpoint table_stats_loop (items : list (string * (string -> string)))
    (target_tables_str : string) (metrics : gmap string table)
  : M (gmap string table) :=
  match items with
  | [] => mret metrics
  | (field, sql_template) :: rest =>
      '(rows, columns) ← _cmd srv (sql_template target_tables_str);
      table_stats_loop rest target_tables_str
        (<[field := {| columns := columns; rows := rows |}]> metrics)
  end.

Definition collect_table_level_metrics (info : target_table_info)
  : M (gmap string table) :=
  let metrics : gmap string table := ∅ in
  let target_tables := target_tables info in
  let target_tables_str := target_tables_str info in
  metrics ← table_stats_loop TABLE_LEVEL_STATS_SQLS target_tables_str metrics;
  let metrics :=
    <["table_bloat_ratios" := {| columns := ["relid"; "bloat_ratio"];
                                 rows := [] |}]> metrics in
  match target_tables with
  | [] => mret metrics
  | _ =>
      '(raw_padding_info, _) ←
          _cmd srv (PADDING_HELPER_TEMPLATE target_tables_str);
      padding_size_dict ←
        lift (match mapM field_of_row raw_padding_info with
              | Some fields => _calculate_padding_size_for_tables fields
              | None => untyped_padding_sizes raw_padding_info
              end);
      bloat_ratio_factors_dict ←
        _retrive_bloat_ratio_factors_for_tables target_tables_str;
      rows ← lift (_calculate_bloat_ratios padding_size_dict
                     bloat_ratio_factors_dict);
      mret (<["table_bloat_ratios" := {| columns := ["relid"; "bloat_ratio"];
                                         rows := rows |}]> metrics)
  end.

End TableLevel.

(** ** The dictionary-shaped collection *)

(** [v.get(k)] for a dictionary [v]. *)
Definition dict_get (v : val) (k : dkey) : M val :=
  '(_, o) ← deref v AttributeError;
  match o with
  | ODict d => mret (default (Sc PNone) (d !! k))
  | OList _ => raise AttributeError
  end.

(** [d[k]] for a dictionary [d] of the class. *)
Definition class_getitem {V} (d : gmap string V) (k : dkey) : result V :=
  match k with
  | KStr s => match d !! s with
              | Some v => Ok v
              | None => Raise (KeyError k)
              end
  | _ => Raise (KeyError k)
  end.

Definition PG_STAT_VIEWS_LOCAL : gmap string (list string) :=
  <["database" := ["pg_stat_database"; "pg_stat_database_conflicts"]]>
    (<["table" := ["pg_stat_user_tables"; "pg_statio_user_tables"]]>
       (<["index" := ["pg_stat_user_indexes"; "pg_statio_user_indexes"]]> ∅)).

Definition PG_STAT_VIEWS_LOCAL_RAW : gmap string (list string) :=
  <["database" := ["pg_stat_database"; "pg_stat_database_conflicts"]]> ∅.

Definition PG_STAT_VIEWS_LOCAL_KEY : gmap string string :=
  <["database" := "datid"]>
    (<["table" := "relid"]> (<["index" := "indexrelid"]> ∅)).

Definition PG_STAT_LOCAL_QUERY : gmap string string :=
  <["pg_stat_user_tables" := TABLE_STAT]>
    (<["pg_statio_user_tables" := TABLE_STATIO]>
       (<["pg_stat_user_indexes" := INDEX_STAT]>
          (<["pg_statio_user_indexes" := INDEX_STATIO]> ∅))).

(** The keys of the dictionary [metrics["local"]] that [collect_metrics]
    builds, in the order of its display. *)
Definition local_categories : list dkey :=
  [KStr "database"; KStr "table"; KStr "index"; KStr "activity"].

Section Collection.

Variable srv : server.
Variable int_of_str : string -> result Z.

(** [json.dumps] is not modelled: a string, or an exception, that depends
    on the value and on the objects it refers to. *)
Variable json_dumps : list obj -> val -> result string.

(** The loop [for category, data in local_metric.items()].  The store's
    dictionaries do not record the order of insertion: the keys of
    [local_metric] are given, in that order, in [categories]. *)
Definition for_each_item (categories : list dkey) (local_metric : val)
    (body : dkey -> val -> M unit) : M unit :=
  entries ← dict_entries local_metric AttributeError;
  for_each categories (fun category =>
    match entries !! category with
    | Some data => body category data
    | None => mret tt
    end).

Definition py_json_dumps (v : val) : M string :=
  fun s => (json_dumps (heap s) v, s).

Definition _aggregated_local_stats (categories : list dkey)
    (local_metric : val) : M val :=
  for_each_item categories local_metric (fun category data =>
    if bool_decide (category = KStr "activity") then mret tt
    else
      views ← lift (class_getitem PG_STAT_VIEWS_LOCAL category);
      for_each views (fun view =>
        query ← lift (class_getitem PG_STAT_LOCAL_QUERY (KStr view));
        rows ← _get_metrics srv query;
        blank ← alloc (ODict ∅);
        setitem data (KStr view) blank;;
        n ← py_len rows;
        if (0 <? n)%nat then
          (row ← getitem_index rows 0;
           of_view ← getitem data (KStr view);
           setitem of_view "aggregated" row)
        else mret tt));;
  mret local_metric.

Definition _collect_activity_stats (local_metric : val) : M val :=
  activity ← getitem local_metric "activity";
  blank ← alloc (ODict ∅);
  setitem activity "aggregated" blank;;
  sessions_loop srv int_of_str activity "aggregated";;
  rows ← _get_metrics srv state_sql;
  blank ← alloc (ODict ∅);
  setitem activity "raw" blank;;
  blank ← alloc (ODict ∅);
  raw ← getitem activity "raw";
  setitem raw "state" blank;;
  items ← list_items rows;
  for_each items (fun row =>
    count ← getitem row "count";
    raw ← getitem activity "raw";
    of_state ← getitem raw "state";
    k ← getitem row "state";
    match k with
    | Sc k => setitem of_state (key_of k) count
    | Ref _ => raise TypeError
    end);;
  rows ← _get_metrics srv wait_event_sql;
  blank ← alloc (ODict ∅);
  raw ← getitem activity "raw";
  setitem raw "wait_event_type" blank;;
  items ← list_items rows;
  for_each items (fun row =>
    count ← getitem row "count";
    raw ← getitem activity "raw";
    of_type ← getitem raw "wait_event_type";
    k ← getitem row "wait_event_type";
    match k with
    | Sc k => setitem of_type (key_of k) count
    | Ref _ => raise TypeError
    end);;
  mret (Sc PNone).

Definition _raw_local_stats (categories : list dkey) (local_metric : val)
  : M val :=
  for_each_item categories local_metric (fun category data =>
    if negb (bool_decide (category = KStr "database")) then mret tt
    else
      views ← lift (class_getitem PG_STAT_VIEWS_LOCAL_RAW category);
      views_key ← lift (class_getitem PG_STAT_VIEWS_LOCAL_KEY category);
      for_each views (fun view =>
        let query := "SELECT * FROM " +:+ view +:+ ";" in
        rows ← _get_metrics srv query;
        blank ← alloc (ODict ∅);
        of_view ← getitem data (KStr view);
        setitem of_view "raw" blank;;
        items ← list_items rows;
        for_each items (fun row =>
          key ← dict_get row (KStr views_key);
          of_view ← getitem data (KStr view);
          raw ← getitem of_view "raw";
          match key with
          | Sc k => setitem raw (key_of k) row
          | Ref _ => raise TypeError
          end)));;
  mret local_metric.

(** The first part of [collect_metrics], up to the statement statistics:
    what it stores under [metrics["global"]]. *)
Definition collect_metrics_global (self : collector) (metrics : val)
  : M unit :=
  for_each (PG_STAT_VIEWS self) (fun view =>
    let query := "SELECT * FROM " +:+ view +:+ ";" in
    rows ← _get_metrics srv query;
    assert_one_row rows;;
    row ← getitem_index rows 0;
    of_global ← getitem metrics "global";
    setitem of_global (KStr view) row);;
  statements ← _get_stat_statements srv;
  dumped ← py_json_dumps statements;
  of_statements ← alloc (ODict {[ KStr "statements" := Sc (PStr dumped) ]});
  of_global ← getitem metrics "global";
  setitem of_global "pg_stat_statements" of_statements.

Definition collect_metrics (self : collector) : M val :=
  of_global ← alloc (ODict ∅);
  of_database ← alloc (ODict ∅);
  of_table ← alloc (ODict ∅);
  of_index ← alloc (ODict ∅);
  of_activity ← alloc (ODict ∅);
  of_local ← alloc (ODict (<[ KStr "database" := of_database ]>
                             (<[ KStr "table" := of_table ]>
                                (<[ KStr "index" := of_index ]>
                                   {[ KStr "activity" := of_activity ]}))));
  metrics ← alloc (ODict (<[ KStr "global" := of_global ]>
                            {[ KStr "local" := of_local ]}));
  collect_metrics_global self metrics;;
  (* local *)
  of_local ← getitem metrics "local";
  _aggregated_local_stats local_categories of_local;;
  of_local ← getitem metrics "local";
  _raw_local_stats local_categories of_local;;
  of_local ← getitem metrics "local";
  _collect_activity_stats of_local;;
  _cmd_wo_fetch srv stat_reset_sql;;
  mret metrics.

End Collection.

(** ** Auxiliary definitions for the further properties *)

(** The knobs after the rows [rows] were assigned, one after the other,
    to the knobs [d]. *)
Definition knobs_after (d : gmap dkey val) (rows : list (list pyval))
  : gmap dkey val :=
  fold_left (fun d knob_tuple =>
               match knob_tuple with
               | name :: setting :: _ =>
                   <[key_of name := Sc (knob_setting setting)]> d
               | _ => d
               end) rows d.

(** A server with three rows of settings, the first knob twice. *)
Definition sample_knobs : list (list pyval) :=
  [ [PStr "max_connections"; PStr "100"];
    [PStr "ssl_passphrase_command"; PNone];
    [PStr "max_connections"; PStr "200"] ].

Definition knobs_server : server := fun _ ev =>
  match ev with
  | EFetch _ => Rows sample_knobs ["name"; "setting"]
  | _ => Done
  end.

Definition empty_store : state := {| heap := []; trace := [] |}.

(** *** What a computation leaves alone in the store *)

Section Frame.

(** The store [h0] when the computation started, the number [b] of its
    objects, and the locations that are to stay as they are. *)
Variable h0 : list obj.
Variable b : nat.
Variable protected : loc -> Prop.

Definition kept (h : list obj) : Prop :=
  (b <= length h)%nat
  /\ forall k, (k < b)%nat -> protected k -> h !! k = h0 !! k.

(** A value that may be written to: no protected object. *)
Definition writable (v : val) : Prop :=
  match v with
  | Sc _ => True
  | Ref k => (b <= k)%nat \/ ~ protected k
  end.

(** The computation keeps the protected objects, and what it returns
    satisfies [G]. *)
Definition keeps {A} (G : A -> Prop) (m : M A) : Prop :=
  forall s, kept (heap s) ->
    kept (heap (m s).2) /\ forall a, (m s).1 = Ok a -> G a.

End Frame.

(** Any event but the unconditional reset of the statistics. *)
Definition not_stat_reset (ev : event) : bool :=
  match ev with
  | EExec sql => negb (bool_decide (sql = stat_reset_sql))
  | _ => true
  end.

(** The store once [collect_metrics] has built its dictionary [metrics],
    which is the last object. *)
Definition metrics_display (s : state) : state :=
  let n := length (heap s) in
  {| heap := heap s
             ++ [ ODict ∅; ODict ∅; ODict ∅; ODict ∅; ODict ∅;
                  ODict (<[ KStr "database" := Ref (n + 1)%nat ]>
                           (<[ KStr "table" := Ref (n + 2)%nat ]>
                              (<[ KStr "index" := Ref (n + 3)%nat ]>
                                 {[ KStr "activity" := Ref (n + 4)%nat ]})));
                  ODict (<[ KStr "global" := Ref n ]>
                           {[ KStr "local" := Ref (n + 5)%nat ]}) ];
     trace := trace s |}.

Definition sample_collector : collector :=
  {| _version_str := "14.2";
     PG_STAT_VIEWS := ["pg_stat_archiver"; "pg_stat_bgwriter"];
     PG_STAT_STATEMENTS_SQL :=
       "SELECT CONCAT(userid, '_', dbid, '_', queryid) as queryid, "
       +:+ "calls, mean_exec_time as avg_time_ms "
       +:+ "FROM pg_stat_statements;" |}.

Definition sample_json_dumps : list obj -> val -> result string :=
  fun _ _ => Ok "[]".

(** Any event but the execution of a statement without a fetch. *)
Definition not_exec (ev : event) : bool :=
  match ev with
  | EExec _ => false
  | _ => true
  end.

(** Every exception the computation raises satisfies [Q]. *)
Definition raises {A} (Q : exn -> Prop) (m : M A) : Prop :=
  forall s e, (m s).1 = Raise e -> Q e.

(** No failure of a statement but that of [sql]. *)
Definition fails_only_on (sql : string) (e : exn) : Prop :=
  forall sql', e = PostgresCollectorException sql' -> sql' = sql.

(** The character [c] occurs in [s]. *)
Fixpoint has_char (c : ascii) (s : string) : bool :=
  match s with
  | EmptyString => false
  | String a rest => bool_decide (a = c) || has_char c rest
  end.

(** A [float] that reads every version as 14.2. *)
Definition sample_float : string -> result Q := fun _ => Ok (142 # 10)%Q.

(** The factors of a table as the query is to deliver them: a flag, an
    integer alignment width and numbers. *)
Definition typed_factors (is_na : bool) (tpl_data_size tpl_hdr_size : Q)
    (ma : Z) (tblpages reltuples bs page_hdr fillfactor : Q)
  : gmap string pyval :=
  <["is_na" := PBool is_na]>
    (<["tpl_data_size" := PFloat tpl_data_size]>
       (<["tpl_hdr_size" := PFloat tpl_hdr_size]>
          (<["ma" := PInt ma]>
             (<["tblpages" := PFloat tblpages]>
                (<["reltuples" := PFloat reltuples]>
                   (<["bs" := PFloat bs]>
                      (<["page_hdr" := PFloat page_hdr]>
                         (<["fillfactor" := PFloat fillfactor]> ∅)))))))).

Definition no_untyped_padding : list (list pyval) -> result (gmap dkey Z) :=
  fun _ => Raise TypeError.

Definition no_untyped_ratio : Z -> gmap string pyval -> result pyval :=
  fun _ _ => Raise TypeError.

(** Every cell of the row that is not null has a column of its own, the
    first cell being at position [idx]. *)
Fixpoint described (col : list string) (idx : nat) (data : list pyval)
  : bool :=
  match data with
  | [] => true
  | val :: rest =>
      match val with
      | PNone => true
      | _ => bool_decide (idx < length col)%nat
      end && described col (S idx) rest
  end.

(** * Properties *)

(** ** Running the monad *)

Lemma run_bind {A B} (m : M A) (f : A -> M B) (s : state) :
  (m ≫= f) s = match m s with
               | (Ok a, s') => f a s'
               | (Raise e, s') => (Raise e, s')
               end.
Proof. reflexivity. Qed.

Lemma run_ret {A} (a : A) (s : state) : (mret a : M A) s = (Ok a, s).
Proof. reflexivity. Qed.

Lemma run_cmd (srv : server) (sql : string) (s : state) :
  _cmd srv sql s
  = (match srv (trace s) (EFetch sql) with
     | Rows res meta => Ok (res, meta)
     | _ => Raise (PostgresCollectorException sql)
     end,
     {| heap := heap s; trace := trace s ++ [EFetch sql] |}).
Proof.
  unfold _cmd. rewrite run_bind. unfold send.
  by destruct (srv (trace s) (EFetch sql)).
Qed.

Lemma run_cmd_wo_fetch (srv : server) (sql : string) (s : state) :
  _cmd_wo_fetch srv sql s
  = (match srv (trace s) (EExec sql) with
     | Failed => Raise (PostgresCollectorException sql)
     | _ => Ok tt
     end,
     {| heap := heap s; trace := trace s ++ [EExec sql] |}).
Proof.
  unfold _cmd_wo_fetch. rewrite run_bind. unfold send.
  by destruct (srv (trace s) (EExec sql)).
Qed.

Lemma run_lift {A} (r : result A) (s : state) : lift r s = (r, s).
Proof. reflexivity. Qed.

(** ** Padding *)

Lemma spec_padded_offset_pow2 (k offset : Z) :
  0 <= k ->
  spec_padded_offset (2 ^ k) offset = next_boundary (2 ^ k) offset.
Proof.
  intros Hk. unfold spec_padded_offset, next_boundary. cbv zeta.
  replace (2 ^ k - 1) with (Z.ones k) by (rewrite Z.ones_equiv; lia).
  rewrite <- Z.ldiff_land, Z.ldiff_ones_r by done.
  rewrite Z.shiftl_mul_pow2, Z.shiftr_div_pow2 by done.
  rewrite Z.ones_equiv.
  replace (offset + Z.pred (2 ^ k)) with (offset + 2 ^ k - 1) by lia.
  lia.
Qed.

Lemma next_boundary_least (align offset : Z) :
  0 < align ->
  (align | next_boundary align offset)
  /\ offset <= next_boundary align offset < offset + align.
Proof.
  intros Ha. unfold next_boundary. split.
  - by apply Z.divide_factor_l.
  - pose proof (Z.mul_div_le (offset + align - 1) align Ha).
    pose proof (Z.mul_succ_div_gt (offset + align - 1) align Ha).
    lia.
Qed.

Lemma padding_loop_spec (dict : gmap string Z) (rest : list field_info)
    (aligns : list Z) (padding offset : Z) :
  Forall2 (fun f a => dict !! attalign f = Some a) rest aligns ->
  exists offset',
    padding_loop dict rest padding offset
      = Ok (padding + (spec_padding_from offset (zip aligns (avg_width <$> rest))
                       - (spec_padded_offset 4 offset' - offset')), offset').
Proof.
  intros H. revert padding offset.
  induction H as [|f a rest aligns Hf _ IH]; intros padding offset.
  - exists offset. cbn [zip zip_with spec_padding_from fmap list_fmap padding_loop].
    f_equal. f_equal. lia.
  - cbn [zip zip_with spec_padding_from fmap list_fmap padding_loop].
    rewrite Hf. cbv zeta.
    destruct (IH (padding + (Z.land (offset + (a - 1)) (Z.lnot (a - 1)) - offset))
                 (Z.land (offset + (a - 1)) (Z.lnot (a - 1)) + avg_width f))
      as [o' ->].
    exists o'. unfold spec_padded_offset. cbv zeta. f_equal. f_equal. lia.
Qed.

Lemma padding_loop_app (dict : gmap string Z) (xs ys : list field_info)
    (padding offset : Z) :
  padding_loop dict (xs ++ ys) padding offset
  = '(p, o) ← padding_loop dict xs padding offset; padding_loop dict ys p o.
Proof.
  revert padding offset. induction xs as [|x xs IH]; intros; simpl; [done|].
  destruct (dict !! attalign x); [apply IH | done].
Qed.

(** C4: for a non-empty column list the padding computed by
    [_calculate_padding_size_for_table] is the padding of the
    specification's rule (offset starting at the first width, mask rounding
    per later column, a closing 4-byte step); with an alignment that is a
    power of two the mask rounding is the next boundary; and the columns
    (4, 4), (1, 1), (8, 8) give exactly 3. *)
Theorem padding_follows_the_rule (dict : gmap string Z)
    (first : field_info) (rest : list field_info) (aligns : list Z) :
  Forall2 (fun f a => dict !! attalign f = Some a) rest aligns ->
  _calculate_padding_size_for_table dict (first :: rest)
    = Ok (spec_padding_from (avg_width first) (zip aligns (avg_width <$> rest)))
  /\ (forall k offset, 0 <= k ->
        let padded := spec_padded_offset (2 ^ k) offset in
        (2 ^ k | padded) /\ offset <= padded < offset + 2 ^ k)
  /\ (forall f1 f2 f3,
        dict !! attalign f1 = Some 4 -> avg_width f1 = 4 ->
        dict !! attalign f2 = Some 1 -> avg_width f2 = 1 ->
        dict !! attalign f3 = Some 8 -> avg_width f3 = 8 ->
        _calculate_padding_size_for_table dict [f1; f2; f3] = Ok 3).
Proof.
  intros H. split; [|split].
  - unfold _calculate_padding_size_for_table. simpl.
    destruct (padding_loop_spec dict rest aligns 0 (avg_width first) H)
      as [o' ->].
    simpl. f_equal. unfold spec_padded_offset. cbv zeta.
    change (4 - 1) with 3. lia.
  - intros k offset Hk. cbv zeta. rewrite spec_padded_offset_pow2 by done.
    apply next_boundary_least. by apply Z.pow_pos_nonneg.
  - intros f1 f2 f3 _ W1 A2 W2 A3 W3.
    unfold _calculate_padding_size_for_table. simpl.
    rewrite A2, A3, W1, W2, W3. reflexivity.
Qed.

Lemma padding_follows_the_rule_witness :
  _calculate_padding_size_for_table pg_alignment_dict example_columns = Ok 3.
Proof.
  refine (proj2 (proj2 (padding_follows_the_rule pg_alignment_dict
            {| relid := 1544350; attname := "fixture_id"; attalign := "i"; avg_width := 4 |}
            [ {| relid := 1544350; attname := "flag"; attalign := "c"; avg_width := 1 |};
              {| relid := 1544350; attname := "score"; attalign := "d"; avg_width := 8 |} ]
            [1; 8] _)) _ _ _ _ _ _ _ _ _); try reflexivity.
  repeat constructor.
Defined.

(** The padding is aligned to 4 bytes at the end whatever the last column:
    rounding to 1, 2 or 4 first does not move the closing boundary. *)
Lemma closing_step_absorbs (a o : Z) :
  a = 1 \/ a = 2 \/ a = 4 ->
  spec_padded_offset 4 (spec_padded_offset a o) = spec_padded_offset 4 o.
Proof.
  intros Ha.
  change 4 with (2 ^ 2). rewrite !(spec_padded_offset_pow2 2) by lia.
  assert (exists k, 0 <= k /\ a = 2 ^ k) as (k & Hk & ->).
  { destruct Ha as [->|[->| ->]]; [by exists 0 | by exists 1 | by exists 2]. }
  rewrite spec_padded_offset_pow2 by done.
  unfold next_boundary.
  destruct Ha as [E|[E|E]]; rewrite E; change (2 ^ 2) with 4;
    Z.to_euclidean_division_equations; lia.
Qed.

(** C5 (amended): appending a final zero-width column whose alignment is
    that of the previous column leaves the padding unchanged when that
    alignment is 1, 2 or 4 bytes. *)
Theorem padding_zero_width_column (dict : gmap string Z)
    (fields : list field_info) (prev extra : field_info) (a : Z) :
  last fields = Some prev ->
  attalign extra = attalign prev ->
  avg_width extra = 0 ->
  dict !! attalign extra = Some a ->
  a = 1 \/ a = 2 \/ a = 4 ->
  _calculate_padding_size_for_table dict (fields ++ [extra])
  = _calculate_padding_size_for_table dict fields.
Proof.
  intros Hlast _ Hw Ha Hsmall.
  destruct fields as [|first rest]; [done|].
  unfold _calculate_padding_size_for_table. simpl.
  rewrite padding_loop_app.
  destruct (padding_loop dict rest 0 (avg_width first)) as [[p o]|e]; [|done].
  cbn [mbind result_bind padding_loop]. rewrite Ha, Hw.
  cbn [mbind result_bind padding_loop]. f_equal.
  pose proof (closing_step_absorbs a o Hsmall) as H.
  unfold spec_padded_offset in H. cbv zeta in H. change (4 - 1) with 3 in H.
  rewrite Z.add_0_r. rewrite H. lia.
Qed.

Lemma padding_zero_width_column_witness :
  _calculate_padding_size_for_table pg_alignment_dict
    (take 2 example_columns
     ++ [{| relid := 1544350; attname := "pad"; attalign := "c"; avg_width := 0 |}])
  = _calculate_padding_size_for_table pg_alignment_dict (take 2 example_columns).
Proof.
  apply (padding_zero_width_column pg_alignment_dict (take 2 example_columns)
           {| relid := 1544350; attname := "flag"; attalign := "c"; avg_width := 1 |}
           {| relid := 1544350; attname := "pad"; attalign := "c"; avg_width := 0 |}
           1); try reflexivity.
  left; reflexivity.
Defined.

(** With an 8-byte alignment the extra column crosses a boundary that the
    closing 4-byte step does not: a single 8-aligned column of width 1 has
    padding 3, and 7 once the zero-width column follows it. *)
Lemma padding_zero_width_column_8_aligned :
  _calculate_padding_size_for_table pg_alignment_dict
    [{| relid := 1; attname := "a"; attalign := "d"; avg_width := 1 |}] = Ok 3
  /\ _calculate_padding_size_for_table pg_alignment_dict
       ([{| relid := 1; attname := "a"; attalign := "d"; avg_width := 1 |}]
        ++ [{| relid := 1; attname := "z"; attalign := "d"; avg_width := 0 |}])
     = Ok 7
  /\ ~ zero_width_column_invariance.
Proof.
  split; [reflexivity|]. split; [reflexivity|].
  intros H.
  specialize (H pg_alignment_dict
    [{| relid := 1; attname := "a"; attalign := "d"; avg_width := 1 |}]
    {| relid := 1; attname := "a"; attalign := "d"; avg_width := 1 |}
    {| relid := 1; attname := "z"; attalign := "d"; avg_width := 0 |}
    eq_refl eq_refl eq_refl).
  vm_compute in H. discriminate H.
Qed.

(** ** Bloat ratio *)

Local Open Scope Q_scope.

Lemma Qis_zero_true (x : Q) : Qis_zero x = true <-> x == 0.
Proof. apply Qeq_bool_iff. Qed.

Lemma Qis_zero_false (x : Q) : Qis_zero x = false <-> ~ x == 0.
Proof.
  rewrite <- Qis_zero_true. destruct (Qis_zero x); split; congruence.
Qed.

Lemma Qpositive_true (x : Q) : Qpositive x = true <-> 0 < x.
Proof.
  unfold Qpositive. rewrite negb_true_iff, <- not_true_iff_false, Qle_bool_iff.
  split; [apply Qnot_le_lt | apply Qlt_not_le].
Qed.

Lemma Qpositive_false (x : Q) : Qpositive x = false <-> x <= 0.
Proof.
  unfold Qpositive. rewrite negb_false_iff. apply Qle_bool_iff.
Qed.

Lemma py_div_ok (x y : Q) : ~ y == 0 -> py_div x y = Ok (x / y).
Proof. intros H. unfold py_div. by apply Qis_zero_false in H as ->. Qed.

Lemma py_mod_float_bounds (x m : Q) :
  0 < m ->
  exists r, py_mod_float x m = Ok r /\ 0 <= r /\ r < m.
Proof.
  intros Hm. unfold py_mod_float.
  assert (Qis_zero m = false) as -> by (apply Qis_zero_false; lra).
  eexists; split; [reflexivity|].
  pose proof (Qfloor_le (x / m)) as Hlo.
  pose proof (Qlt_floor (x / m)) as Hhi.
  rewrite inject_Z_plus in Hhi.
  assert (x == (x / m) * m) as Hx by (field; lra).
  set (f := inject_Z (Qfloor (x / m))) in *.
  change (inject_Z 1) with 1 in Hhi.
  split.
  - assert (m * f <= (x / m) * m); [|lra].
    rewrite (Qmult_comm m f). apply Qmult_le_compat_r; lra.
  - assert ((x / m) * m < (f + 1) * m); [|lra].
    apply Qmult_lt_compat_r; lra.
Qed.

Lemma py_mod_int_bounds (a m : Z) :
  (0 < m)%Z ->
  exists r, py_mod_int a m = Ok r /\ (0 <= r < m)%Z.
Proof.
  intros Hm. unfold py_mod_int.
  destruct (Z.eqb_spec m 0); [lia|].
  eexists; split; [reflexivity|]. by apply Z.mod_pos_bound.
Qed.

Lemma inject_Z_pos (z : Z) : (0 < z)%Z -> 0 < inject_Z z.
Proof. intros H. change 0 with (inject_Z 0). by rewrite <- Zlt_Qlt. Qed.

Lemma inject_Z_nonneg (z : Z) : (0 <= z)%Z -> 0 <= inject_Z z.
Proof. intros H. change 0 with (inject_Z 0). by rewrite <- Zle_Qle. Qed.

Lemma Qdiv_pos (x y : Q) : 0 < x -> 0 < y -> 0 < x / y.
Proof.
  intros Hx Hy. unfold Qdiv.
  apply Qmult_lt_0_compat; [done | by apply Qinv_lt_0_compat].
Qed.

Lemma Qdiv_nonneg (x y : Q) : 0 <= x -> 0 < y -> 0 <= x / y.
Proof.
  intros Hx Hy. unfold Qdiv.
  apply Qmult_le_0_compat; [done | apply Qlt_le_weak; by apply Qinv_lt_0_compat].
Qed.

Lemma Qceiling_nonneg (x : Q) : 0 <= x -> (0 <= Qceiling x)%Z.
Proof.
  intros H. change 0%Z with (Qceiling 0). by apply Qceiling_resp_le.
Qed.

(** With a positive alignment width, a block larger than its header and a
    positive fill factor, the page estimate exists and is not negative. *)
Lemma est_tblpages_ff_nonneg (padding_size : Z) (tpl_data_size tpl_hdr_size : Q)
    (ma : Z) (reltuples bs page_hdr fillfactor : Q) :
  (0 <= padding_size)%Z -> 0 <= tpl_data_size -> 0 <= tpl_hdr_size ->
  (0 < ma)%Z -> 0 <= reltuples -> page_hdr < bs -> 0 < fillfactor ->
  exists e,
    est_tblpages_ff padding_size tpl_data_size tpl_hdr_size ma
      reltuples bs page_hdr fillfactor = Ok e
    /\ (0 <= e)%Z.
Proof.
  intros Hp Hd Hh Hma Hr Hbs Hff. unfold est_tblpages_ff. cbv zeta.
  pose proof (inject_Z_pos ma Hma) as HmaQ.
  pose proof (inject_Z_nonneg padding_size Hp) as HpQ.
  destruct (py_mod_float_bounds tpl_hdr_size (inject_Z ma) HmaQ)
    as (hr & -> & Hhr0 & Hhr1).
  destruct (py_mod_int_bounds (Qceiling (tpl_data_size + inject_Z padding_size))
              ma Hma) as (dr & -> & Hdr).
  cbn [mbind result_bind].
  set (A := if Qis_zero hr then inject_Z ma else hr).
  set (B := inject_Z (if (dr =? 0)%Z then ma else dr)).
  assert (A <= inject_Z ma) as HA.
  { subst A. destruct (Qis_zero hr); lra. }
  assert (B <= inject_Z ma) as HB.
  { subst B. destruct (dr =? 0)%Z; [lra|]. rewrite <- Zle_Qle. lia. }
  set (tpl_size := 4 + tpl_hdr_size + (tpl_data_size + inject_Z padding_size)
                   + 2 * inject_Z ma - A - B).
  assert (4 <= tpl_size) as Hsize by (subst tpl_size; lra).
  rewrite py_div_ok by lra.
  cbn [mbind result_bind].
  set (per_page := (bs - page_hdr) * fillfactor / (tpl_size * 100)).
  assert (0 < per_page) as Hpp.
  { subst per_page. apply Qdiv_pos; [|lra].
    apply Qmult_lt_0_compat; lra. }
  rewrite py_div_ok by lra.
  cbn [mbind result_bind].
  eexists; split; [reflexivity|].
  apply Qceiling_nonneg. by apply Qdiv_nonneg.
Qed.

(** The ratio is within bounds once the estimate is not negative. *)
Lemma ratio_in_bounds (tblpages : Q) (e : Z) :
  (0 <= e)%Z -> 0 < tblpages - inject_Z e ->
  exists r, py_div (100 * (tblpages - inject_Z e)) tblpages = Ok r
            /\ 0 <= r /\ r <= 100.
Proof.
  intros He Hpos.
  pose proof (inject_Z_nonneg e He) as HeQ.
  rewrite py_div_ok by lra.
  eexists; split; [reflexivity|]. split.
  - apply Qdiv_nonneg; lra.
  - apply Qle_shift_div_r; lra.
Qed.




(** C6: with the not-applicable flag set the bloat ratio is absent, whatever
    the other factors are. *)
Theorem bloat_ratio_not_applicable (padding_size : Z)
    (tpl_data_size tpl_hdr_size : Q) (ma : Z)
    (tblpages reltuples bs page_hdr fillfactor : Q) :
  _calculate_bloat_ratio_for_table true padding_size tpl_data_size
    tpl_hdr_size ma tblpages reltuples bs page_hdr fillfactor = Ok PNone.
Proof. reflexivity. Qed.

(** C7: when the flag is not set and the observed page count does not
    exceed the estimated page count at full fill, the ratio is exactly 0. *)
Theorem bloat_ratio_zero (padding_size : Z)
    (tpl_data_size tpl_hdr_size : Q) (ma : Z)
    (tblpages reltuples bs page_hdr fillfactor : Q) (e : Z) :
  est_tblpages_ff padding_size tpl_data_size tpl_hdr_size ma
    reltuples bs page_hdr fillfactor = Ok e ->
  tblpages - inject_Z e <= 0 ->
  _calculate_bloat_ratio_for_table false padding_size tpl_data_size
    tpl_hdr_size ma tblpages reltuples bs page_hdr fillfactor = Ok (PInt 0).
Proof.
  intros He Hle. unfold _calculate_bloat_ratio_for_table. rewrite He.
  cbn [mbind result_bind].
  apply Qpositive_false in Hle. by rewrite Hle.
Qed.

Lemma bloat_ratio_zero_witness :
  _calculate_bloat_ratio_for_table false 0 24 23 8 100 1000 8192 24 1
  = Ok (PInt 0).
Proof.
  apply (bloat_ratio_zero 0 24 23 8 100 1000 8192 24 1 637).
  - vm_compute. reflexivity.
  - vm_compute. congruence.
Defined.

(** C9: when the flag is not set and the page estimate is not negative, the
    division by [tblpages] is reached only with [tblpages] positive: the
    call returns, it returns 0 for every [tblpages <= 0], and whenever the
    guard of the division holds [tblpages] is positive.  Nonnegative row
    counts with a positive number of rows per page give such an estimate. *)
Theorem bloat_ratio_division_guarded (padding_size : Z)
    (tpl_data_size tpl_hdr_size : Q) (ma : Z)
    (tblpages reltuples bs page_hdr fillfactor : Q) (e : Z) :
  est_tblpages_ff padding_size tpl_data_size tpl_hdr_size ma
    reltuples bs page_hdr fillfactor = Ok e ->
  (0 <= e)%Z ->
  (Qpositive (tblpages - inject_Z e) = true -> 0 < tblpages)
  /\ (exists v,
        _calculate_bloat_ratio_for_table false padding_size tpl_data_size
          tpl_hdr_size ma tblpages reltuples bs page_hdr fillfactor = Ok v)
  /\ (tblpages <= 0 ->
        _calculate_bloat_ratio_for_table false padding_size tpl_data_size
          tpl_hdr_size ma tblpages reltuples bs page_hdr fillfactor
        = Ok (PInt 0)).
Proof.
  intros Hest He.
  pose proof (inject_Z_nonneg e He) as HeQ.
  split; [|split].
  - intros Hpos. apply Qpositive_true in Hpos. lra.
  - unfold _calculate_bloat_ratio_for_table. rewrite Hest.
    cbn [mbind result_bind].
    destruct (Qpositive (tblpages - inject_Z e)) eqn:Hpos; [|by eexists].
    apply Qpositive_true in Hpos.
    destruct (ratio_in_bounds tblpages e He Hpos) as (r & -> & _).
    by eexists.
  - intros Ht. unfold _calculate_bloat_ratio_for_table. rewrite Hest.
    cbn [mbind result_bind].
    assert (Qpositive (tblpages - inject_Z e) = false) as ->; [|done].
    apply Qpositive_false. lra.
Qed.

Lemma bloat_ratio_division_guarded_witness :
  _calculate_bloat_ratio_for_table false 0 24 23 8 0 0 8192 24 1 = Ok (PInt 0).
Proof.
  refine (proj2 (proj2 (bloat_ratio_division_guarded 0 24 23 8 0 0 8192 24 1 0
                          _ _)) _).
  - vm_compute. reflexivity.
  - lia.
  - vm_compute. congruence.
Defined.

Local Close Scope Q_scope.

(** ** Target selection *)

Lemma first_column_ids (res : list (list pyval)) (ids : list Z) :
  Forall2 (fun row id => row !! 0%nat = Some (PInt id)) res ids ->
  map_result (fun t => index t 0) res = Ok (PInt <$> ids).
Proof.
  induction 1 as [|row id res ids Hrow _ IH]; [done|].
  simpl. unfold index at 1. by rewrite Hrow, IH.
Qed.

Lemma id_list_str_ints (repr_other str_other : pyval -> string) (ids : list Z) :
  id_list_str repr_other str_other (PInt <$> ids) = render_ids ids.
Proof.
  destruct ids as [|x [|y ids]]; [done | done |].
  unfold id_list_str, render_ids, tuple_str.
  cbn [fmap list_fmap length Nat.ltb Nat.leb].
  do 2 f_equal.
  change (String.concat ", " (py_repr repr_other <$> (PInt <$> x :: y :: ids))
          = String.concat ", " (pretty <$> x :: y :: ids)).
  f_equal. rewrite <- list_fmap_compose. by apply list_fmap_ext.
Qed.

Section TargetSelection.

Variable srv : server.
Variable repr_other str_other : pyval -> string.
Variable TOP_N_LARGEST_TABLES_SQL_TEMPLATE : Z -> string.
Variable TOP_N_LARGEST_INDEXES_SQL_TEMPLATE : string -> Z -> string.
Variable PG_STAT_USER_INDEXES_TEMPLATE : string -> string.
Variable PG_STATIO_USER_INDEXES_TEMPLATE : string -> string.
Variable PG_INDEX_TEMPLATE : string -> string.

Lemma index_stats_loop_trace items list_str metrics s :
  let '(r, s') := index_stats_loop srv items list_str metrics s in
  exists sent : list string,
    trace s' = trace s ++ (EFetch <$> sent)
    /\ sent `prefix_of` ((fun it => it.2 list_str) <$> items)
    /\ (forall m, r = Ok m -> sent = (fun it => it.2 list_str) <$> items).
Proof.
  revert metrics s. induction items as [|[field tpl] items IH]; intros metrics s.
  - simpl. exists []. by rewrite app_nil_r.
  - cbn [index_stats_loop]. rewrite run_bind, run_cmd.
    destruct (srv (trace s) (EFetch (tpl list_str))) as [| |res meta] eqn:Hr.
    1,2: (exists [tpl list_str]; split; [done|];
          split; [by apply prefix_cons, prefix_nil | intros ? Hm; discriminate Hm]).
    set (s1 := {| heap := heap s; trace := trace s ++ [EFetch (tpl list_str)] |}).
    specialize (IH (<[field := {| columns := meta; rows := res |}]> metrics) s1).
    destruct (index_stats_loop srv items list_str _ s1) as [r s'].
    destruct IH as (sent & Ht & Hp & Hok).
    exists (tpl list_str :: sent). split; [|split].
    + rewrite Ht. subst s1. cbn [trace]. by rewrite <- app_assoc.
    + by apply prefix_cons.
    + intros m Hm. cbn [fmap list_fmap]. f_equal. by eapply Hok.
Qed.

(** C2 (amended): for every selected id sequence the rendered SQL id list
    is ["(0)"] for no id, ["(x)"] for the single id [x], and for two or
    more ids Python's tuple display: the ids in input order between
    parentheses, separated by a comma and a space.
    [get_target_table_info] returns that string next to the ids, and
    [collect_index_metrics] instantiates its three statement templates
    with it. *)
Theorem id_list_rendering (s : state) (n : Z) (info : target_table_info)
    (res : list (list pyval)) (meta : list string) (ids : list Z) :
  Forall2 (fun row id => row !! 0%nat = Some (PInt id)) res ids ->
  (srv (trace s) (EFetch (TOP_N_LARGEST_TABLES_SQL_TEMPLATE n)) = Rows res meta ->
   get_target_table_info srv repr_other str_other
     TOP_N_LARGEST_TABLES_SQL_TEMPLATE n s
   = (Ok {| target_tables := PInt <$> ids;
            target_tables_str := render_ids ids |},
      {| heap := heap s;
         trace := trace s ++ [EFetch (TOP_N_LARGEST_TABLES_SQL_TEMPLATE n)] |}))
  /\ (srv (trace s)
        (EFetch (TOP_N_LARGEST_INDEXES_SQL_TEMPLATE (target_tables_str info) n))
      = Rows res meta ->
      let '(r, s') :=
        collect_index_metrics srv repr_other str_other
          TOP_N_LARGEST_INDEXES_SQL_TEMPLATE PG_STAT_USER_INDEXES_TEMPLATE
          PG_STATIO_USER_INDEXES_TEMPLATE PG_INDEX_TEMPLATE info n s in
      exists sent,
        trace s' = trace s
                   ++ EFetch (TOP_N_LARGEST_INDEXES_SQL_TEMPLATE
                                (target_tables_str info) n)
                   :: (EFetch <$> sent)
        /\ sent `prefix_of`
             [ PG_STAT_USER_INDEXES_TEMPLATE (render_ids ids);
               PG_STATIO_USER_INDEXES_TEMPLATE (render_ids ids);
               PG_INDEX_TEMPLATE (render_ids ids) ]
        /\ (forall m, r = Ok m ->
              sent = [ PG_STAT_USER_INDEXES_TEMPLATE (render_ids ids);
                       PG_STATIO_USER_INDEXES_TEMPLATE (render_ids ids);
                       PG_INDEX_TEMPLATE (render_ids ids) ])).
Proof.
  intros Hids. split; intros Hreply.
  - unfold get_target_table_info.
    rewrite run_bind, run_cmd, Hreply, run_bind, run_lift.
    rewrite (first_column_ids res ids Hids).
    by rewrite id_list_str_ints.
  - unfold collect_index_metrics. cbv zeta.
    rewrite run_bind, run_cmd, Hreply, run_bind, run_lift.
    rewrite (first_column_ids res ids Hids), id_list_str_ints.
    rewrite run_bind.
    set (s1 := {| heap := heap s; trace := _ |}).
    pose proof (index_stats_loop_trace
                  (INDEX_STATS_SQLS PG_STAT_USER_INDEXES_TEMPLATE
                     PG_STATIO_USER_INDEXES_TEMPLATE PG_INDEX_TEMPLATE)
                  (render_ids ids) ∅ s1) as Hloop.
    destruct (index_stats_loop srv _ (render_ids ids) ∅ s1) as [[m|e] s2];
      destruct Hloop as (sent & Ht & Hp & Hok).
    + match goal with
      | |- context [match ?x with [] => ?a | _ :: _ => ?b end s2] =>
          assert (exists r, (match x with [] => a | _ :: _ => b end) s2 = (r, s2))
            as [r ->]
      end.
      { destruct (PInt <$> ids); [by eexists|].
        rewrite run_bind, run_lift.
        destruct (map_result _ res); by eexists. }
      exists sent. split; [|split].
      * rewrite Ht. subst s1. cbn [trace]. by rewrite <- app_assoc.
      * done.
      * intros _ _. by apply (Hok m).
    + exists sent. split; [|split].
      * rewrite Ht. subst s1. cbn [trace]. by rewrite <- app_assoc.
      * done.
      * intros m Hm. discriminate Hm.
Qed.

End TargetSelection.

Lemma id_list_rendering_witness :
  get_target_table_info two_tables_server no_render no_render
    top_tables_sql 2 {| heap := []; trace := [] |}
  = (Ok two_tables_info,
     {| heap := []; trace := [EFetch (top_tables_sql 2)] |})
  /\ let '(r, s') :=
       collect_index_metrics two_tables_server no_render no_render
         top_indexes_sql (index_view_sql "pg_stat_user_indexes")
         (index_view_sql "pg_statio_user_indexes") (index_view_sql "pg_index")
         two_tables_info 2 {| heap := []; trace := [] |} in
     exists sent,
       trace s' = [] ++ EFetch (top_indexes_sql "(16384, 16390)" 2)
                  :: (EFetch <$> sent)
       /\ sent `prefix_of`
            [ index_view_sql "pg_stat_user_indexes" "(16384, 16390)";
              index_view_sql "pg_statio_user_indexes" "(16384, 16390)";
              index_view_sql "pg_index" "(16384, 16390)" ]
       /\ (forall m, r = Ok m ->
             sent = [ index_view_sql "pg_stat_user_indexes" "(16384, 16390)";
                      index_view_sql "pg_statio_user_indexes" "(16384, 16390)";
                      index_view_sql "pg_index" "(16384, 16390)" ]).
Proof.
  assert (Forall2 (fun row id => row !! 0%nat = Some (PInt id))
            [[PInt 16384; PInt 90112]; [PInt 16390; PInt 8192]]
            [16384; 16390]) as Hids by (repeat constructor).
  destruct (id_list_rendering two_tables_server no_render no_render
              top_tables_sql top_indexes_sql
              (index_view_sql "pg_stat_user_indexes")
              (index_view_sql "pg_statio_user_indexes")
              (index_view_sql "pg_index")
              {| heap := []; trace := [] |} 2 two_tables_info
              [[PInt 16384; PInt 90112]; [PInt 16390; PInt 8192]]
              ["relid"; "size"] [16384; 16390] Hids) as [Htables Hindexes].
  split.
  - exact (Htables eq_refl).
  - exact (Hindexes eq_refl).
Defined.

(** Two selected ids are rendered with a space after the comma. *)
Lemma id_list_of_two_has_a_space :
  (exists s',
     get_target_table_info two_tables_server no_render no_render
       top_tables_sql 2 {| heap := []; trace := [] |}
     = (Ok {| target_tables := [PInt 16384; PInt 16390];
              target_tables_str := "(16384, 16390)" |}, s'))
  /\ spec_render_ids [16384; 16390] = "(16384,16390)"
  /\ ~ id_list_without_spaces.
Proof.
  split; [by eexists|]. split; [reflexivity|].
  intros H.
  specialize (H two_tables_server no_render no_render top_tables_sql 2
                {| heap := []; trace := [] |} _ _ [16384; 16390]
                eq_refl eq_refl).
  vm_compute in H. discriminate H.
Qed.

(** ** Row normalisation *)

Lemma split_ws_words (s : string) : Forall word (split_ws s).
Proof.
  induction s as [|a rest IH]; [constructor|].
  cbn [split_ws]. destruct (py_isspace a) eqn:Ha; [done|].
  assert (word (String a EmptyString)) as Hone.
  { split; [done|]. simpl. by rewrite Ha. }
  destruct rest as [|b rest']; [by constructor|].
  destruct (py_isspace b) eqn:Hb; [by constructor|].
  destruct (split_ws (String b rest')) as [|w ws]; [by constructor|].
  inversion IH as [|? ? [Hw1 Hw2] Hws]; subst.
  constructor; [|done]. split; [done|]. simpl. by rewrite Ha, Hw2.
Qed.

Lemma split_ws_content (s : string) :
  String.concat EmptyString (split_ws s) = strip_ws s.
Proof.
  induction s as [|a rest IH]; [done|].
  cbn [split_ws strip_ws]. destruct (py_isspace a) eqn:Ha; [done|].
  destruct rest as [|b rest']; [done|].
  rewrite <- IH. clear IH.
  cbn [split_ws]. destruct (py_isspace b) eqn:Hb.
  - destruct (split_ws rest'); done.
  - destruct rest' as [|c rest'']; [done|].
    destruct (py_isspace c).
    + destruct (split_ws (String c rest'')); done.
    + destruct (split_ws (String c rest'')) as [|w [|w' ws]]; done.
Qed.

Lemma strip_ws_remove_char (c : ascii) (s : string) :
  py_isspace c = true -> strip_ws (remove_char c s) = strip_ws s.
Proof.
  intros Hc. induction s as [|a rest IH]; [done|].
  cbn [remove_char strip_ws]. destruct (decide (a = c)) as [->|Hne].
  - by rewrite Hc.
  - cbn [strip_ws]. by rewrite IH.
Qed.

Lemma spaces_only_app (s t : string) :
  spaces_only (s +:+ t) = spaces_only s && spaces_only t.
Proof.
  induction s as [|a s IH]; [done|]. simpl. rewrite IH.
  by rewrite andb_assoc.
Qed.

Lemma no_ws_spaces_only (w : string) : no_ws w = true -> spaces_only w = true.
Proof.
  induction w as [|a w IH]; [done|]. simpl.
  intros [Ha Hw]%andb_true_iff. rewrite Ha, IH by done.
  by rewrite orb_true_r.
Qed.

Lemma concat_spaces_only (ws : list string) :
  Forall word ws -> spaces_only (String.concat " " ws) = true.
Proof.
  induction 1 as [|w ws [_ Hw] Hws IH]; [done|].
  cbn [String.concat]. destruct ws as [|w' ws'].
  - by apply no_ws_spaces_only.
  - rewrite !spaces_only_app, IH, (no_ws_spaces_only w Hw). done.
Qed.

(** A cleaned string is its words joined by single spaces; it holds the
    characters of the original that are not whitespace, in their order, and
    no whitespace other than those spaces. *)
Lemma clean_normal_form (s : string) :
  exists ws,
    clean s = String.concat " " ws
    /\ Forall word ws
    /\ String.concat EmptyString ws = strip_ws s
    /\ spaces_only (clean s) = true.
Proof.
  exists (split_ws (remove_char newline (remove_char tab s))).
  split; [done|]. split; [apply split_ws_words|]. split.
  - rewrite split_ws_content.
    rewrite !strip_ws_remove_char; done.
  - apply concat_spaces_only, split_ws_words.
Qed.

Lemma run_setitem_dict (r : loc) (d : gmap dkey val) (k : dkey) (x : val)
    (s : state) :
  heap s !! r = Some (ODict d) ->
  setitem (Ref r) k x s
  = (Ok tt, {| heap := <[r := ODict (<[k := x]> d)]> (heap s);
               trace := trace s |}).
Proof. intros Hr. unfold setitem. rewrite run_bind. unfold deref. by rewrite Hr. Qed.

Lemma run_list_append_list (r : loc) (items : list val) (x : val) (s : state) :
  heap s !! r = Some (OList items) ->
  list_append (Ref r) x s
  = (Ok tt, {| heap := <[r := OList (items ++ [x])]> (heap s);
               trace := trace s |}).
Proof.
  intros Hr. unfold list_append. rewrite run_bind. unfold deref. by rewrite Hr.
Qed.

Lemma spec_fill_cons d name raw cells :
  spec_fill d ((name, raw) :: cells)
  = spec_fill (match raw with
               | PNone => d
               | _ => <[KStr name := Sc (normalize raw)]> d
               end) cells.
Proof. unfold spec_fill. cbn [fold_left fst snd]. by destruct raw. Qed.

Lemma fill_row_run (r : loc) (col : list string) (data : list pyval) :
  forall (idx : nat) (s : state) (d : gmap dkey val),
    heap s !! r = Some (ODict d) ->
    (length data + idx <= length col)%nat ->
    fill_row (Ref r) col idx data s
    = (Ok tt,
       {| heap := <[r := ODict (spec_fill d (zip (drop idx col) data))]> (heap s);
          trace := trace s |}).
Proof.
  induction data as [|val data IH]; intros idx s d Hr Hlen.
  - cbn [fill_row]. rewrite zip_with_nil_r. cbn [spec_fill fold_left].
    rewrite list_insert_id by done. by destruct s.
  - cbn [fill_row length] in *.
    destruct (lookup_lt_is_Some_2 col idx) as [name Hname]; [lia|].
    rewrite (drop_S col name idx Hname). cbn [zip_with].
    rewrite spec_fill_cons, run_bind.
    assert (forall d' s',
      heap s' !! r = Some (ODict d') ->
      fill_row (Ref r) col (S idx) data s'
      = (Ok tt,
         {| heap := <[r := ODict (spec_fill d' (zip (drop (S idx) col) data))]>
                      (heap s');
            trace := trace s' |})) as IH'.
    { intros d' s' Hr'. apply IH; [done | lia]. }
    assert (forall x,
      (name' ← lift (index col idx); setitem (Ref r) (KStr name') (Sc x)) s
      = (Ok tt, {| heap := <[r := ODict (<[KStr name := Sc x]> d)]> (heap s);
                   trace := trace s |})) as Hset.
    { intros x. rewrite run_bind, run_lift. unfold index. rewrite Hname.
      by apply run_setitem_dict. }
    assert (r < length (heap s))%nat as Hlt by (by eapply lookup_lt_Some).
    destruct val; first [ by rewrite run_ret, (IH' d s Hr) | rewrite Hset ].
    all: erewrite IH' by (cbn [heap]; apply list_lookup_insert_eq; exact Hlt).
    all: cbn [heap trace]; by rewrite list_insert_insert_eq.
Qed.

Lemma heap_row_step (h : list obj) (L : list val) (D : list obj)
    (o o' : obj) (x : val) :
  <[length h := OList (L ++ [x])]>
    (<[length (h ++ OList L :: D) := o']> ((h ++ OList L :: D) ++ [o]))
  = h ++ OList (L ++ [x]) :: (D ++ [o']).
Proof.
  rewrite insert_app_r_alt by lia.
  rewrite Nat.sub_diag. cbn [insert list_insert].
  rewrite <- app_assoc. cbn [app].
  replace (length h) with (length h + 0)%nat at 1 by lia.
  rewrite insert_app_r. done.
Qed.

Section GetMetrics.

Variable srv : server.
Variable col : list string.
Variable h : list obj.

Local Abbreviation n := (length h).

Local Abbreviation body :=
  (fun data : list pyval =>
     row ← alloc (ODict ∅);
     fill_row row col 0 data;;
     list_append (Ref n) row).

Local Abbreviation rows_heap :=
  (fun rows_done : list (list pyval) =>
     h ++ OList (Ref <$> seq (S n) (length rows_done))
       :: (ODict <$> (spec_row col <$> rows_done))).

Lemma rows_loop_run (rest : list (list pyval)) :
  forall (rows_done : list (list pyval)) (tr : list event),
    Forall (fun data => (length data <= length col)%nat) rest ->
    for_each rest body {| heap := rows_heap rows_done; trace := tr |}
    = (Ok tt, {| heap := rows_heap (rows_done ++ rest); trace := tr |}).
Proof.
  induction rest as [|data rest IH]; intros rows_done tr Hrest.
  - cbn [for_each]. by rewrite app_nil_r.
  - inversion Hrest as [|? ? Hdata Hrest']; subst.
    cbn [for_each]. rewrite run_bind. rewrite (run_bind (alloc _)).
    unfold alloc at 1. cbn [heap trace].
    set (k := length (rows_heap rows_done)).
    rewrite run_bind.
    rewrite (fill_row_run k col data 0 _ ∅); cycle 1.
    { cbn [heap]. subst k. by apply list_lookup_middle. }
    { lia. }
    cbn [heap trace]. rewrite drop_0. fold (spec_row col data).
    rewrite (run_list_append_list n (Ref <$> seq (S n) (length rows_done))).
    2:{ cbn [heap].
        assert (n < k)%nat as Hnk.
        { unfold k. rewrite (length_app h). cbn [length]. lia. }
        rewrite list_lookup_insert_ne by lia.
        rewrite <- app_assoc. by apply list_lookup_middle. }
    cbn [heap trace]. subst k. cbv beta.
    rewrite heap_row_step.
    assert (h ++ OList ((Ref <$> seq (S n) (length rows_done))
                        ++ [Ref (length (rows_heap rows_done))])
              :: ((ODict <$> (spec_row col <$> rows_done))
                  ++ [ODict (spec_row col data)])
            = rows_heap (rows_done ++ [data])) as ->.
    { cbv beta. rewrite (length_app rows_done). cbn [length].
      rewrite Nat.add_1_r, seq_S, !fmap_app. cbn [fmap list_fmap].
      do 5 f_equal. rewrite (length_app h). cbn [length].
      rewrite !length_fmap. f_equal. lia. }
    rewrite (IH (rows_done ++ [data]) tr Hrest').
    by rewrite <- app_assoc.
Qed.

(** What [_get_metrics] leaves in the store: its list, then one mapping
    per row. *)
Lemma get_metrics_run (query : string) (s : state)
    (ret : list (list pyval)) :
  heap s = h ->
  srv (trace s) (EFetch query) = Rows ret col ->
  Forall (fun data => (length data <= length col)%nat) ret ->
  _get_metrics srv query s
  = (Ok (Ref n),
     {| heap := rows_heap ret; trace := trace s ++ [EFetch query] |}).
Proof.
  intros Hh Hreply Hret. unfold _get_metrics.
  rewrite run_bind. unfold alloc at 1. cbn [heap trace]. rewrite Hh.
  rewrite run_bind, run_cmd. cbn [heap trace]. rewrite Hreply.
  rewrite run_bind.
  assert ((if (0 <? length ret)%nat
           then for_each ret body
           else mret tt)
            {| heap := h ++ [OList []]; trace := trace s ++ [EFetch query] |}
          = (Ok tt, {| heap := rows_heap ret;
                       trace := trace s ++ [EFetch query] |})) as ->.
  { destruct ret as [|data ret']; [done|]. cbn [length Nat.ltb Nat.leb].
    by rewrite (rows_loop_run (data :: ret') [] _ Hret). }
  done.
Qed.

End GetMetrics.

Lemma normalize_not_none (raw : pyval) : raw <> PNone -> normalize raw <> PNone.
Proof. by destruct raw. Qed.

Lemma spec_fill_lookup_Some d cells k v :
  spec_fill d cells !! k = Some v ->
  d !! k = Some v
  \/ exists name raw, (name, raw) ∈ cells /\ k = KStr name
                      /\ raw <> PNone /\ v = Sc (normalize raw).
Proof.
  revert d. induction cells as [|[name raw] cells IH]; intros d Hk; [by left|].
  rewrite spec_fill_cons in Hk. apply IH in Hk as [Hk|Hk].
  - assert (raw = PNone \/ raw <> PNone) as [->|Hraw]
      by (destruct raw; first [by left | by right]); [by left|].
    assert (<[KStr name := Sc (normalize raw)]> d !! k = Some v) as Hk'
      by (by destruct raw).
    apply lookup_insert_Some in Hk' as [[<- <-]|[_ Hk']]; [|by left].
    right. exists name, raw. split; [left|]; done.
  - right. destruct Hk as (name' & raw' & Hin & Hrest).
    exists name', raw'. split; [by right | done].
Qed.

Lemma spec_fill_other d cells name :
  name ∉ cells.*1 -> spec_fill d cells !! KStr name = d !! KStr name.
Proof.
  revert d. induction cells as [|[name' raw] cells IH]; intros d Hname; [done|].
  rewrite spec_fill_cons. cbn [fmap list_fmap fst] in Hname.
  apply not_elem_of_cons in Hname as [Hne Hname].
  rewrite IH by done.
  destruct raw; try done; rewrite lookup_insert_ne; congruence.
Qed.

Lemma zip_fst_subset {A B} (xs : list A) (ys : list B) x :
  x ∈ (zip xs ys).*1 -> x ∈ xs.
Proof.
  revert ys. induction xs as [|a xs IH]; intros [|b ys]; simpl; try done.
  - by intros ?%elem_of_nil.
  - intros [->|Hin]%elem_of_cons; [left | right; by eapply IH].
Qed.

Lemma spec_fill_zip_lookup col :
  NoDup col ->
  forall data d j name raw,
    col !! j = Some name -> data !! j = Some raw ->
    spec_fill d (zip col data) !! KStr name
    = match raw with
      | PNone => d !! KStr name
      | _ => Some (Sc (normalize raw))
      end.
Proof.
  induction 1 as [|c col Hc Hnd IH]; intros data d j name raw Hcol Hdata;
    [done|].
  destruct data as [|x data]; [done|].
  cbn [zip_with]. rewrite spec_fill_cons.
  destruct j as [|j]; simpl in Hcol, Hdata.
  - injection Hcol as ->. injection Hdata as ->.
    rewrite spec_fill_other.
    + destruct raw; try done; by rewrite lookup_insert_eq.
    + intros Hin. by apply zip_fst_subset in Hin.
  - rewrite (IH data _ j name raw Hcol Hdata).
    assert (name <> c) as Hne.
    { intros ->. apply Hc. by eapply list_elem_of_lookup_2. }
    destruct raw; try done; destruct x; try done;
      rewrite lookup_insert_ne; congruence.
Qed.

Lemma clean_example :
  clean (" a " +:+ String tab (" b" +:+ String newline "  c ")) = "a b c".
Proof. reflexivity. Qed.



(** ** The order of reads and resets *)

Create HintDb sends.

Lemma only_mono {A} (P Q : event -> bool) (m : M A) :
  (forall ev, P ev = true -> Q ev = true) -> only P m -> only Q m.
Proof.
  intros HPQ Hm s. destruct (Hm s) as (evs & Ht & Hevs).
  exists evs. split; [done|].
  apply forallb_forall. intros ev Hev.
  apply HPQ. by eapply (proj1 (forallb_forall P evs)).
Qed.

Lemma only_bind {A B} P (m : M A) (f : A -> M B) :
  only P m -> (forall a, only P (f a)) -> only P (m ≫= f).
Proof.
  intros Hm Hf s. rewrite run_bind.
  destruct (Hm s) as (evs1 & Ht1 & Hevs1).
  destruct (m s) as [[a|e] s1]; simpl in *; [|by exists evs1].
  destruct (Hf a s1) as (evs2 & Ht2 & Hevs2).
  exists (evs1 ++ evs2). rewrite Ht2, Ht1, <- app_assoc. split; [done|].
  rewrite forallb_app. by rewrite Hevs1, Hevs2.
Qed.

Lemma only_same {A} P (m : M A) :
  (forall s, trace (m s).2 = trace s) -> only P m.
Proof. intros Hm s. exists []. by rewrite app_nil_r, Hm. Qed.

Lemma only_ret {A} P (a : A) : only P (mret a).
Proof. by apply only_same. Qed.

Lemma only_ret' {A} P (a : A) : only P (ret a).
Proof. by apply only_same. Qed.

Lemma only_raise {A} P e : only P (raise e : M A).
Proof. by apply only_same. Qed.

Lemma only_lift {A} P (r : result A) : only P (lift r).
Proof. by apply only_same. Qed.

Lemma only_alloc P o : only P (alloc o).
Proof. by apply only_same. Qed.

Lemma only_update P k o : only P (update k o).
Proof. by apply only_same. Qed.

Lemma only_deref P v e : only P (deref v e).
Proof.
  apply only_same. intros s. unfold deref.
  destruct v as [x|k]; [done|]. by destruct (heap s !! k).
Qed.

Lemma only_send P srv ev : P ev = true -> only P (send srv ev).
Proof. intros Hev s. exists [ev]. simpl. by rewrite Hev. Qed.

Lemma only_for_each {A} P (xs : list A) (body : A -> M unit) :
  (forall x, only P (body x)) -> only P (for_each xs body).
Proof.
  intros Hbody. induction xs as [|x xs IH]; cbn [for_each].
  - apply only_ret'.
  - apply only_bind; [apply Hbody | by intros _].
Qed.

Lemma only_try_any {A} P (m h : M A) :
  only P m -> only P h -> only P (try_any m h).
Proof.
  intros Hm Hh s. unfold try_any.
  destruct (Hm s) as (evs1 & Ht1 & Hevs1).
  destruct (m s) as [[a|e] s1]; simpl in *; [by exists evs1|].
  destruct (Hh s1) as (evs2 & Ht2 & Hevs2).
  exists (evs1 ++ evs2). rewrite Ht2, Ht1, <- app_assoc. split; [done|].
  rewrite forallb_app. by rewrite Hevs1, Hevs2.
Qed.

Lemma only_try_collector {A} P (m h : M A) :
  only P m -> only P h -> only P (try_collector m h).
Proof.
  intros Hm Hh s. unfold try_collector.
  destruct (Hm s) as (evs1 & Ht1 & Hevs1).
  destruct (m s) as [[a|e] s1]; simpl in *; [by exists evs1|].
  destruct e; try by exists evs1.
  destruct (Hh s1) as (evs2 & Ht2 & Hevs2).
  exists (evs1 ++ evs2). rewrite Ht2, Ht1, <- app_assoc. split; [done|].
  rewrite forallb_app. by rewrite Hevs1, Hevs2.
Qed.

#[local] Hint Resolve only_ret only_ret' only_raise only_lift only_alloc
  only_update only_deref only_for_each only_try_any only_try_collector
  : sends.

(** Decompose a computation along its binds and branches. *)
Ltac sends :=
  repeat first
    [ progress intros
    | progress cbv zeta
    | match goal with
      | |- only _ (mbind _ _) => apply only_bind
      | |- only _ (for_each _ _) => apply only_for_each
      | |- only _ (try_any _ _) => apply only_try_any
      | |- only _ (try_collector _ _) => apply only_try_collector
      end
    | solve [auto with sends]
    | apply only_send; reflexivity
    | match goal with
      | |- only _ (match ?x with _ => _ end) => destruct x
      | |- only _ (if ?b then _ else _) => destruct b
      | |- only _ (let '(_, _) := ?x in _) => destruct x
      end ].

Lemma only_list_append P v x : only P (list_append v x).
Proof. unfold list_append. sends. Qed.

Lemma only_py_len P v : only P (py_len v).
Proof. unfold py_len. sends. Qed.

Lemma only_list_items P v : only P (list_items v).
Proof. unfold list_items. sends. Qed.

Lemma only_getitem_index P v i : only P (getitem_index v i).
Proof. unfold getitem_index. sends. Qed.

Lemma only_getitem P v k : only P (getitem v k).
Proof. unfold getitem. sends. Qed.

Lemma only_setitem P v k x : only P (setitem v k x).
Proof. unfold setitem. sends. Qed.

Lemma only_delitem P v k : only P (delitem v k).
Proof. unfold delitem. sends. Qed.

Lemma only_contains P k v : only P (contains k v).
Proof. unfold contains. sends. Qed.

Lemma only_dict_entries P v e : only P (dict_entries v e).
Proof. unfold dict_entries. sends. Qed.

#[local] Hint Resolve only_list_append only_py_len only_list_items
  only_getitem_index only_getitem only_setitem only_delitem only_contains
  only_dict_entries : sends.

Lemma only_dict_update P v w : only P (dict_update v w).
Proof. unfold dict_update. sends. Qed.

Lemma only_dict_filter P keep row : only P (dict_filter keep row).
Proof. unfold dict_filter. sends. Qed.

Lemma only_drop_stats_reset P (lookup_row : M val) :
  only P lookup_row -> only P (drop_stats_reset lookup_row).
Proof. intros H. unfold drop_stats_reset. sends. Qed.

Lemma only_assert_one_row P rows : only P (assert_one_row rows).
Proof. unfold assert_one_row. sends. Qed.

Lemma only_fill_row P row col data : forall idx, only P (fill_row row col idx data).
Proof.
  induction data as [|val data IH]; intros idx; cbn [fill_row]; [sends|].
  apply only_bind; [sends | intros _; apply IH].
Qed.

#[local] Hint Resolve only_dict_update only_dict_filter only_drop_stats_reset
  only_assert_one_row only_fill_row : sends.

Lemma only_active_sessions_loop P rows metric key :
  only P (active_sessions_loop rows metric key).
Proof. unfold active_sessions_loop. sends. Qed.

Lemma only_waiting_sessions_loop P rows metric key :
  only P (waiting_sessions_loop rows metric key).
Proof. unfold waiting_sessions_loop. sends. Qed.

#[local] Hint Resolve only_active_sessions_loop only_waiting_sessions_loop
  : sends.

Section Sends.

Variable srv : server.
Variable int_of_str : string -> result Z.

Lemma only_cmd P sql : P (EFetch sql) = true -> only P (_cmd srv sql).
Proof. intros H. unfold _cmd. sends. by apply only_send. Qed.

Lemma no_reset_cmd sql : only not_reset (_cmd srv sql).
Proof. by apply only_cmd. Qed.

Lemma no_read_cmd_wo_fetch sql : only not_read (_cmd_wo_fetch srv sql).
Proof. unfold _cmd_wo_fetch. sends. Qed.

Hint Resolve no_reset_cmd no_read_cmd_wo_fetch : sends.

Lemma no_reset_get_metrics query : only not_reset (_get_metrics srv query).
Proof. unfold _get_metrics. sends. Qed.

Lemma no_reset_sessions_loop metric key :
  only not_reset (sessions_loop srv int_of_str metric key).
Proof. unfold sessions_loop. sends. Qed.

Lemma no_reset_load_stat_statements :
  only not_reset (_load_stat_statements srv).
Proof. unfold _load_stat_statements, raw_execute, commit, rollback. sends. Qed.

Hint Resolve no_reset_get_metrics no_reset_sessions_loop
  no_reset_load_stat_statements : sends.

Lemma only_cmd_wo_fetch P sql :
  P (EExec sql) = true -> only P (_cmd_wo_fetch srv sql).
Proof. intros H. unfold _cmd_wo_fetch. sends. by apply only_send. Qed.

Lemma anything_get_stat_statements : only anything (_get_stat_statements srv).
Proof.
  unfold _get_stat_statements, _get_metrics, _load_stat_statements,
    raw_execute, commit, rollback.
  sends; first [by apply only_cmd | by apply only_cmd_wo_fetch].
Qed.

Lemma reset_at_end_get_stat_statements :
  reset_at_end (_get_stat_statements srv).
Proof.
  assert (forall res,
            only not_read
              (try_collector
                 (_cmd_wo_fetch srv stat_statements_reset_sql) (mret tt);;
               mret res : M val)) as Htail by sends.
  intros s. unfold _get_stat_statements.
  rewrite run_bind. unfold alloc at 1.
  set (s1 := {| heap := heap s ++ [OList []]; trace := trace s |}).
  rewrite run_bind.
  destruct (no_reset_load_stat_statements s1) as (evs0 & Ht0 & Hevs0).
  destruct (_load_stat_statements srv s1) as [[success|e] s2];
    cbn [snd trace s1] in Ht0.
  2:{ exists evs0, []. by rewrite app_nil_r. }
  destruct success; simpl.
  2:{ exists evs0, []. by rewrite app_nil_r. }
  unfold try_collector at 1. rewrite run_bind.
  destruct (no_reset_get_metrics PG_STAT_STATEMENTS_EDA_SQL s2)
    as (evs1 & Ht1 & Hevs1).
  destruct (_get_metrics srv PG_STAT_STATEMENTS_EDA_SQL s2)
    as [[res|e] s3]; simpl in Ht1.
  - destruct (Htail res s3) as (evs2 & Ht2 & Hevs2).
    match goal with
    | |- context [mbind ?f ?m s3] =>
        destruct (mbind f m s3) as [[v|e] s4]
    end; cbn [snd] in Ht2.
    + exists (evs0 ++ evs1), evs2. cbn [snd].
      rewrite Ht2, Ht1, Ht0, <- !app_assoc.
      split; [done|]. rewrite forallb_app. by rewrite Hevs0, Hevs1.
    + exists (evs0 ++ evs1), evs2.
      rewrite forallb_app, Hevs0, Hevs1.
      split; [|done]. destruct e; cbn; by rewrite Ht2, Ht1, Ht0, <- !app_assoc.
  - exists (evs0 ++ evs1), [].
    rewrite forallb_app, Hevs0, Hevs1, app_nil_r.
    split; [|done]. destruct e; cbn; by rewrite Ht1, Ht0, <- app_assoc.
Qed.

Lemma rcbr_no_reset (evs1 evs2 : list event) :
  forallb not_reset evs1 = true ->
  reads_complete_before_reset (evs1 ++ evs2)
  = reads_complete_before_reset evs2.
Proof.
  induction evs1 as [|ev evs1 IH]; [done|]. cbn [forallb app].
  intros [Hev H]%andb_true_iff. cbn [reads_complete_before_reset].
  unfold not_reset in Hev. apply negb_true_iff in Hev. rewrite Hev.
  by apply IH.
Qed.

Lemma rcbr_no_read (evs : list event) :
  forallb not_read evs = true -> reads_complete_before_reset evs = true.
Proof.
  induction evs as [|ev evs IH]; [done|]. cbn [forallb].
  intros [Hev H]%andb_true_iff. cbn [reads_complete_before_reset].
  rewrite (IH H), andb_true_r. destruct (is_reset ev); [|done].
  exact H.
Qed.

Lemma last_app_Some {A} (xs ys : list A) (x : A) :
  last ys = Some x -> last (xs ++ ys) = Some x.
Proof.
  intros Hy. destruct ys as [|y ys]; [done|].
  rewrite last_app. by rewrite Hy.
Qed.

Lemma resets_last_bind {A B} (m : M A) (f : A -> M B) :
  only not_reset m -> (forall a, resets_last (f a)) ->
  resets_last (m ≫= f).
Proof.
  intros Hm Hf s. rewrite run_bind.
  destruct (Hm s) as (evs1 & Ht1 & Hevs1).
  destruct (m s) as [[a|e] s1]; cbn [snd] in Ht1.
  - destruct (Hf a s1) as (evs2 & Ht2 & Hevs2 & Hlast).
    exists (evs1 ++ evs2). rewrite Ht2, Ht1, <- app_assoc.
    split; [done|]. split; [by rewrite rcbr_no_reset|].
    intros v Hv. by apply last_app_Some, (Hlast v).
  - exists evs1. split; [done|]. split; [|intros v Hv; discriminate Hv].
    rewrite <- (app_nil_r evs1). by rewrite rcbr_no_reset.
Qed.

Lemma resets_last_from_end {A B} (m : M A) (f : A -> M B) :
  reset_at_end m -> (forall a, closing (f a)) -> resets_last (m ≫= f).
Proof.
  intros Hm Hf s. rewrite run_bind.
  destruct (Hm s) as (evs1 & evs2 & Ht1 & Hevs1 & Hevs2).
  destruct (m s) as [[a|e] s1]; cbn [snd] in Ht1.
  - destruct (Hf a s1) as (evs3 & Ht3 & Hevs3 & Hlast).
    exists (evs1 ++ evs2 ++ evs3). rewrite Ht3, Ht1, <- !app_assoc.
    split; [done|]. split.
    + rewrite rcbr_no_reset by done. apply rcbr_no_read.
      rewrite forallb_app. by rewrite Hevs2, Hevs3.
    + intros v Hv. rewrite app_assoc. by apply last_app_Some, (Hlast v).
  - exists (evs1 ++ evs2). split; [done|].
    split; [|intros v Hv; discriminate Hv].
    rewrite rcbr_no_reset by done. by apply rcbr_no_read.
Qed.

Lemma closing_bind {A B} (m : M A) (f : A -> M B) :
  only nothing m -> (forall a, closing (f a)) -> closing (m ≫= f).
Proof.
  intros Hm Hf s. rewrite run_bind.
  destruct (Hm s) as (evs1 & Ht1 & Hevs1).
  assert (evs1 = []) as -> by (by destruct evs1).
  rewrite app_nil_r in Ht1.
  destruct (m s) as [[a|e] s1]; cbn [snd] in Ht1.
  - destruct (Hf a s1) as (evs2 & Ht2 & Hevs2 & Hlast).
    exists evs2. by rewrite Ht2, Ht1.
  - exists []. rewrite app_nil_r. split; [done|]. split; [done|].
    intros v Hv. discriminate Hv.
Qed.

Lemma closing_final {A} (x : A) :
  closing (_cmd_wo_fetch srv stat_reset_sql;; mret x).
Proof.
  intros s. rewrite run_bind, run_cmd_wo_fetch.
  exists [EExec stat_reset_sql]. split; [|split; [done|done]].
  by destruct (srv (trace s) (EExec stat_reset_sql)).
Qed.

Lemma ends_with_reset_bind {A B} (m : M A) (f : A -> M B) :
  only anything m -> (forall a, ends_with_reset (f a)) ->
  ends_with_reset (m ≫= f).
Proof.
  intros Hm Hf s. rewrite run_bind.
  destruct (Hm s) as (evs1 & Ht1 & _).
  destruct (m s) as [[a|e] s1]; cbn [snd] in Ht1.
  - destruct (Hf a s1) as (evs2 & Ht2 & Hlast).
    exists (evs1 ++ evs2). rewrite Ht2, Ht1, <- app_assoc.
    split; [done|]. intros v Hv. by apply last_app_Some, (Hlast v).
  - exists evs1. split; [done|]. intros v Hv. discriminate Hv.
Qed.

Lemma ends_with_reset_final {A} (x : A) :
  ends_with_reset (_cmd_wo_fetch srv stat_reset_sql;; mret x).
Proof.
  intros s. destruct (closing_final x s) as (evs & Ht & _ & Hlast).
  by exists evs.
Qed.

Hint Resolve anything_get_stat_statements : sends.

(** Whatever the server replies and wherever the cycle stops,
    [collect_metrics_influx] sends no read after a reset, and when it
    returns the unconditional reset was the last thing it sent. *)
Lemma influx_cycle_resets_last (metrics : val) :
  resets_last (collect_metrics_influx srv int_of_str metrics).
Proof.
  unfold collect_metrics_influx. cbv zeta.
  repeat match goal with
  | |- resets_last (mbind _ (_get_stat_statements _)) => fail 1
  | |- resets_last (mbind _ _) =>
      apply resets_last_bind; [sends; by apply only_cmd | intros]
  end.
  apply resets_last_from_end; [apply reset_at_end_get_stat_statements|].
  intros rows. apply closing_bind; [sends|]. intros items.
  apply closing_bind; [sends|]. intros _.
  apply closing_final.
Qed.

(** When [collect_metrics_pg] returns, the unconditional reset was the
    last thing it sent. *)
Lemma pg_cycle_ends_with_reset (metrics : val) :
  ends_with_reset (collect_metrics_pg srv int_of_str metrics).
Proof.
  unfold collect_metrics_pg. cbv zeta.
  repeat match goal with
  | |- ends_with_reset (mbind _ (_cmd_wo_fetch _ _)) => fail 1
  | |- ends_with_reset (mbind _ _) =>
      apply ends_with_reset_bind;
      [ try unfold _get_metrics, sessions_loop;
        sends; first [by apply only_cmd | by apply only_cmd_wo_fetch]
      | intros ]
  end.
  apply ends_with_reset_final.
Qed.

End Sends.

(** ** Collection cycles *)

(** C1 (on the input where the code departs from it): on a server on which
    the cycle runs to its end, [collect_metrics_pg] resets the statement
    statistics and then reads them twice more before the final reset, while
    [collect_metrics_influx] has read everything before its first reset;
    both end with the unconditional reset. *)
Theorem pg_cycle_reads_after_reset :
  let '(r, s) := collect_metrics_pg healthy_server no_int_of_str
                   (Ref 0%nat) empty_metrics in
  let '(r', s') := collect_metrics_influx healthy_server no_int_of_str
                     (Ref 0%nat) empty_metrics in
  r = Ok (Ref 0%nat)
  /\ (exists before,
        trace s = before ++ [ EExec stat_statements_reset_sql;
                              EFetch TPS_SQL;
                              EFetch LATENCY_95TH_SQL;
                              EExec stat_reset_sql ])
  /\ reads_complete_before_reset (trace s) = false
  /\ r' = Ok (Ref 0%nat)
  /\ reads_complete_before_reset (trace s') = true
  /\ last (trace s') = Some (EExec stat_reset_sql).
Proof.
  vm_compute. split; [done|]. split; [|done].
  eexists (_ :: _ :: _ :: _ :: _ :: _ :: _ :: _ :: _ :: _ :: _ :: _ :: _
           :: _ :: _ :: _ :: []).
  reflexivity.
Qed.

(** ** The store invariant of a cycle *)

Section WorldLemmas.

Variable h0 : list obj.
Variable l : loc.
Variable old : list val.
Variable slot : string.
Hypothesis Hl : h0 !! l = Some (OList old).

Local Abbreviation records := (records l old).
Local Abbreviation plain := (plain h0 l old).
Local Abbreviation pv := (pv h0 l old).
Local Abbreviation named := (named slot).
Local Abbreviation world := (world h0 l old slot).
Local Abbreviation mono := (mono h0 l old).
Local Abbreviation open_ok := (open_ok h0 l old slot).

Lemma l_lt : (l < length h0)%nat.
Proof. by eapply lookup_lt_Some. Qed.

Lemma world_init : world [] None h0.
Proof.
  split.
  - done.
  - done.
  - exists []. rewrite app_nil_r. split; [done|]. split; constructor.
  - intros k o Hk Ho. apply lookup_lt_Some in Ho. lia.
  - done.
Qed.

Lemma records_eq h h' : h' !! l = h !! l -> records h' = records h.
Proof. intros H. unfold records. by rewrite H. Qed.

Lemma records_world names cur h :
  world names cur h ->
  exists recs, records h = Ref <$> recs /\ length recs = length names
               /\ h !! l = Some (OList (old ++ (Ref <$> recs))).
Proof.
  intros [_ _ (recs & Hrecs & Hn & _) _ _]. exists recs.
  unfold records. rewrite Hrecs, drop_app_length.
  split; [done|]. split; [by eapply Forall2_length | done].
Qed.

Lemma plain_ne_l h cur k : plain h cur k -> k <> l.
Proof. intros [[? _] _]. pose proof l_lt. lia. Qed.

Lemma pv_impl h cur h' cur' (vs : list val) :
  mono h cur h' cur' -> Forall (pv h cur) vs -> Forall (pv h' cur') vs.
Proof. intros Hm H. eapply Forall_impl; [exact H | exact Hm]. Qed.

Lemma pv_impl_map h cur h' cur' (d : gmap dkey val) :
  mono h cur h' cur' ->
  map_Forall (fun _ => pv h cur) d -> map_Forall (fun _ => pv h' cur') d.
Proof. intros Hm Hd k v Hk. apply Hm. by eapply Hd. Qed.

Lemma obj_Forall_impl h cur h' cur' o :
  mono h cur h' cur' ->
  obj_Forall (pv h cur) o -> obj_Forall (pv h' cur') o.
Proof. destruct o; [apply pv_impl | apply pv_impl_map]. Qed.

Lemma mono_refl h cur : mono h cur h cur.
Proof. by intros v. Qed.

Lemma mono_trans h1 c1 h2 c2 h3 c3 :
  mono h1 c1 h2 c2 -> mono h2 c2 h3 c3 -> mono h1 c1 h3 c3.
Proof. intros H1 H2 v Hv. by apply H2, H1. Qed.

(** A change that keeps the lengths, the caller's list and the record
    under construction keeps plain objects plain. *)
Lemma mono_same h h' cur :
  length h' = length h -> h' !! l = h !! l -> mono h cur h' cur.
Proof.
  intros Hlen Hll [x|k]; [done|]. unfold pv, plain.
  by rewrite Hlen, (records_eq h h' Hll).
Qed.

Lemma named_other h k o j name :
  j <> k -> named h j name -> named (<[k := o]> h) j name.
Proof.
  intros Hne (d & Hd & Hs). exists d. by rewrite list_lookup_insert_ne.
Qed.

Lemma named_app h o j name : named h j name -> named (h ++ [o]) j name.
Proof.
  intros (d & Hd & Hs). exists d. split; [|done].
  by apply lookup_app_l_Some.
Qed.

Lemma not_in_records_ne (recs : list loc) k :
  Ref k ∉ (Ref <$> recs : list val) -> Forall (fun j => j <> k) recs.
Proof.
  intros Hk. apply Forall_forall. intros j Hj ->.
  apply Hk. by apply (list_elem_of_fmap_2 Ref).
Qed.

(** Writing a plain object. *)
Lemma world_update_plain names cur h k o :
  world names cur h -> plain h cur k -> obj_Forall (pv h cur) o ->
  world names cur (<[k := o]> h) /\ mono h cur (<[k := o]> h) cur.
Proof.
  intros HW Hk Ho.
  pose proof (plain_ne_l _ _ _ Hk) as Hkl.
  assert (mono h cur (<[k := o]> h) cur) as Hm.
  { apply mono_same; [apply length_insert | by apply list_lookup_insert_ne]. }
  split; [|done].
  destruct HW as [Hlen Hfr (recs & Hrecs & Hn & Hfresh) Hcl Hcur].
  destruct Hk as ((Hk0 & Hk1) & Hkr & Hkc).
  assert (records h = Ref <$> recs) as Hrec.
  { unfold records. by rewrite Hrecs, drop_app_length. }
  split.
  - by rewrite length_insert.
  - intros j Hj Hjl. rewrite list_lookup_insert_ne by lia. by apply Hfr.
  - exists recs. rewrite list_lookup_insert_ne by done.
    split; [done|]. split.
    + rewrite Hrec in Hkr. apply not_in_records_ne in Hkr.
      clear -Hn Hkr. induction Hn; [constructor|].
      inversion Hkr; subst. constructor; [by apply named_other | by apply IHHn].
    + by rewrite length_insert.
  - intros j oj Hj Hoj. destruct (decide (j = k)) as [->|Hne].
    + rewrite list_lookup_insert_eq in Hoj by done.
      injection Hoj as <-. by eapply obj_Forall_impl.
    + rewrite list_lookup_insert_ne in Hoj by done.
      eapply obj_Forall_impl; [done|]. by eapply Hcl.
  - destruct cur as [[m name]|]; [|done].
    destruct Hcur as (Hm0 & Hmr & d & Hd & Hname).
    split; [by rewrite length_insert|]. split.
    + by rewrite (records_eq h (<[k:=o]> h))
        by (by apply list_lookup_insert_ne).
    + exists d. split; [|done]. rewrite list_lookup_insert_ne; [done|].
      intros ->. by apply Hkc.
Qed.

(** Creating a plain object. *)
Lemma world_alloc names cur h o :
  world names cur h -> obj_Forall (pv h cur) o ->
  world names cur (h ++ [o])
  /\ mono h cur (h ++ [o]) cur
  /\ plain (h ++ [o]) cur (length h).
Proof.
  intros HW Ho.
  pose proof l_lt as Hll.
  destruct HW as [Hlen Hfr (recs & Hrecs & Hn & Hfresh) Hcl Hcur].
  assert ((h ++ [o]) !! l = h !! l) as Hsame.
  { apply lookup_app_l. lia. }
  assert (mono h cur (h ++ [o]) cur) as Hm.
  { intros [x|k]; [done|]. unfold pv, plain.
    rewrite length_app, (records_eq h (h ++ [o]) Hsame). simpl.
    intros (H1 & H2 & H3).
    split; [lia | done]. }
  assert (records h = Ref <$> recs) as Hrec.
  { unfold records. by rewrite Hrecs, drop_app_length. }
  split; [|split; [done|]].
  - split.
    + rewrite length_app. lia.
    + intros j Hj Hjl. rewrite lookup_app_l by lia. by apply Hfr.
    + exists recs. rewrite Hsame. split; [done|]. split.
      * eapply Forall2_impl; [done|]. intros j name. apply named_app.
      * eapply Forall_impl; [done|]. intros j. rewrite length_app. simpl. lia.
    + intros j oj Hj Hoj. apply lookup_app_Some in Hoj as [Hoj|[Hjl Hoj]].
      * eapply obj_Forall_impl; [done|]. by eapply Hcl.
      * apply list_lookup_singleton_Some in Hoj as [_ <-].
        by eapply obj_Forall_impl.
    + destruct cur as [[m name]|]; [|done].
      destruct Hcur as (Hm0 & Hmr & d & Hd & Hname).
      split; [rewrite length_app; simpl; lia|]. split.
      * by rewrite (records_eq h (h ++ [o]) Hsame).
      * exists d. split; [by apply lookup_app_l_Some | done].
  - split; [rewrite length_app; simpl; lia|]. split.
    + rewrite (records_eq h (h ++ [o]) Hsame), Hrec.
      intros Hin. apply list_elem_of_fmap in Hin as (j & [= <-] & Hj).
      rewrite Forall_forall in Hfresh. apply Hfresh in Hj. lia.
    + destruct cur as [[m name]|]; [|done]. simpl.
      destruct Hcur as (Hm0 & _). intros [= E]. lia.
Qed.

(** Creating the record under construction. *)
Lemma world_alloc_open names h :
  world names None h ->
  world names (Some (length h, None)) (h ++ [ODict ∅])
  /\ mono h None (h ++ [ODict ∅]) (Some (length h, None)).
Proof.
  intros HW.
  destruct (world_alloc names None h (ODict ∅) HW) as (HW' & Hm & Hp).
  { apply map_Forall_empty. }
  assert (mono h None (h ++ [ODict ∅]) (Some (length h, None))) as Hm'.
  { intros [x|k]; [done|]. intros Hk.
    assert (k < length h)%nat as Hlt by (destruct Hk as ((_ & ?) & _); done).
    destruct (Hm (Ref k) Hk) as (H1 & H2 & _).
    split; [done|]. split; [done|]. simpl. intros [= E]. lia. }
  split; [|done].
  destruct HW as [_ _ _ Hcl0 _].
  destruct HW' as [Hlen Hfr Hlist Hcl _].
  split; try done.
  - intros j oj Hj Hoj. apply lookup_app_Some in Hoj as [Hoj|[Hjl Hoj]].
    + eapply obj_Forall_impl; [exact Hm'|]. by eapply Hcl0.
    + apply list_lookup_singleton_Some in Hoj as [_ <-].
      apply map_Forall_empty.
  - destruct Hp as (Hp1 & Hp2 & _).
    split; [done|]. split; [done|].
    exists ∅. split; [|done]. by apply list_lookup_middle.
Qed.

(** Writing the record under construction under a key that is not its
    name. *)
Lemma world_set_open names m name h d k x :
  world names (Some (m, name)) h ->
  h !! m = Some (ODict d) ->
  k <> KStr slot ->
  pv h (Some (m, name)) x ->
  world names (Some (m, name)) (<[m := ODict (<[k := x]> d)]> h)
  /\ mono h (Some (m, name)) (<[m := ODict (<[k := x]> d)]> h) (Some (m, name)).
Proof.
  intros HW Hd Hk Hx.
  pose proof l_lt as Hll.
  set (h' := <[m := ODict (<[k := x]> d)]> h).
  destruct HW as [Hlen Hfr (recs & Hrecs & Hn & Hfresh) Hcl Hcur].
  destruct Hcur as (Hm0 & Hmr & d' & Hd' & Hname).
  assert (d' = d) as -> by congruence.
  assert (h' !! l = h !! l) as Hsame.
  { subst h'. apply list_lookup_insert_ne. lia. }
  assert (mono h (Some (m, name)) h' (Some (m, name))) as Hm.
  { apply mono_same; [apply length_insert | done]. }
  assert (records h = Ref <$> recs) as Hrec.
  { unfold records. by rewrite Hrecs, drop_app_length. }
  split; [|done]. split.
  - subst h'. by rewrite length_insert.
  - intros j Hj Hjl. subst h'. rewrite list_lookup_insert_ne by lia. by apply Hfr.
  - exists recs. rewrite Hsame. split; [done|]. split.
    + rewrite Hrec in Hmr. apply not_in_records_ne in Hmr.
      clear -Hn Hmr. induction Hn; [constructor|].
      inversion Hmr; subst. constructor; [by apply named_other | by apply IHHn].
    + subst h'. by rewrite length_insert.
  - intros j oj Hj Hoj. subst h'. destruct (decide (j = m)) as [->|Hne].
    + rewrite list_lookup_insert_eq in Hoj by lia.
      injection Hoj as <-. apply map_Forall_insert_2.
      * by apply Hm.
      * eapply pv_impl_map; [exact Hm|]. by apply (Hcl m (ODict d)).
    + rewrite list_lookup_insert_ne in Hoj by done.
      eapply obj_Forall_impl; [exact Hm|]. by eapply Hcl.
  - split; [subst h'; by rewrite length_insert|]. split.
    + by rewrite (records_eq h h' Hsame).
    + exists (<[k := x]> d). split.
      * subst h'. apply list_lookup_insert_eq. lia.
      * destruct name; [|done]. by rewrite lookup_insert_ne.
Qed.

(** Naming the record under construction. *)
Lemma world_name_open names m name h d x :
  world names (Some (m, name)) h ->
  h !! m = Some (ODict d) ->
  world names (Some (m, Some x))
    (<[m := ODict (<[KStr slot := Sc (PStr x)]> d)]> h)
  /\ mono h (Some (m, name))
       (<[m := ODict (<[KStr slot := Sc (PStr x)]> d)]> h) (Some (m, Some x)).
Proof.
  intros HW Hd.
  pose proof l_lt as Hll.
  set (h' := <[m := ODict (<[KStr slot := Sc (PStr x)]> d)]> h).
  destruct HW as [Hlen Hfr (recs & Hrecs & Hn & Hfresh) Hcl Hcur].
  destruct Hcur as (Hm0 & Hmr & d' & Hd' & Hname).
  assert (d' = d) as -> by congruence.
  assert (h' !! l = h !! l) as Hsame.
  { subst h'. apply list_lookup_insert_ne. lia. }
  assert (mono h (Some (m, name)) h' (Some (m, Some x))) as Hm.
  { intros [y|k]; [done|]. unfold pv, plain.
    subst h'. rewrite length_insert. fold (<[m:=ODict (<[KStr slot:=Sc (PStr x)]> d)]> h).
    by rewrite (records_eq h _ Hsame). }
  assert (records h = Ref <$> recs) as Hrec.
  { unfold records. by rewrite Hrecs, drop_app_length. }
  split; [|done]. split.
  - subst h'. by rewrite length_insert.
  - intros j Hj Hjl. subst h'. rewrite list_lookup_insert_ne by lia. by apply Hfr.
  - exists recs. rewrite Hsame. split; [done|]. split.
    + rewrite Hrec in Hmr. apply not_in_records_ne in Hmr.
      clear -Hn Hmr. induction Hn; [constructor|].
      inversion Hmr; subst. constructor; [by apply named_other | by apply IHHn].
    + subst h'. by rewrite length_insert.
  - intros j oj Hj Hoj. subst h'. destruct (decide (j = m)) as [->|Hne].
    + rewrite list_lookup_insert_eq in Hoj by lia.
      injection Hoj as <-. apply map_Forall_insert_2; [done|].
      eapply pv_impl_map; [exact Hm|]. by apply (Hcl m (ODict d)).
    + rewrite list_lookup_insert_ne in Hoj by done.
      eapply obj_Forall_impl; [exact Hm|]. by eapply Hcl.
  - split; [subst h'; by rewrite length_insert|]. split.
    + by rewrite (records_eq h h' Hsame).
    + exists (<[KStr slot := Sc (PStr x)]> d). split.
      * subst h'. apply list_lookup_insert_eq. lia.
      * apply lookup_insert_eq.
Qed.

(** Appending the named record to the caller's list. *)
Lemma world_append names m x h items :
  world names (Some (m, Some x)) h ->
  h !! l = Some (OList items) ->
  world (names ++ [x]) None (<[l := OList (items ++ [Ref m])]> h)
  /\ mono h (Some (m, Some x)) (<[l := OList (items ++ [Ref m])]> h) None.
Proof.
  intros HW Hitems.
  pose proof l_lt as Hll.
  set (h' := <[l := OList (items ++ [Ref m])]> h).
  destruct HW as [Hlen Hfr (recs & Hrecs & Hn & Hfresh) Hcl Hcur].
  destruct Hcur as (Hm0 & Hmr & d & Hd & Hname).
  assert (items = old ++ (Ref <$> recs)) as -> by congruence.
  assert (h' !! l = Some (OList (old ++ (Ref <$> (recs ++ [m]))))) as Hl'.
  { subst h'. rewrite list_lookup_insert_eq by lia.
    by rewrite fmap_app, app_assoc. }
  assert (records h = Ref <$> recs) as Hrec.
  { unfold records. by rewrite Hrecs, drop_app_length. }
  assert (records h' = Ref <$> (recs ++ [m])) as Hrec'.
  { unfold records. by rewrite Hl', drop_app_length. }
  assert (length h' = length h) as Hlen' by (subst h'; apply length_insert).
  assert (forall j, j <> l -> h' !! j = h !! j) as Hother.
  { intros j Hj. subst h'. by apply list_lookup_insert_ne. }
  assert (mono h (Some (m, Some x)) h' None) as Hm.
  { intros [y|k]; [done|]. unfold pv, plain. rewrite Hlen', Hrec', Hrec.
    simpl. intros (H1 & H2 & H3). split; [done|]. split; [|done].
    rewrite fmap_app. intros [Hin|Hin]%elem_of_app; [done|].
    apply list_elem_of_singleton in Hin. congruence. }
  split; [|done]. split.
  - by rewrite Hlen'.
  - intros j Hj Hjl. rewrite Hother by done. by apply Hfr.
  - exists (recs ++ [m]). split; [done|]. split.
    + apply Forall2_app.
      * eapply Forall2_impl; [exact Hn|]. intros j name (dj & Hdj & Hs).
        exists dj. split; [|done]. rewrite Hother; [done|].
        intros ->. rewrite Hrecs in Hdj. discriminate Hdj.
      * constructor; [|constructor]. exists d. split; [|done].
        rewrite Hother; [done | lia].
    + rewrite Hlen'. apply Forall_app. split; [done|].
      constructor; [done | constructor].
  - intros j oj Hj Hoj. rewrite Hother in Hoj by lia.
    eapply obj_Forall_impl; [exact Hm|]. by eapply Hcl.
  - done.
Qed.

End WorldLemmas.

(** ** The primitives keep the store invariant *)

Lemma run_post_bind {A B} (m : M A) (f : A -> M B) (s : state)
    (Q : B -> state -> Prop) (E : state -> Prop) :
  run_post (fun a s1 => run_post Q E (f a s1)) E (m s) ->
  run_post Q E ((m ≫= f) s).
Proof. rewrite run_bind. by destruct (m s) as [[a|e] s1]. Qed.

Lemma run_post_mono {A} (Q Q' : A -> state -> Prop) (E E' : state -> Prop)
    (out : result A * state) :
  run_post Q E out ->
  (forall a s, Q a s -> Q' a s) -> (forall s, E s -> E' s) ->
  run_post Q' E' out.
Proof. destruct out as [[a|e] s]; simpl; eauto. Qed.

Section Primitives.

Variable h0 : list obj.
Variable l : loc.
Variable old : list val.
Variable slot : string.
Hypothesis Hl : h0 !! l = Some (OList old).

Local Abbreviation plain := (plain h0 l old).
Local Abbreviation pv := (pv h0 l old).
Local Abbreviation world := (world h0 l old slot).
Local Abbreviation mono := (mono h0 l old).
Local Abbreviation fresh := (fresh h0).
Local Abbreviation quiet := (quiet h0 l old slot).

Lemma pv_fresh h cur v : pv h cur v -> fresh v.
Proof. destruct v as [x|k]; [done|]. by intros ((? & _) & _). Qed.

Lemma open_fresh names m name h : world names (Some (m, name)) h -> fresh (Ref m).
Proof. intros [_ _ _ _ ((? & _) & _)]. done. Qed.

Lemma world_read names cur h k o :
  world names cur h -> fresh (Ref k) -> h !! k = Some o ->
  obj_Forall (pv h cur) o.
Proof. intros HW Hk Ho. by eapply (w_closed _ _ _ _ _ _ _ HW). Qed.

(** A run that does not change the store. *)
Lemma quiet_same {A} names cur s (G : list obj -> A -> Prop) (r : result A) s' :
  world names cur (heap s) -> heap s' = heap s ->
  (forall a, r = Ok a -> G (heap s) a) ->
  quiet names cur s G (r, s').
Proof.
  intros HW Hh HG. unfold quiet, run_post. rewrite Hh.
  destruct r as [a|e].
  - split; [done|]. split; [apply mono_refl | by apply HG].
  - split; [done | apply mono_refl].
Qed.

Lemma quiet_bind {A B} names cur s (G1 : list obj -> A -> Prop)
    (G2 : list obj -> B -> Prop) (m : M A) (f : A -> M B) :
  quiet names cur s G1 (m s) ->
  (forall a s1, world names cur (heap s1) ->
                mono (heap s) cur (heap s1) cur ->
                G1 (heap s1) a ->
                quiet names cur s1 G2 (f a s1)) ->
  quiet names cur s G2 ((m ≫= f) s).
Proof.
  intros Hm Hf. rewrite run_bind. unfold quiet, run_post in *.
  destruct (m s) as [[a|e] s1]; [|done].
  destruct Hm as (HW & Hmono & HG).
  specialize (Hf a s1 HW Hmono HG).
  destruct (f a s1) as [[b|e] s2].
  - destruct Hf as (? & ? & ?). split; [done|]. split; [|done].
    by eapply mono_trans.
  - destruct Hf as (? & ?). split; [done|]. by eapply mono_trans.
Qed.

Lemma quiet_weaken {A} names cur s (G G' : list obj -> A -> Prop) out :
  quiet names cur s G out ->
  (forall h a, G h a -> G' h a) ->
  quiet names cur s G' out.
Proof.
  intros H HG. destruct out as [[a|e] s']; [|done].
  destruct H as (? & ? & ?). split; [done|]. split; [done|]. auto.
Qed.

Lemma quiet_ret {A} names cur s (a : A) :
  world names cur (heap s) ->
  quiet names cur s (fun _ a' => a' = a) ((mret a : M A) s).
Proof. intros HW. apply quiet_same; [done | done | by intros ? [= <-]]. Qed.

Lemma quiet_raise {A} names cur s e (G : list obj -> A -> Prop) :
  world names cur (heap s) ->
  quiet names cur s G (raise e s).
Proof. intros HW. by apply quiet_same. Qed.

Lemma quiet_lift {A} names cur s (r : result A) :
  world names cur (heap s) ->
  quiet names cur s (fun _ a => r = Ok a) (lift r s).
Proof. intros HW. apply quiet_same; [done | done | by intros ? ->]. Qed.

Lemma quiet_send names cur s srv ev :
  world names cur (heap s) ->
  quiet names cur s (fun _ _ => True) (send srv ev s).
Proof. intros HW. by apply quiet_same. Qed.

Lemma quiet_cmd names cur s srv sql :
  world names cur (heap s) ->
  quiet names cur s (fun _ _ => True) (_cmd srv sql s).
Proof. intros HW. rewrite run_cmd. by apply quiet_same. Qed.

Lemma quiet_cmd_wo_fetch names cur s srv sql :
  world names cur (heap s) ->
  quiet names cur s (fun _ _ => True) (_cmd_wo_fetch srv sql s).
Proof. intros HW. rewrite run_cmd_wo_fetch. by apply quiet_same. Qed.

Lemma run_deref v e s :
  deref v e s
  = (match v with
     | Sc _ => Raise e
     | Ref k => match heap s !! k with
                | Some o => Ok (k, o)
                | None => Raise SystemError
                end
     end, s).
Proof. unfold deref. destruct v as [x|k]; [done|]. by destruct (heap s !! k). Qed.

(** Reading through a reference yields plain values. *)
Lemma quiet_deref names cur s v e :
  world names cur (heap s) -> fresh v ->
  quiet names cur s
    (fun h '(k, o) => v = Ref k /\ heap s !! k = Some o
                      /\ obj_Forall (pv (heap s) cur) o)
    (deref v e s).
Proof.
  intros HW Hv. rewrite run_deref. apply quiet_same; [done | done |].
  intros [k o] Hr. destruct v as [x|j]; [done|].
  destruct (heap s !! j) as [o'|] eqn:Ho; [|done].
  injection Hr as <- <-. split; [done|]. split; [done|].
  by eapply world_read.
Qed.

Lemma quiet_py_len names cur s v :
  world names cur (heap s) ->
  quiet names cur s (fun _ _ => True) (py_len v s).
Proof.
  intros HW. unfold py_len. rewrite run_bind, run_deref.
  destruct v as [x|k]; [by apply quiet_same|].
  destruct (heap s !! k) as [[items|d]|]; by apply quiet_same.
Qed.

Lemma quiet_list_items names cur s v :
  world names cur (heap s) -> fresh v ->
  quiet names cur s (fun h items => Forall (pv h cur) items) (list_items v s).
Proof.
  intros HW Hv. unfold list_items. rewrite run_bind, run_deref.
  destruct v as [x|k]; [by apply quiet_same|].
  destruct (heap s !! k) as [[items|d]|] eqn:Ho; try by apply quiet_same.
  apply quiet_same; [done | done |]. intros a [= <-].
  by apply (world_read names cur (heap s) k (OList items)).
Qed.

Lemma quiet_getitem_index names cur s v i :
  world names cur (heap s) -> fresh v ->
  quiet names cur s (fun h x => pv h cur x) (getitem_index v i s).
Proof.
  intros HW Hv. unfold getitem_index. rewrite run_bind, run_deref.
  destruct v as [x|k]; [by apply quiet_same|].
  destruct (heap s !! k) as [[items|d]|] eqn:Ho; try by apply quiet_same.
  rewrite run_lift. apply quiet_same; [done | done |]. intros a Ha.
  unfold index in Ha. destruct (items !! i) as [x|] eqn:Hi; [|done].
  injection Ha as <-.
  pose proof (world_read names cur (heap s) k (OList items) HW Hv Ho) as Hall.
  simpl in Hall. rewrite Forall_lookup in Hall. by eapply Hall.
Qed.

Lemma quiet_getitem names cur s v k :
  world names cur (heap s) -> fresh v ->
  quiet names cur s (fun h x => pv h cur x) (getitem v k s).
Proof.
  intros HW Hv. unfold getitem. rewrite run_bind, run_deref.
  destruct v as [x|j]; [by apply quiet_same|].
  destruct (heap s !! j) as [[items|d]|] eqn:Ho; try by apply quiet_same.
  destruct (d !! k) as [x|] eqn:Hk; [|by apply quiet_same].
  apply quiet_same; [done | done |]. intros a [= <-].
  pose proof (world_read names cur (heap s) j (ODict d) HW Hv Ho) as Hall.
  by eapply Hall.
Qed.

Lemma quiet_contains names cur s v k :
  world names cur (heap s) ->
  quiet names cur s (fun _ _ => True) (contains k v s).
Proof.
  intros HW. unfold contains. rewrite run_bind, run_deref.
  destruct v as [x|j]; [by apply quiet_same|].
  destruct (heap s !! j) as [[items|d]|]; by apply quiet_same.
Qed.

Lemma quiet_dict_entries names cur s v e :
  world names cur (heap s) -> fresh v ->
  quiet names cur s (fun h d => map_Forall (fun _ => pv h cur) d)
    (dict_entries v e s).
Proof.
  intros HW Hv. unfold dict_entries. rewrite run_bind, run_deref.
  destruct v as [x|j]; [by apply quiet_same|].
  destruct (heap s !! j) as [[items|d]|] eqn:Ho; try by apply quiet_same.
  apply quiet_same; [done | done |]. intros a [= <-].
  by apply (world_read names cur (heap s) j (ODict d)).
Qed.

Lemma quiet_alloc names cur s o :
  world names cur (heap s) -> obj_Forall (pv (heap s) cur) o ->
  quiet names cur s (fun h v => pv h cur v) (alloc o s).
Proof.
  intros HW Ho. unfold alloc, quiet, run_post. cbn [heap].
  destruct (world_alloc h0 l old slot Hl names cur (heap s) o HW Ho)
    as (HW' & Hm & Hp).
  done.
Qed.

(** A write to a plain object: [f] is the object written in place of
    the object found. *)
Lemma quiet_write names cur s k o o' :
  world names cur (heap s) -> plain (heap s) cur k ->
  heap s !! k = Some o ->
  (obj_Forall (pv (heap s) cur) o -> obj_Forall (pv (heap s) cur) o') ->
  quiet names cur s (fun _ _ => True) (update k o' s).
Proof.
  intros HW Hk Ho Ho'. unfold update, quiet, run_post. cbn [heap].
  destruct (world_update_plain h0 l old slot Hl names cur (heap s) k o' HW Hk)
    as (HW' & Hm); [|done].
  apply Ho'. eapply world_read; [done | | done].
  by destruct Hk as ((? & _) & _).
Qed.

Lemma quiet_setitem names cur s v k x :
  world names cur (heap s) -> pv (heap s) cur v -> pv (heap s) cur x ->
  quiet names cur s (fun _ _ => True) (setitem v k x s).
Proof.
  intros HW Hv Hx. unfold setitem. rewrite run_bind, run_deref.
  destruct v as [y|j]; [by apply quiet_same|].
  destruct (heap s !! j) as [[items|d]|] eqn:Ho; try by apply quiet_same.
  eapply quiet_write; [done | done | done |].
  intros Hd. by apply map_Forall_insert_2.
Qed.

Lemma quiet_delitem names cur s v k :
  world names cur (heap s) -> pv (heap s) cur v ->
  quiet names cur s (fun _ _ => True) (delitem v k s).
Proof.
  intros HW Hv. unfold delitem. rewrite run_bind, run_deref.
  destruct v as [y|j]; [by apply quiet_same|].
  destruct (heap s !! j) as [[items|d]|] eqn:Ho; try by apply quiet_same.
  destruct (d !! k); [|by apply quiet_same].
  eapply quiet_write; [done | done | done |].
  intros Hd. by apply map_Forall_delete.
Qed.

Lemma quiet_list_append names cur s v x :
  world names cur (heap s) -> pv (heap s) cur v -> pv (heap s) cur x ->
  quiet names cur s (fun _ _ => True) (list_append v x s).
Proof.
  intros HW Hv Hx. unfold list_append. rewrite run_bind, run_deref.
  destruct v as [y|j]; [by apply quiet_same|].
  destruct (heap s !! j) as [[items|d]|] eqn:Ho; try by apply quiet_same.
  eapply quiet_write; [done | done | done |].
  intros Hd. apply Forall_app. split; [done|]. by constructor.
Qed.

Lemma quiet_dict_update names cur s v w :
  world names cur (heap s) -> pv (heap s) cur v -> fresh w ->
  quiet names cur s (fun _ _ => True) (dict_update v w s).
Proof.
  intros HW Hv Hw. unfold dict_update. rewrite run_bind, run_deref.
  destruct v as [y|j]; [by apply quiet_same|].
  destruct (heap s !! j) as [[items|d]|] eqn:Ho; try by apply quiet_same.
  rewrite run_bind.
  pose proof (quiet_dict_entries names cur s w TypeError HW Hw) as He.
  destruct (dict_entries w TypeError s) as [[e|ex] s1] eqn:Hrun;
    [|done].
  assert (s1 = s) as ->.
  { unfold dict_entries in Hrun. rewrite run_bind, run_deref in Hrun.
    destruct w as [?|jw]; [done|].
    destruct (heap s !! jw) as [[?|?]|]; by injection Hrun. }
  destruct He as (_ & _ & He).
  eapply quiet_write; [done | done | done |].
  intros Hd. by apply map_Forall_union_2.
Qed.

(** Writing the record under construction under another key than its
    name. *)
Lemma quiet_setitem_open names m name s k x :
  world names (Some (m, name)) (heap s) ->
  k <> KStr slot ->
  pv (heap s) (Some (m, name)) x ->
  quiet names (Some (m, name)) s (fun _ _ => True) (setitem (Ref m) k x s).
Proof.
  intros HW Hk Hx. unfold setitem. rewrite run_bind, run_deref.
  destruct (heap s !! m) as [[items|d]|] eqn:Ho; try by apply quiet_same.
  unfold update, quiet, run_post. cbn [heap].
  by destruct (world_set_open h0 l old slot Hl names m name (heap s) d k x).
Qed.

(** Creating the record under construction. *)
Lemma run_alloc_open names s :
  world names None (heap s) ->
  run_post
    (fun v s' => exists m, v = Ref m
                 /\ world names (Some (m, None)) (heap s')
                 /\ mono (heap s) None (heap s') (Some (m, None)))
    (fun _ => False)
    (alloc (ODict ∅) s).
Proof.
  intros HW. unfold alloc, run_post. cbn [heap].
  exists (length (heap s)). split; [done|].
  by apply world_alloc_open.
Qed.

(** Naming the record under construction. *)
Lemma run_setitem_name names m name s x :
  world names (Some (m, name)) (heap s) ->
  run_post
    (fun _ s' => world names (Some (m, Some x)) (heap s')
                 /\ mono (heap s) (Some (m, name)) (heap s') (Some (m, Some x)))
    (fun _ => False)
    (setitem (Ref m) (KStr slot) (Sc (PStr x)) s).
Proof.
  intros HW. unfold setitem. rewrite run_bind, run_deref.
  pose proof HW as [_ _ _ _ (_ & _ & d & Hd & _)].
  rewrite Hd. unfold update, run_post. cbn [heap].
  by apply world_name_open.
Qed.

(** Appending the record to the caller's list. *)
Lemma run_append_record names m x s :
  world names (Some (m, Some x)) (heap s) ->
  run_post
    (fun _ s' => world (names ++ [x]) None (heap s')
                 /\ mono (heap s) (Some (m, Some x)) (heap s') None)
    (fun _ => False)
    (list_append (Ref l) (Ref m) s).
Proof.
  intros HW. unfold list_append. rewrite run_bind, run_deref.
  pose proof HW as [_ _ (recs & Hrecs & _) _ _].
  rewrite Hrecs. unfold update, run_post. cbn [heap].
  by apply world_append.
Qed.

End Primitives.

(** ** The procedures keep the store invariant *)

Section Procedures.

Variable h0 : list obj.
Variable l : loc.
Variable old : list val.
Variable slot : string.
Hypothesis Hl : h0 !! l = Some (OList old).
Variable srv : server.
Variable int_of_str : string -> result Z.

Local Abbreviation plain := (plain h0 l old).
Local Abbreviation pv := (pv h0 l old).
Local Abbreviation world := (world h0 l old slot).
Local Abbreviation mono := (mono h0 l old).
Local Abbreviation fresh := (fresh h0).
Local Abbreviation quiet := (quiet h0 l old slot).

Lemma mono_pv h c h' c' v : mono h c h' c' -> pv h c v -> pv h' c' v.
Proof. intros Hm. apply Hm. Qed.

(** Carry what is known of the values in hand over a step. *)
Ltac upgrade Hm :=
  repeat match goal with
  | H : pv ?h ?c ?v |- _ =>
      lazymatch type of Hm with
      | mono h c _ _ => apply (mono_pv _ _ _ _ _ Hm) in H
      end
  | H : Forall (pv ?h ?c) ?vs |- _ =>
      lazymatch type of Hm with
      | mono h c _ _ => apply (pv_impl h0 l old _ _ _ _ _ Hm) in H
      end
  | H : map_Forall (fun _ => pv ?h ?c) ?d |- _ =>
      lazymatch type of Hm with
      | mono h c _ _ => apply (pv_impl_map h0 l old _ _ _ _ _ Hm) in H
      end
  end.

(** One step of a quiet run: [lem] is the specification of the first
    computation. *)
Ltac qnext :=
  let a := fresh "a" in
  let s1 := fresh "s" in
  let HW := fresh "HW" in
  let Hm := fresh "Hm" in
  let HG := fresh "HG" in
  intros a s1 HW Hm HG; cbv beta in HG; upgrade Hm;
  repeat match goal with
  | H : world _ _ (heap ?s) |- _ =>
      lazymatch type of Hm with
      | mono (heap s) _ _ _ => clear H
      end
  end;
  clear Hm.

Tactic Notation "qstep" uconstr(lem) :=
  eapply (quiet_bind h0 l old slot);
  [ eapply lem; eauto using pv_fresh | qnext ].

Lemma quiet_for_each {A} names cur (C : list obj -> Prop)
    (I : list obj -> A -> Prop) (body : A -> M unit) :
  (forall h h', mono h cur h' cur -> C h -> C h') ->
  (forall h h' x, mono h cur h' cur -> I h x -> I h' x) ->
  (forall x s, world names cur (heap s) -> C (heap s) -> I (heap s) x ->
               quiet names cur s (fun _ _ => True) (body x s)) ->
  forall xs s,
    world names cur (heap s) -> C (heap s) -> Forall (I (heap s)) xs ->
    quiet names cur s (fun _ _ => True) (for_each xs body s).
Proof.
  intros HC HI Hbody xs. induction xs as [|x xs IH]; intros s HW Hc Hxs.
  - cbn [for_each]. by apply quiet_same.
  - cbn [for_each]. inversion Hxs as [|? ? Hx Hrest]; subst.
    eapply (quiet_bind h0 l old slot); [by apply Hbody|].
    intros [] s1 HW1 Hm _. apply IH; [done | by eapply HC |].
    eapply Forall_impl; [exact Hrest|]. intros y. by apply HI.
Qed.

Lemma quiet_fill_row names cur row col data :
  forall idx s,
    world names cur (heap s) -> pv (heap s) cur row ->
    quiet names cur s (fun _ _ => True) (fill_row row col idx data s).
Proof.
  induction data as [|val data IH]; intros idx s HW Hrow.
  - cbn [fill_row]. by apply quiet_same.
  - cbn [fill_row].
    eapply (quiet_bind h0 l old slot) with (G1 := fun _ _ => True).
    + destruct val; try by apply quiet_same.
      all: qstep (quiet_lift h0 l old slot).
      all: by apply (quiet_setitem h0 l old slot Hl).
    + qnext. by apply IH.
Qed.

Lemma quiet_get_metrics names cur query s :
  world names cur (heap s) ->
  quiet names cur s (fun h v => pv h cur v) (_get_metrics srv query s).
Proof.
  intros HW. unfold _get_metrics.
  qstep (quiet_alloc h0 l old slot Hl). { by constructor. }
  qstep (quiet_cmd h0 l old slot). destruct a0 as [ret col].
  eapply (quiet_bind h0 l old slot) with (G1 := fun _ _ => True).
  - destruct (0 <? length ret)%nat; [|by apply quiet_same].
    apply (quiet_for_each names cur (fun h => pv h cur a) (fun _ _ => True));
      try done.
    + intros h h' Hm. by apply mono_pv.
    + clear dependent s0. intros data s0 HW0 Ha _.
      qstep (quiet_alloc h0 l old slot Hl). { apply map_Forall_empty. }
      qstep quiet_fill_row.
      by apply (quiet_list_append h0 l old slot Hl).
    + by apply Forall_true.
  - qnext. apply quiet_same; [done | done | by intros ? [= <-]].
Qed.

Lemma quiet_try_any {A} names cur s (G : list obj -> A -> Prop)
    (m h : M A) :
  quiet names cur s G (m s) ->
  (forall s1, world names cur (heap s1) ->
              mono (heap s) cur (heap s1) cur ->
              quiet names cur s1 G (h s1)) ->
  quiet names cur s G (try_any m h s).
Proof.
  intros Hm Hh. unfold try_any. destruct (m s) as [[a|e] s1]; [done|].
  destruct Hm as (HW & Hmono). specialize (Hh s1 HW Hmono).
  destruct (h s1) as [[b|e'] s2].
  - destruct Hh as (? & ? & ?). split; [done|]. split; [|done].
    by eapply mono_trans.
  - destruct Hh as (? & ?). split; [done|]. by eapply mono_trans.
Qed.

Lemma quiet_try_collector {A} names cur s (G : list obj -> A -> Prop)
    (m h : M A) :
  quiet names cur s G (m s) ->
  (forall s1, world names cur (heap s1) ->
              mono (heap s) cur (heap s1) cur ->
              quiet names cur s1 G (h s1)) ->
  quiet names cur s G (try_collector m h s).
Proof.
  intros Hm Hh. unfold try_collector. destruct (m s) as [[a|e] s1]; [done|].
  destruct Hm as (HW & Hmono). specialize (Hh s1 HW Hmono).
  destruct e; try done.
  destruct (h s1) as [[b|e'] s2].
  - destruct Hh as (? & ? & ?). split; [done|]. split; [|done].
    by eapply mono_trans.
  - destruct Hh as (? & ?). split; [done|]. by eapply mono_trans.
Qed.

Lemma quiet_unit names cur s (m : M unit) (G : list obj -> unit -> Prop) :
  quiet names cur s G (m s) ->
  quiet names cur s (fun _ _ => True) (m s).
Proof. intros H. by eapply quiet_weaken. Qed.

Lemma quiet_send_unit names cur s ev :
  world names cur (heap s) ->
  quiet names cur s (fun _ _ => True)
    ((r ← send srv ev;
      match r with Failed => raise DriverError | _ => mret tt end) s).
Proof.
  intros HW. rewrite run_bind. unfold send.
  destruct (srv (trace s) ev); by apply quiet_same.
Qed.

Lemma quiet_load_stat_statements names cur s :
  world names cur (heap s) ->
  quiet names cur s (fun _ _ => True) (_load_stat_statements srv s).
Proof.
  intros HW. unfold _load_stat_statements.
  qstep (quiet_cmd h0 l old slot). destruct a as [res meta].
  qstep (quiet_lift h0 l old slot).
  qstep (quiet_lift h0 l old slot).
  destruct (negb _); [|by apply quiet_same].
  apply quiet_try_any.
  - qstep quiet_send_unit. qstep quiet_send_unit. by apply quiet_same.
  - intros sr HWr _. qstep quiet_send_unit. by apply quiet_same.
Qed.

Lemma quiet_get_stat_statements names cur s :
  world names cur (heap s) ->
  quiet names cur s (fun h v => pv h cur v) (_get_stat_statements srv s).
Proof.
  intros HW. unfold _get_stat_statements.
  qstep (quiet_alloc h0 l old slot Hl). { by constructor. }
  qstep quiet_load_stat_statements.
  destruct a0; [|apply quiet_same; [done | done | by intros ? [= <-]]].
  apply quiet_try_collector.
  - qstep quiet_get_metrics.
    eapply (quiet_bind h0 l old slot) with (G1 := fun _ _ => True).
    + apply quiet_try_collector.
      * by apply quiet_cmd_wo_fetch.
      * intros sr HWr _. by apply quiet_same.
    + qnext. apply quiet_same; [done | done | by intros ? [= <-]].
  - intros sr HWr Hmr. upgrade Hmr.
    apply quiet_same; [done | done | by intros ? [= <-]].
Qed.

Lemma quiet_drop_stats_reset names cur s (lookup_row : M val) :
  (forall s1, world names cur (heap s1) ->
              mono (heap s) cur (heap s1) cur ->
              quiet names cur s1 (fun h v => pv h cur v) (lookup_row s1)) ->
  world names cur (heap s) ->
  quiet names cur s (fun _ _ => True) (drop_stats_reset lookup_row s).
Proof.
  intros Hlook HW. unfold drop_stats_reset.
  eapply (quiet_bind h0 l old slot);
    [apply Hlook; [done | apply mono_refl]|].
  intros row s1 HW1 Hm1 Hrow.
  eapply (quiet_bind h0 l old slot); [by apply quiet_contains|].
  intros b s2 HW2 Hm2 _.
  destruct b; [|by apply quiet_same].
  eapply (quiet_bind h0 l old slot).
  - apply Hlook; [done|]. eapply mono_trans; [exact Hm1 | exact Hm2].
  - intros row' s3 HW3 Hm3 Hrow'.
    by apply (quiet_delitem h0 l old slot Hl).
Qed.

Lemma quiet_assert_one_row names cur s rows :
  world names cur (heap s) ->
  quiet names cur s (fun _ _ => True) (assert_one_row rows s).
Proof.
  intros HW. unfold assert_one_row.
  qstep (quiet_py_len h0 l old slot).
  destruct (_ =? _)%nat; by apply quiet_same.
Qed.

Lemma quiet_sessions_loop names cur s metric key :
  world names cur (heap s) -> fresh metric ->
  quiet names cur s (fun _ _ => True)
    (sessions_loop srv int_of_str metric key s).
Proof.
  intros HW Hmetric. unfold sessions_loop.
  apply (quiet_for_each names cur (fun _ => True) (fun _ _ => True));
    try done; [|by apply Forall_true].
  clear dependent s. intros q s HW _ _.
  qstep (quiet_cmd h0 l old slot). destruct a as [res meta].
  qstep (quiet_lift h0 l old slot).
  qstep (quiet_lift h0 l old slot).
  qstep (quiet_lift h0 l old slot).
  qstep (quiet_getitem h0 l old slot).
  qstep (quiet_lift h0 l old slot).
  by apply (quiet_setitem h0 l old slot Hl).
Qed.

Lemma quiet_active_sessions_loop names cur s rows metric key :
  world names cur (heap s) -> fresh rows -> fresh metric ->
  quiet names cur s (fun _ _ => True)
    (active_sessions_loop rows metric key s).
Proof.
  intros HW Hrows Hmetric. unfold active_sessions_loop.
  qstep (quiet_list_items h0 l old slot).
  apply (quiet_for_each names cur (fun _ => True) (fun h v => pv h cur v));
    try done.
  { intros h h' x Hm. by apply mono_pv. }
  clear dependent s0. clear dependent s. intros row s HW _ Hrow.
  qstep (quiet_getitem h0 l old slot).
  qstep (quiet_lift h0 l old slot).
  qstep (quiet_setitem h0 l old slot Hl).
  { unfold py_replace_space in HG0.
    destruct a0 as [[]|]; try discriminate HG0. by injection HG0 as <-. }
  qstep (quiet_getitem h0 l old slot).
  qstep (quiet_getitem h0 l old slot).
  qstep (quiet_getitem h0 l old slot).
  destruct a5 as [k|]; [|by apply quiet_same].
  by apply (quiet_setitem h0 l old slot Hl).
Qed.

Lemma quiet_waiting_sessions_loop names cur s rows metric key :
  world names cur (heap s) -> fresh rows -> fresh metric ->
  quiet names cur s (fun _ _ => True)
    (waiting_sessions_loop rows metric key s).
Proof.
  intros HW Hrows Hmetric. unfold waiting_sessions_loop.
  qstep (quiet_list_items h0 l old slot).
  apply (quiet_for_each names cur (fun _ => True) (fun h v => pv h cur v));
    try done.
  { intros h h' x Hm. by apply mono_pv. }
  clear dependent s0. clear dependent s. intros row s HW _ Hrow.
  qstep (quiet_getitem h0 l old slot).
  qstep (quiet_getitem h0 l old slot).
  qstep (quiet_getitem h0 l old slot).
  destruct a2 as [k|]; [|by apply quiet_same].
  by apply (quiet_setitem h0 l old slot Hl).
Qed.

Lemma quiet_dict_filter names cur s keep row :
  world names cur (heap s) -> fresh row ->
  quiet names cur s (fun h v => pv h cur v) (dict_filter keep row s).
Proof.
  intros HW Hrow. unfold dict_filter.
  qstep (quiet_dict_entries h0 l old slot).
  apply (quiet_alloc h0 l old slot Hl); [done|].
  intros k v [Hkv _]%map_lookup_filter_Some. by eapply HG.
Qed.

End Procedures.

(** ** The cycles keep the store invariant *)

Section Cycles.

Variable h0 : list obj.
Variable l : loc.
Variable old : list val.
Variable slot : string.
Hypothesis Hl : h0 !! l = Some (OList old).
Variable srv : server.
Variable int_of_str : string -> result Z.

Local Abbreviation plain := (plain h0 l old).
Local Abbreviation pv := (pv h0 l old).
Local Abbreviation world := (world h0 l old slot).
Local Abbreviation mono := (mono h0 l old).
Local Abbreviation fresh := (fresh h0).
Local Abbreviation quiet := (quiet h0 l old slot).

(** Where an exception may leave the store. *)
Local Abbreviation broken :=
  (fun s' : state => exists names cur, world names cur (heap s')).

Lemma main_quiet {A B} names cur s (G : list obj -> A -> Prop)
    (m : M A) (f : A -> M B) (Q : B -> state -> Prop) :
  quiet names cur s G (m s) ->
  (forall a s1, world names cur (heap s1) ->
                mono (heap s) cur (heap s1) cur ->
                G (heap s1) a ->
                run_post Q broken (f a s1)) ->
  run_post Q broken ((m ≫= f) s).
Proof.
  intros Hm Hf. rewrite run_bind. unfold quiet, run_post in Hm.
  destruct (m s) as [[a|e] s1].
  - destruct Hm as (HW & Hmono & HG). by apply Hf.
  - destruct Hm as (HW & _). simpl. eauto.
Qed.

Lemma main_quiet_last {B} names cur s (G : list obj -> B -> Prop)
    (Q : B -> state -> Prop) (out : result B * state) :
  quiet names cur s G out ->
  (forall a s1, world names cur (heap s1) ->
                mono (heap s) cur (heap s1) cur ->
                G (heap s1) a -> Q a s1) ->
  run_post Q broken out.
Proof.
  intros Hm Hf. destruct out as [[a|e] s1].
  - destruct Hm as (HW & Hmono & HG). by apply Hf.
  - destruct Hm as (HW & _). simpl. eauto.
Qed.

Lemma main_run {A B} s (Q1 : A -> state -> Prop)
    (m : M A) (f : A -> M B) (Q : B -> state -> Prop) :
  run_post Q1 (fun _ => False) (m s) ->
  (forall a s1, Q1 a s1 -> run_post Q broken (f a s1)) ->
  run_post Q broken ((m ≫= f) s).
Proof.
  intros Hm Hf. rewrite run_bind. unfold run_post in Hm.
  destruct (m s) as [[a|e] s1]; [by apply Hf | done].
Qed.

Lemma run_post_assoc {A B C} (m : M A) (f : A -> M B) (g : B -> M C) s
    (Q : C -> state -> Prop) (E : state -> Prop) :
  run_post Q E ((m ≫= fun a => f a ≫= g) s) ->
  run_post Q E (((m ≫= f) ≫= g) s).
Proof.
  rewrite !run_bind. destruct (m s) as [[a|e] s1]; [|done].
  by rewrite run_bind.
Qed.

Lemma mono_pv' h c h' c' v : mono h c h' c' -> pv h c v -> pv h' c' v.
Proof. intros Hm. apply Hm. Qed.

Ltac upgrade Hm :=
  repeat match goal with
  | H : pv ?h ?c ?v |- _ =>
      lazymatch type of Hm with
      | mono h c _ _ => apply (mono_pv' _ _ _ _ _ Hm) in H
      end
  | H : Forall (pv ?h ?c) ?vs |- _ =>
      lazymatch type of Hm with
      | mono h c _ _ => apply (pv_impl h0 l old _ _ _ _ _ Hm) in H
      end
  | H : map_Forall (fun _ => pv ?h ?c) ?d |- _ =>
      lazymatch type of Hm with
      | mono h c _ _ => apply (pv_impl_map h0 l old _ _ _ _ _ Hm) in H
      end
  | H : mono ?ha ?ca ?h ?c |- _ =>
      lazymatch type of Hm with
      | mono h c _ _ =>
          apply (fun H1 => mono_trans h0 l old _ _ _ _ _ _ H1 Hm) in H
      end
  end.

Ltac forget_old Hm :=
  repeat match goal with
  | H : world _ _ (heap ?s) |- _ =>
      lazymatch type of Hm with
      | mono (heap s) _ _ _ => clear H
      end
  end;
  clear Hm.

Ltac qnext :=
  let a := fresh "a" in
  let s1 := fresh "s" in
  let HW := fresh "HW" in
  let Hm := fresh "Hm" in
  let HG := fresh "HG" in
  intros a s1 HW Hm HG; cbv beta in HG; upgrade Hm; forget_old Hm.

Ltac side :=
  try eassumption;
  try (eapply (pv_fresh h0 l old); eassumption);
  try (eapply (open_fresh h0 l old slot); eassumption).

Ltac massoc :=
  repeat match goal with
  | |- run_post _ _ (mbind _ (mbind _ _) _) => apply run_post_assoc
  end.

(** A quiet step of a cycle. *)
Tactic Notation "mstep" uconstr(lem) :=
  massoc; eapply main_quiet;
  [ eapply lem; side | qnext ].

Ltac lnext :=
  let s1 := fresh "s" in
  let HW := fresh "HW" in
  let Hm := fresh "Hm" in
  intros s1 HW Hm; upgrade Hm; forget_old Hm.

Ltac gnext :=
  let s1 := fresh "s" in
  let HW := fresh "HW" in
  let Hm := fresh "Hm" in
  intros ? s1 (HW & Hm); upgrade Hm; forget_old Hm.

(** The three steps that move the record under construction. *)
Ltac mopen :=
  massoc; eapply main_run;
  [ eapply (run_alloc_open h0 l old slot Hl); eassumption
  | let s1 := fresh "s" in
    let m := fresh "m" in
    let HW := fresh "HW" in
    let Hm := fresh "Hm" in
    intros ? s1 (m & -> & HW & Hm); upgrade Hm; forget_old Hm ].

Ltac mname :=
  massoc; eapply main_run;
  [ eapply (run_setitem_name h0 l old slot Hl); eassumption | gnext ].

Ltac mappend :=
  massoc; eapply main_run;
  [ eapply (run_append_record h0 l old slot Hl); eassumption | gnext ].

Local Abbreviation p_lift := (quiet_lift h0 l old slot).
Local Abbreviation p_get_metrics := (quiet_get_metrics h0 l old slot Hl srv).
Local Abbreviation p_getitem := (quiet_getitem h0 l old slot).
Local Abbreviation p_getitem_index := (quiet_getitem_index h0 l old slot).
Local Abbreviation p_setitem := (quiet_setitem h0 l old slot Hl).
Local Abbreviation p_setitem_open := (quiet_setitem_open h0 l old slot Hl).
Local Abbreviation p_alloc := (quiet_alloc h0 l old slot Hl).
Local Abbreviation p_list_items := (quiet_list_items h0 l old slot).
Local Abbreviation p_dict_update := (quiet_dict_update h0 l old slot Hl).
Local Abbreviation p_dict_entries := (quiet_dict_entries h0 l old slot).
Local Abbreviation p_delitem := (quiet_delitem h0 l old slot Hl).

Lemma p_drop_first names cur s rows :
  world names cur (heap s) -> pv (heap s) cur rows ->
  quiet names cur s (fun _ _ => True)
    (drop_stats_reset (getitem_index rows 0) s).
Proof.
  intros HW Hrows. apply (quiet_drop_stats_reset h0 l old slot Hl); [|done].
  intros s1 HW1 Hm. apply p_getitem_index; [done|].
  eapply pv_fresh, Hm, Hrows.
Qed.

Lemma p_drop_row names cur s row :
  world names cur (heap s) -> pv (heap s) cur row ->
  quiet names cur s (fun _ _ => True) (drop_stats_reset (mret row) s).
Proof.
  intros HW Hrow. apply (quiet_drop_stats_reset h0 l old slot Hl); [|done].
  intros s1 HW1 Hm. apply quiet_same; [done | done |].
  intros a [= <-]. by apply Hm.
Qed.

Lemma p_drop_rows names cur s items :
  world names cur (heap s) -> Forall (pv (heap s) cur) items ->
  quiet names cur s (fun _ _ => True)
    (for_each items (fun row => drop_stats_reset (mret row)) s).
Proof.
  intros HW Hitems.
  apply (quiet_for_each h0 l old slot names cur (fun _ => True)
           (fun h v => pv h cur v)); try done.
  - intros h h' x Hm. apply Hm.
  - intros row s1 HW1 _ Hrow. by apply p_drop_row.
Qed.

Lemma main_run_last {B} (Q1 Q : B -> state -> Prop) (out : result B * state) :
  run_post Q1 (fun _ => False) out ->
  (forall a s1, Q1 a s1 -> Q a s1) ->
  run_post Q broken out.
Proof. intros H HQ. destruct out as [[a|e] s1]; [by apply HQ | done]. Qed.

(** A loop that appends one record named [x] per item. *)
Lemma main_for_each_records {B} (x : string) (body : val -> M unit)
    (f : unit -> M B) (Q : B -> state -> Prop) :
  (forall v s1 names1,
      world names1 None (heap s1) -> pv (heap s1) None v ->
      run_post (fun _ s2 => world (names1 ++ [x]) None (heap s2)
                            /\ mono (heap s1) None (heap s2) None)
               broken (body v s1)) ->
  forall xs names s,
    world names None (heap s) -> Forall (pv (heap s) None) xs ->
    (forall s2, world (names ++ replicate (length xs) x) None (heap s2) ->
                mono (heap s) None (heap s2) None ->
                run_post Q broken (f tt s2)) ->
    run_post Q broken ((for_each xs body ≫= f) s).
Proof.
  intros Hbody xs. induction xs as [|v xs IH]; intros names s HW Hxs Hf.
  - cbn [for_each]. rewrite run_bind. cbn [ret].
    apply Hf; [by rewrite app_nil_r | apply mono_refl].
  - cbn [for_each]. apply run_post_assoc. rewrite run_bind.
    inversion Hxs as [|? ? Hv Hrest]; subst.
    specialize (Hbody v s names HW Hv) as Hb.
    destruct (body v s) as [[[]|e] s1]; [|done].
    destruct Hb as (HW1 & Hm1).
    apply (IH (names ++ [x]) s1); [done | by eapply pv_impl |].
    intros s2 HW2 Hm2. apply Hf.
    + cbn [length replicate]. by rewrite cons_middle, app_assoc.
    + by eapply mono_trans.
Qed.

Lemma pg_cycle_world s :
  slot = "table" ->
  world [] None (heap s) ->
  run_post
    (fun v s' => v = Ref l
                 /\ exists names, world names None (heap s') /\ pg_order names)
    broken
    (collect_metrics_pg srv int_of_str (Ref l) s).
Proof.
  intros Hslot HW. unfold collect_metrics_pg. cbv zeta.
  (* bgwriter *)
  mstep p_get_metrics.
  mstep (quiet_assert_one_row h0 l old slot).
  mopen.
  mstep p_drop_first.
  rewrite <- Hslot. mname.
  mstep p_getitem_index.
  mstep p_setitem_open. { rewrite Hslot. discriminate. }
  mappend.
  (* database *)
  unfold PG_STAT_VIEWS_LOCAL_RAW_database. cbn [for_each].
  mstep p_get_metrics.
  mopen.
  mstep p_lift.
  match goal with H : view_name _ = Ok _ |- _ =>
    vm_compute in H; injection H as <- end.
  mname.
  mstep p_list_items.
  mstep p_drop_rows.
  mstep p_setitem_open. { rewrite Hslot. discriminate. }
  mappend.
  mstep p_get_metrics.
  mopen.
  mstep p_lift.
  match goal with H : view_name _ = Ok _ |- _ =>
    vm_compute in H; injection H as <- end.
  mname.
  mstep p_list_items.
  mstep p_drop_rows.
  mstep p_setitem_open. { rewrite Hslot. discriminate. }
  mappend.
  mstep (quiet_ret h0 l old slot).
  (* access *)
  mstep p_get_metrics.
  mopen.
  mname.
  mstep p_drop_first.
  mstep p_getitem_index.
  mstep p_setitem_open. { rewrite Hslot. discriminate. }
  mstep p_get_metrics.
  mstep p_getitem.
  mstep p_getitem_index.
  mstep p_dict_update.
  mappend.
  (* io *)
  mstep p_get_metrics.
  mopen.
  mname.
  mstep p_drop_first.
  mstep p_getitem_index.
  mstep p_setitem_open. { rewrite Hslot. discriminate. }
  mstep p_get_metrics.
  mstep p_getitem.
  mstep p_getitem_index.
  mstep p_dict_update.
  mappend.
  (* activity *)
  mopen.
  mname.
  mstep p_alloc. { apply map_Forall_empty. }
  mstep p_setitem_open. { rewrite Hslot. discriminate. }
  mstep (quiet_sessions_loop h0 l old slot Hl srv int_of_str).
  mappend.
  mstep p_get_metrics.
  mopen.
  mname.
  mstep p_alloc. { apply map_Forall_empty. }
  mstep p_setitem_open. { rewrite Hslot. discriminate. }
  mstep (quiet_active_sessions_loop h0 l old slot Hl).
  mappend.
  mstep p_get_metrics.
  mopen.
  mname.
  mstep p_alloc. { apply map_Forall_empty. }
  mstep p_setitem_open. { rewrite Hslot. discriminate. }
  mstep (quiet_waiting_sessions_loop h0 l old slot Hl).
  mappend.
  (* query statistics *)
  mstep (quiet_get_stat_statements h0 l old slot Hl srv).
  mopen.
  mname.
  mstep p_setitem_open. { rewrite Hslot. discriminate. }
  mappend.
  (* performance *)
  mstep p_get_metrics.
  mstep p_getitem_index.
  mstep p_get_metrics.
  mstep p_getitem_index.
  mopen.
  mname.
  mstep p_dict_entries.
  mstep p_dict_entries.
  mstep p_alloc. { by apply map_Forall_union_2. }
  mstep p_alloc. { by constructor. }
  mstep p_setitem_open. { rewrite Hslot. discriminate. }
  mappend.
  mstep (quiet_cmd_wo_fetch h0 l old slot).
  simpl. split; [done|]. eexists. split; [eassumption|]. reflexivity.
Qed.

Lemma influx_cycle_world s :
  slot = "measurement" ->
  world [] None (heap s) ->
  run_post
    (fun v s' => v = Ref l
                 /\ exists names, world names None (heap s')
                                  /\ influx_order names)
    broken
    (collect_metrics_influx srv int_of_str (Ref l) s).
Proof.
  intros Hslot HW. unfold collect_metrics_influx. cbv zeta.
  (* bgwriter *)
  mstep p_get_metrics.
  mstep (quiet_assert_one_row h0 l old slot).
  mopen.
  rewrite <- Hslot. mname.
  mstep p_drop_first.
  mstep p_getitem_index.
  mstep p_setitem_open. { rewrite Hslot. discriminate. }
  mappend.
  (* database *)
  unfold PG_STAT_VIEWS_LOCAL_RAW_database, PG_STAT_VIEWS_LOCAL_KEY_database.
  cbn [for_each].
  mstep p_get_metrics.
  mstep p_list_items.
  massoc.
  eapply (main_for_each_records "database_statistics"); [|eassumption..|].
  { intros row sb namesb HWb Hrow.
    pose proof (mono_refl h0 l old (heap sb) None) as Htrack.
    mopen.
    mstep p_lift.
    match goal with H : view_name _ = Ok _ |- _ =>
      vm_compute in H; injection H as <- end.
    mname.
    mstep p_getitem.
    mstep p_alloc. { by apply map_Forall_singleton. }
    mstep p_setitem_open. { rewrite Hslot. discriminate. }
    mstep p_delitem.
    mstep p_drop_row.
    mstep p_setitem_open. { rewrite Hslot. discriminate. }
    eapply main_run_last;
      [eapply (run_append_record h0 l old slot Hl); eassumption|].
    intros [] s' (HW' & Hm'). split; [done|]. by eapply mono_trans. }
  lnext.
  mstep p_get_metrics.
  mstep p_list_items.
  massoc.
  eapply (main_for_each_records "conflicts"); [|eassumption..|].
  { intros row sb namesb HWb Hrow.
    pose proof (mono_refl h0 l old (heap sb) None) as Htrack.
    mopen.
    mstep p_lift.
    match goal with H : view_name _ = Ok _ |- _ =>
      vm_compute in H; injection H as <- end.
    mname.
    mstep p_getitem.
    mstep p_alloc. { by apply map_Forall_singleton. }
    mstep p_setitem_open. { rewrite Hslot. discriminate. }
    mstep p_delitem.
    mstep p_drop_row.
    mstep p_setitem_open. { rewrite Hslot. discriminate. }
    eapply main_run_last;
      [eapply (run_append_record h0 l old slot Hl); eassumption|].
    intros [] s' (HW' & Hm'). split; [done|]. by eapply mono_trans. }
  lnext.
  mstep (quiet_ret h0 l old slot).
  (* access *)
  mstep p_get_metrics.
  mopen.
  mname.
  mstep p_drop_first.
  mstep p_getitem_index.
  mstep p_setitem_open. { rewrite Hslot. discriminate. }
  mstep p_get_metrics.
  mstep p_getitem.
  mstep p_getitem_index.
  mstep p_dict_update.
  mappend.
  (* io *)
  mstep p_get_metrics.
  mopen.
  mname.
  mstep p_drop_first.
  mstep p_getitem_index.
  mstep p_setitem_open. { rewrite Hslot. discriminate. }
  mstep p_get_metrics.
  mstep p_getitem.
  mstep p_getitem_index.
  mstep p_dict_update.
  mappend.
  (* activity *)
  mopen.
  mname.
  mstep p_alloc. { apply map_Forall_empty. }
  mstep p_setitem_open. { rewrite Hslot. discriminate. }
  mstep (quiet_sessions_loop h0 l old slot Hl srv int_of_str).
  mappend.
  mstep p_get_metrics.
  mopen.
  mname.
  mstep p_alloc. { apply map_Forall_empty. }
  mstep p_setitem_open. { rewrite Hslot. discriminate. }
  mstep (quiet_active_sessions_loop h0 l old slot Hl).
  mappend.
  mstep p_get_metrics.
  mopen.
  mname.
  mstep p_alloc. { apply map_Forall_empty. }
  mstep p_setitem_open. { rewrite Hslot. discriminate. }
  mstep (quiet_waiting_sessions_loop h0 l old slot Hl).
  mappend.
  (* query statistics *)
  mstep (quiet_get_stat_statements h0 l old slot Hl srv).
  mstep p_list_items.
  massoc.
  eapply (main_for_each_records "query_statistics"); [|eassumption..|].
  { intros row sb namesb HWb Hrow.
    pose proof (mono_refl h0 l old (heap sb) None) as Htrack.
    mopen.
    mname.
    mstep (quiet_dict_filter h0 l old slot Hl).
    mstep p_setitem_open. { rewrite Hslot. discriminate. }
    mstep (quiet_dict_filter h0 l old slot Hl).
    mstep p_setitem_open. { rewrite Hslot. discriminate. }
    eapply main_run_last;
      [eapply (run_append_record h0 l old slot Hl); eassumption|].
    intros [] s' (HW' & Hm'). split; [done|]. by eapply mono_trans. }
  lnext.
  mstep (quiet_cmd_wo_fetch h0 l old slot).
  simpl. split; [done|]. eexists. split; [eassumption|].
  eexists _, _, _. rewrite <- !app_assoc. reflexivity.
Qed.

End Cycles.

Lemma world_appended_only (h0 : list obj) (l : loc) (old : list val)
    (slot : string) (order : list string -> Prop)
    (s : state) (out : result val * state) :
  heap s = h0 ->
  run_post
    (fun v s' => v = Ref l
                 /\ exists names, world h0 l old slot names None (heap s')
                                  /\ order names)
    (fun s' => exists names cur, world h0 l old slot names cur (heap s'))
    out ->
  appended_only l old slot order s out.
Proof.
  intros Hh Hout.
  assert (exists names cur,
             world h0 l old slot names cur (heap out.2)
             /\ forall v, out.1 = Ok v -> v = Ref l /\ order names)
    as (names & cur & HW & Hret).
  { destruct out as [[v|e] s']; simpl in *.
    - destruct Hout as (-> & names & HW & Hord).
      exists names, None. split; [done|]. by intros ? [= <-].
    - destruct Hout as (names & cur & HW). exists names, cur.
      split; [done|]. intros v Hv. discriminate Hv. }
  destruct HW as [Hlen Hfr (recs & Hrecs & Hn & Hfresh) _ _].
  split.
  - intros k o Hk Ho. rewrite Hh in Ho. rewrite Hfr; [done | | done].
    by eapply lookup_lt_Some.
  - exists recs, names. split; [done|]. split; [|by split].
    rewrite Hh. eapply Forall_impl; [exact Hfresh|]. intros k. simpl. lia.
Qed.

(** C10: called on the caller's list, [collect_metrics_influx] and
    [collect_metrics_pg] leave every other object that existed unchanged,
    keep the items of the list in place and only append references to new
    records; they return that very list, and the names of the new records
    come in the fixed order: bgwriter, the database views, access, io,
    sessions, active_sessions, waiting_sessions, the query statistics and,
    for [collect_metrics_pg], performance last. *)
Theorem cycles_only_append (srv : server) (int_of_str : string -> result Z)
    (s : state) (l : loc) (old : list val) :
  heap s !! l = Some (OList old) ->
  appended_only l old "measurement" influx_order s
    (collect_metrics_influx srv int_of_str (Ref l) s)
  /\ appended_only l old "table" pg_order s
       (collect_metrics_pg srv int_of_str (Ref l) s).
Proof.
  intros Hl. split.
  - apply (world_appended_only (heap s)); [done|].
    apply influx_cycle_world; [done | done | by apply world_init].
  - apply (world_appended_only (heap s)); [done|].
    apply pg_cycle_world; [done | done | by apply world_init].
Qed.

Lemma cycles_only_append_witness :
  appended_only 0%nat [] "measurement" influx_order empty_metrics
    (collect_metrics_influx healthy_server no_int_of_str (Ref 0%nat)
       empty_metrics)
  /\ appended_only 0%nat [] "table" pg_order empty_metrics
       (collect_metrics_pg healthy_server no_int_of_str (Ref 0%nat)
          empty_metrics).
Proof.
  apply (cycles_only_append healthy_server no_int_of_str empty_metrics 0%nat []).
  reflexivity.
Defined.

(** * Further properties of the collector *)

(** ** More on running the monad *)

Lemma run_alloc (o : obj) (s : state) :
  alloc o s = (Ok (Ref (length (heap s))),
               {| heap := heap s ++ [o]; trace := trace s |}).
Proof. reflexivity. Qed.

Lemma for_each_app {A} (xs ys : list A) (body : A -> M unit) (s : state) :
  for_each (xs ++ ys) body s = (for_each xs body;; for_each ys body) s.
Proof.
  revert s. induction xs as [|x xs IH]; intros s; [done|].
  cbn [app for_each]. rewrite !run_bind.
  destruct (body x s) as [[[]|e] s']; [|done].
  rewrite IH. by rewrite run_bind.
Qed.

Lemma run_getitem_dict (r : loc) (d : gmap dkey val) (k : dkey) (x : val)
    (s : state) :
  heap s !! r = Some (ODict d) -> d !! k = Some x ->
  getitem (Ref r) k s = (Ok x, s).
Proof.
  intros Hr Hk. unfold getitem. rewrite run_bind. unfold deref.
  rewrite Hr. by rewrite Hk.
Qed.

Lemma run_dict_entries (r : loc) (d : gmap dkey val) (e : exn) (s : state) :
  heap s !! r = Some (ODict d) ->
  dict_entries (Ref r) e s = (Ok d, s).
Proof.
  intros Hr. unfold dict_entries. rewrite run_bind. unfold deref.
  by rewrite Hr.
Qed.

Lemma lookup_tail {A} (l t : list A) (i : nat) :
  (l ++ t) !! (length l + i)%nat = t !! i.
Proof. by rewrite lookup_app_r, Nat.add_comm, Nat.add_sub by lia. Qed.

(** ** What a computation raises *)

Lemma raises_bind {A B} (Q : exn -> Prop) (m : M A) (f : A -> M B) :
  raises Q m -> (forall a, raises Q (f a)) -> raises Q (m ≫= f).
Proof.
  intros Hm Hf s e. rewrite run_bind.
  destruct (m s) as [[a|e'] s1] eqn:Hms.
  - apply Hf.
  - intros [= <-]. apply (Hm s). by rewrite Hms.
Qed.

Lemma raises_ret {A} (Q : exn -> Prop) (a : A) : raises Q (mret a).
Proof. by intros s e. Qed.

Lemma raises_raise {A} (Q : exn -> Prop) (e : exn) :
  Q e -> raises Q (raise e : M A).
Proof. by intros He s e' [= <-]. Qed.

Lemma raises_lift {A} (Q : exn -> Prop) (r : result A) :
  (forall e, r = Raise e -> Q e) -> raises Q (lift r).
Proof. intros Hr s e. rewrite run_lift. apply Hr. Qed.

Lemma raises_send (Q : exn -> Prop) srv ev : raises Q (send srv ev).
Proof. by intros s e. Qed.

Lemma raises_cmd (Q : exn -> Prop) srv sql :
  Q (PostgresCollectorException sql) -> raises Q (_cmd srv sql).
Proof.
  intros HQ s e. rewrite run_cmd. cbn.
  by destruct (srv (trace s) (EFetch sql)); intros [= <-].
Qed.

Lemma raises_cmd_wo_fetch (Q : exn -> Prop) srv sql :
  Q (PostgresCollectorException sql) -> raises Q (_cmd_wo_fetch srv sql).
Proof.
  intros HQ s e. rewrite run_cmd_wo_fetch. cbn.
  by destruct (srv (trace s) (EExec sql)); intros [= <-].
Qed.

Lemma raises_for_each {A} (Q : exn -> Prop) (xs : list A) (body : A -> M unit) :
  (forall x, raises Q (body x)) -> raises Q (for_each xs body).
Proof.
  intros Hbody. induction xs as [|x xs IH]; cbn [for_each].
  - by intros s e.
  - apply raises_bind; [apply Hbody | by intros _].
Qed.

Lemma raises_try_any {A} (Q : exn -> Prop) (m h : M A) :
  raises Q h -> raises Q (try_any m h).
Proof.
  intros Hh s e. unfold try_any.
  destruct (m s) as [[a|e'] s1]; [done|]. apply Hh.
Qed.

Lemma raises_try_collector {A} (Q : exn -> Prop) (m h : M A) :
  (forall e, (forall sql, e <> PostgresCollectorException sql) -> Q e) ->
  raises Q h -> raises Q (try_collector m h).
Proof.
  intros HQ Hh s e. unfold try_collector.
  destruct (m s) as [[a|e'] s1]; [done|].
  destruct e'; try (intros [= <-]; by apply HQ). apply Hh.
Qed.

Lemma raises_driver_call (Q : exn -> Prop) srv ev :
  Q DriverError ->
  raises Q (r ← send srv ev;
            match r with Failed => raise DriverError | _ => mret tt end).
Proof.
  intros HQ. apply raises_bind; [apply raises_send|].
  intros []; first [by apply raises_raise | apply raises_ret].
Qed.

Lemma index_raises {A} (xs : list A) (i : nat) (e : exn) :
  index xs i = Raise e -> e = IndexError.
Proof. unfold index. destruct (xs !! i); [done | by intros [= <-]]. Qed.

Lemma raises_load_stat_statements srv :
  raises (fails_only_on check_module_sql) (_load_stat_statements srv).
Proof.
  unfold _load_stat_statements.
  apply raises_bind; [by apply raises_cmd; intros ? [= <-]|]. intros [res meta].
  apply raises_bind; [apply raises_lift; by intros e ->%index_raises ? [=]|].
  intros row.
  apply raises_bind; [apply raises_lift; by intros e ->%index_raises ? [=]|].
  intros count. cbv zeta. destruct (negb _); [|apply raises_ret].
  apply raises_try_any.
  apply raises_bind; [by apply raises_driver_call; intros ? [=]|].
  intros _. apply raises_ret.
Qed.

(** ** More on padding *)

Lemma land_lnot_bounds (y m : Z) :
  0 <= m -> y - m <= Z.land y (Z.lnot m) <= y.
Proof.
  intros Hm. rewrite <- Z.ldiff_land.
  assert (Z.ldiff y m = y - Z.land y m) as ->.
  { rewrite Z.sub_nocarry_ldiff.
    - apply Z.bits_inj'. intros n Hn.
      rewrite !Z.ldiff_spec, Z.land_spec.
      by destruct (Z.testbit y n), (Z.testbit m n).
    - apply Z.bits_inj'. intros n Hn.
      rewrite Z.ldiff_spec, Z.land_spec, Z.bits_0.
      by destruct (Z.testbit y n), (Z.testbit m n). }
  assert (0 <= Z.land y m) by (apply Z.land_nonneg; by right).
  assert (0 <= m - Z.land y m).
  { rewrite Z.sub_nocarry_ldiff.
    - apply Z.ldiff_nonneg. by left.
    - apply Z.bits_inj'. intros n Hn.
      rewrite Z.ldiff_spec, Z.land_spec, Z.bits_0.
      by destruct (Z.testbit y n), (Z.testbit m n). }
  lia.
Qed.

Lemma padding_loop_total (dict : gmap string Z) (fields : list field_info)
    (p o p' o' : Z) :
  padding_loop dict fields p o = Ok (p', o') ->
  o' - p' = o - p + foldr Z.add 0 (avg_width <$> fields).
Proof.
  revert p o. induction fields as [|f fields IH]; intros p o; cbn.
  - intros [= <- <-]. lia.
  - destruct (dict !! attalign f) as [a|]; [|done].
    intros H. apply IH in H. lia.
Qed.

Lemma padding_loop_grows (dict : gmap string Z) (fields : list field_info)
    (p o p' o' : Z) :
  map_Forall (fun _ a => 1 <= a) dict ->
  padding_loop dict fields p o = Ok (p', o') -> p <= p'.
Proof.
  intros Hdict. revert p o. induction fields as [|f fields IH]; intros p o; cbn.
  - intros [= <- <-]. lia.
  - destruct (dict !! attalign f) as [a|] eqn:Ha; [|done].
    intros H. apply IH in H.
    pose proof (Hdict _ _ Ha) as Hpos. cbn in Hpos.
    pose proof (land_lnot_bounds (o + (a - 1)) (a - 1)). lia.
Qed.

(** The padded row: with alignments of at least one byte the padding is
    not negative, and the widths of the columns and the padding add up to
    a multiple of 4. *)
Theorem padding_completes_the_row (dict : gmap string Z)
    (fields : list field_info) (padding : Z) :
  map_Forall (fun _ a => 1 <= a) dict ->
  _calculate_padding_size_for_table dict fields = Ok padding ->
  0 <= padding
  /\ (4 | foldr Z.add 0 (avg_width <$> fields) + padding).
Proof.
  intros Hdict. unfold _calculate_padding_size_for_table.
  destruct fields as [|first rest]; [done|]. cbn [index lookup list_lookup mbind result_bind tail].
  destruct (padding_loop dict rest 0 (avg_width first)) as [[p o]|e] eqn:Hloop;
    [|done].
  intros [= <-].
  pose proof (padding_loop_total _ _ _ _ _ _ Hloop) as Htotal.
  pose proof (padding_loop_grows _ _ _ _ _ _ Hdict Hloop) as Hgrows.
  pose proof (land_lnot_bounds (o + 3) 3).
  split; [lia|].
  cbn [fmap list_fmap foldr].
  replace (avg_width first + foldr Z.add 0 (avg_width <$> rest)
           + (p + (Z.land (o + 3) (Z.lnot 3) - o)))
    with (spec_padded_offset (2 ^ 2) o).
  - rewrite spec_padded_offset_pow2 by lia. apply next_boundary_least. lia.
  - unfold spec_padded_offset. cbv zeta. change (2 ^ 2 - 1) with 3. lia.
Qed.

Lemma padding_completes_the_row_example :
  0 <= 3 /\ (4 | foldr Z.add 0 (avg_width <$> example_columns) + 3).
Proof.
  apply (padding_completes_the_row pg_alignment_dict example_columns 3).
  - unfold pg_alignment_dict.
    repeat (apply map_Forall_insert_2; [lia|]). apply map_Forall_empty.
  - reflexivity.
Defined.

Lemma padding_loop_known (dict : gmap string Z) (fields : list field_info)
    (p o : Z) :
  Forall (fun f => is_Some (dict !! attalign f)) fields ->
  exists p' o', padding_loop dict fields p o = Ok (p', o').
Proof.
  intros H. revert p o. induction H as [|f fields [a Ha] _ IH]; intros p o; cbn.
  - by eexists _, _.
  - rewrite Ha. apply IH.
Qed.

Lemma padding_outcomes_known (dict : gmap string Z) (first : field_info)
    (rest : list field_info) :
  Forall (fun f => is_Some (dict !! attalign f)) rest ->
  exists padding,
    _calculate_padding_size_for_table dict (first :: rest) = Ok padding.
Proof.
  intros Hrest. unfold _calculate_padding_size_for_table.
  cbn [index lookup list_lookup mbind result_bind tail].
  destruct (padding_loop_known dict rest 0 (avg_width first) Hrest)
    as (p & o & ->).
  by eexists.
Qed.

(** When the padding is computed: an empty column list raises
    [IndexError]; otherwise the alignment classes of the later columns are
    looked up in order, the first unknown one raises [KeyError], and with
    all of them known there is a result.  The alignment class of the first
    column is never looked up. *)
Theorem padding_outcomes (dict : gmap string Z) (first : field_info)
    (rest : list field_info) :
  _calculate_padding_size_for_table dict [] = Raise IndexError
  /\ (Forall (fun f => is_Some (dict !! attalign f)) rest ->
      exists padding,
        _calculate_padding_size_for_table dict (first :: rest) = Ok padding)
  /\ (forall known f later,
        rest = known ++ f :: later ->
        Forall (fun f => is_Some (dict !! attalign f)) known ->
        dict !! attalign f = None ->
        _calculate_padding_size_for_table dict (first :: rest)
        = Raise (KeyError (attalign f)))
  /\ (forall class,
        _calculate_padding_size_for_table dict
          ({| relid := relid first; attname := attname first;
              attalign := class; avg_width := avg_width first |} :: rest)
        = _calculate_padding_size_for_table dict (first :: rest)).
Proof.
  split; [done|]. split; [|split].
  - apply padding_outcomes_known.
  - intros known f later -> Hknown Hf.
    unfold _calculate_padding_size_for_table.
    cbn [index lookup list_lookup mbind result_bind tail].
    rewrite padding_loop_app.
    destruct (padding_loop_known dict known 0 (avg_width first) Hknown)
      as (p & o & ->).
    cbn. by rewrite Hf.
  - done.
Qed.

(** ** Padding per table *)

Section Groupby.

Context {A K : Type} `{EqDecision K} (key : A -> K).

Lemma groupby_cons (x : A) (xs : list A) :
  groupby key (x :: xs)
  = match groupby key xs with
    | (k, g) :: groups =>
        if decide (key x = k) then (key x, x :: g) :: groups
        else (key x, [x]) :: (k, g) :: groups
    | [] => [(key x, [x])]
    end.
Proof. reflexivity. Qed.

Lemma groupby_nil_inv (xs : list A) : groupby key xs = [] -> xs = [].
Proof.
  destruct xs as [|x xs]; [done|]. cbn.
  destruct (groupby key xs) as [|[k g] groups]; [done|].
  by destruct (decide (key x = k)).
Qed.

Lemma groupby_head (x : A) (xs : list A) :
  exists g groups, groupby key (x :: xs) = (key x, x :: g) :: groups.
Proof.
  cbn. destruct (groupby key xs) as [|[k g] groups]; [by eexists _, _|].
  destruct (decide (key x = k)); by eexists _, _.
Qed.

Lemma groupby_uniform (k : K) (run : list A) :
  run <> [] -> Forall (fun x => key x = k) run ->
  groupby key run = [(k, run)].
Proof.
  intros Hne H. induction H as [|x run Hx Hrun IH]; [done|].
  cbn. destruct run as [|y run]; [by rewrite Hx|].
  rewrite IH by done. rewrite Hx. by rewrite decide_True.
Qed.

Lemma groupby_app (xs ys : list A) :
  match last xs, head ys with
  | Some x, Some y => key x <> key y
  | _, _ => True
  end ->
  groupby key (xs ++ ys) = groupby key xs ++ groupby key ys.
Proof.
  induction xs as [|x xs IH]; [done|].
  intros Hb. destruct xs as [|x' xs].
  - cbn [last] in Hb. cbn [app groupby].
    destruct ys as [|y ys]; [done|].
    destruct (groupby_head y ys) as (g & groups & Hy). rewrite Hy.
    cbn [head] in Hb. by rewrite decide_False.
  - change (last (x :: x' :: xs)) with (last (x' :: xs)) in Hb.
    specialize (IH Hb).
    change ((x :: x' :: xs) ++ ys) with (x :: ((x' :: xs) ++ ys)).
    rewrite (groupby_cons x ((x' :: xs) ++ ys)), IH.
    rewrite (groupby_cons x (x' :: xs)).
    destruct (groupby_head x' xs) as (g & groups & Hx'). rewrite Hx'.
    cbn [app]. by destruct (decide (key x = key x')).
Qed.

Lemma groupby_elem (xs : list A) (k : K) (g : list A) (y : A) :
  (k, g) ∈ groupby key xs -> y ∈ g -> y ∈ xs /\ key y = k.
Proof.
  revert k g. induction xs as [|x xs IH]; intros k g; [by intros ?%elem_of_nil|].
  rewrite groupby_cons.
  destruct (groupby key xs) as [|[k' g'] groups] eqn:Hg.
  - intros [= -> ->]%list_elem_of_singleton ->%list_elem_of_singleton.
    split; [left|done].
  - destruct (decide (key x = k')) as [Hk|Hk].
    + intros [[= -> ->]|Hin]%elem_of_cons.
      * intros [->|Hy]%elem_of_cons; [split; [left|done]|].
        destruct (IH k' g') as [Hy' Hky]; [left|done|].
        split; [by right|congruence].
      * intros Hy. destruct (IH k g) as [Hy' Hky]; [by right|done|].
        split; [by right|done].
    + intros [[= -> ->]|Hin]%elem_of_cons.
      * intros ->%list_elem_of_singleton. split; [left|done].
      * intros Hy. destruct (IH k g Hin Hy) as [Hy' Hky].
        split; [by right|done].
Qed.

Lemma groupby_covers (xs : list A) (y : A) :
  y ∈ xs -> key y ∈ (groupby key xs).*1.
Proof.
  induction xs as [|x xs IH]; [by intros ?%elem_of_nil|].
  rewrite groupby_cons. intros [->|Hy]%elem_of_cons.
  - destruct (groupby key xs) as [|[k' g'] groups]; [left|].
    destruct (decide (key x = k')); left.
  - specialize (IH Hy).
    destruct (groupby key xs) as [|[k' g'] groups]; [by apply elem_of_nil in IH|].
    destruct (decide (key x = k')) as [Hk|Hk]; cbn [fmap list_fmap fst] in *.
    + by rewrite Hk.
    + by right.
Qed.

Lemma groupby_groups (xs : list A) :
  Forall (fun kg => kg.2 <> []) (groupby key xs).
Proof.
  induction xs as [|x xs IH]; cbn; [done|].
  destruct (groupby key xs) as [|[k' g'] groups] eqn:Hg.
  - by repeat constructor.
  - destruct (decide (key x = k')).
    + constructor; [done|]. by inversion IH.
    + by constructor.
Qed.

End Groupby.

Lemma filter_none {A} (P : A -> Prop) `{forall x, Decision (P x)}
    (xs : list A) :
  Forall (fun x => ~ P x) xs -> filter P xs = [].
Proof.
  induction 1 as [|x xs Hx _ IH]; [done|].
  by rewrite filter_cons, decide_False.
Qed.

Lemma sorted_run (rows : list field_info) (r : Z) :
  StronglySorted Z.le (relid <$> rows) ->
  rows = filter (fun f => relid f < r) rows
         ++ filter (fun f => relid f = r) rows
         ++ filter (fun f => r < relid f) rows.
Proof.
  induction rows as [|f rows IH]; [done|].
  cbn [fmap list_fmap]. intros [Hs Hle]%StronglySorted_inv.
  specialize (IH Hs). rewrite Forall_fmap in Hle.
  rewrite !filter_cons.
  destruct (decide (relid f < r)) as [Hlt|Hge].
  - rewrite decide_False, (decide_False (P := r < relid f)) by lia.
    cbn [app]. by rewrite <- IH.
  - assert (filter (fun f => relid f < r) rows = []) as Hnone.
    { apply filter_none. eapply Forall_impl; [exact Hle|].
      cbn. intros; lia. }
    rewrite Hnone in *. cbn [app] in *.
    destruct (decide (relid f = r)) as [Heq|Hne].
    + rewrite (decide_False (P := r < relid f)) by lia.
      cbn [app]. by rewrite <- IH.
    + rewrite decide_True by lia.
      assert (filter (fun f => relid f = r) rows = []) as Hnone'.
      { apply filter_none. eapply Forall_impl; [exact Hle|].
        cbn. intros; lia. }
      rewrite Hnone' in *. cbn [app] in *. by rewrite <- IH.
Qed.

Section PaddingSizes.

Variable dict : gmap string Z.

Lemma padding_sizes_loop_app (gs1 gs2 : list (Z * list field_info))
    (d : gmap dkey Z) :
  padding_sizes_loop dict (gs1 ++ gs2) d
  = d' ← padding_sizes_loop dict gs1 d; padding_sizes_loop dict gs2 d'.
Proof.
  revert d. induction gs1 as [|[k g] gs1 IH]; intros d; [done|].
  cbn. destruct (_calculate_padding_size_for_table dict g); [apply IH|done].
Qed.

Lemma padding_sizes_loop_other (gs : list (Z * list field_info))
    (d d' : gmap dkey Z) (r : Z) :
  r ∉ gs.*1 ->
  padding_sizes_loop dict gs d = Ok d' ->
  d' !! KNum r 1 = d !! KNum r 1.
Proof.
  revert d. induction gs as [|[k g] gs IH]; intros d Hr; cbn.
  - by intros [= ->].
  - destruct (_calculate_padding_size_for_table dict g) as [p|]; [|done].
    cbn. intros H. rewrite (IH _ (fun Hin => Hr (list_elem_of_further _ _ _ Hin)) H).
    rewrite lookup_insert_ne; [done|]. intros [= ->]. apply Hr. by left.
Qed.

Lemma padding_sizes_loop_dom (gs : list (Z * list field_info))
    (d d' : gmap dkey Z) (k : dkey) :
  padding_sizes_loop dict gs d = Ok d' ->
  is_Some (d' !! k) <-> is_Some (d !! k) \/ exists r, r ∈ gs.*1 /\ k = KNum r 1.
Proof.
  revert d. induction gs as [|[r g] gs IH]; intros d; cbn.
  - intros [= ->]. split; [by left|]. intros [?|(r & []%elem_of_nil & _)]. done.
  - destruct (_calculate_padding_size_for_table dict g) as [p|]; [|done].
    cbn. intros H. rewrite (IH _ H). rewrite lookup_insert_is_Some.
    split.
    + intros [[<-|[_ Hd]]|(r' & Hr' & ->)].
      * right. exists r. split; [left|done].
      * by left.
      * right. exists r'. split; [by right|done].
    + intros [Hd|(r' & [->|Hr']%elem_of_cons & ->)].
      * destruct (decide (KNum r 1 = k)); [left; by left|left; by right].
      * left. by left.
      * right. by exists r'.
Qed.

Lemma padding_sizes_loop_fails (gs : list (Z * list field_info))
    (d : gmap dkey Z) (e : exn) :
  padding_sizes_loop dict gs d = Raise e ->
  exists r g, (r, g) ∈ gs
              /\ _calculate_padding_size_for_table dict g = Raise e.
Proof.
  revert d. induction gs as [|[r g] gs IH]; intros d; cbn; [done|].
  destruct (_calculate_padding_size_for_table dict g) as [p|e'] eqn:Hg; cbn.
  - intros (r' & g' & Hin & He)%IH. exists r', g'. split; [by right|done].
  - intros [= ->]. exists r, g. split; [left|done].
Qed.

Lemma padding_sizes_loop_known (gs : list (Z * list field_info))
    (d : gmap dkey Z) :
  Forall (fun kg => exists p,
            _calculate_padding_size_for_table dict kg.2 = Ok p) gs ->
  exists d', padding_sizes_loop dict gs d = Ok d'.
Proof.
  intros H. revert d. induction H as [|[r g] gs [p Hp] _ IH]; intros d; cbn.
  - by eexists.
  - cbn in Hp. rewrite Hp. cbn. apply IH.
Qed.

(** The entry of a table is computed from its last run of rows. *)
Lemma padding_sizes_last_run (before run after : list field_info) (r : Z)
    (sizes : gmap dkey Z) :
  run <> [] ->
  Forall (fun f => relid f = r) run ->
  Forall (fun f => relid f <> r) after ->
  match last before with Some f => relid f <> r | None => True end ->
  _calculate_padding_size_for_tables dict (before ++ run ++ after) = Ok sizes ->
  exists p, _calculate_padding_size_for_table dict run = Ok p
            /\ sizes !! KNum r 1 = Some p.
Proof.
  intros Hne Hrun Hafter Hbefore. unfold _calculate_padding_size_for_tables.
  assert (exists f, head run = Some f /\ relid f = r) as (f0 & Hf0 & Hr0).
  { destruct run as [|f run]; [done|]. exists f. split; [done|].
    by inversion Hrun. }
  rewrite (groupby_app relid before).
  2:{ destruct (last before) as [f|]; [|done].
      destruct run as [|f' run']; [done|]. cbn. cbn in Hf0.
      injection Hf0 as ->. by rewrite Hr0. }
  rewrite (groupby_app relid run).
  2:{ destruct (last run) as [f|] eqn:Hl; [|done].
      destruct after as [|f' after']; [done|]. cbn.
      apply last_Some_elem_of in Hl.
      rewrite Forall_forall in Hrun. rewrite (Hrun f Hl).
      inversion Hafter; subst. congruence. }
  rewrite (groupby_uniform relid r run) by done.
  rewrite padding_sizes_loop_app.
  destruct (padding_sizes_loop dict (groupby relid before) ∅) as [d1|]; [|done].
  cbn [mbind result_bind app padding_sizes_loop].
  destruct (_calculate_padding_size_for_table dict run) as [p|]; [|done].
  cbn [mbind result_bind]. intros Hrest. exists p. split; [done|].
  rewrite (padding_sizes_loop_other _ _ _ r) with (2 := Hrest).
  - by rewrite lookup_insert_eq.
  - intros (kg & Hk & Hin)%list_elem_of_fmap. destruct kg as [k g].
    cbn in Hk. subst k.
    pose proof (groupby_groups relid after) as Hgroups.
    rewrite Forall_forall in Hgroups. specialize (Hgroups _ Hin). cbn in Hgroups.
    destruct g as [|f g]; [done|].
    destruct (groupby_elem relid after r (f :: g) f Hin) as [Hf Hkf]; [left|].
    rewrite Forall_forall in Hafter. by apply (Hafter f).
Qed.

End PaddingSizes.

Lemma padding_loop_fails (dict : gmap string Z) (fields : list field_info)
    (p o : Z) (e : exn) :
  padding_loop dict fields p o = Raise e ->
  exists f, f ∈ fields /\ dict !! attalign f = None
            /\ e = KeyError (attalign f).
Proof.
  revert p o. induction fields as [|f fields IH]; intros p o; cbn; [done|].
  destruct (dict !! attalign f) as [a|] eqn:Ha.
  - intros (f' & Hin & Hf')%IH. exists f'. split; [by right|done].
  - intros [= <-]. exists f. split; [left|done].
Qed.

(** The padding sizes of the tables never fail for a lack of columns: the
    only exception is the [KeyError] of an alignment class that is not in
    the dictionary; and with every class known there is a dictionary,
    whose keys are the ids of the tables that occur in the rows. *)
Theorem padding_sizes_outcomes (dict : gmap string Z)
    (rows : list field_info) :
  (forall e, _calculate_padding_size_for_tables dict rows = Raise e ->
     exists f, f ∈ rows /\ dict !! attalign f = None
               /\ e = KeyError (attalign f))
  /\ (Forall (fun f => is_Some (dict !! attalign f)) rows ->
      exists sizes,
        _calculate_padding_size_for_tables dict rows = Ok sizes
        /\ forall k, is_Some (sizes !! k)
                     <-> exists f, f ∈ rows /\ k = KNum (relid f) 1).
Proof.
  unfold _calculate_padding_size_for_tables.
  pose proof (groupby_groups relid rows) as Hgroups.
  rewrite Forall_forall in Hgroups. split.
  - intros e (r & g & Hin & Hg)%padding_sizes_loop_fails.
    specialize (Hgroups _ Hin). cbn in Hgroups.
    destruct g as [|first rest]; [done|].
    unfold _calculate_padding_size_for_table in Hg.
    cbn [index lookup list_lookup mbind result_bind tail] in Hg.
    destruct (padding_loop dict rest 0 (avg_width first)) as [[p o]|e'] eqn:Hloop;
      [done|].
    injection Hg as ->.
    apply padding_loop_fails in Hloop as (f & Hf & Hnone & ->).
    exists f. split; [|done].
    eapply (groupby_elem relid); [exact Hin | by right].
  - intros Hknown. rewrite Forall_forall in Hknown.
    destruct (padding_sizes_loop_known dict (groupby relid rows) ∅) as [sizes Hs].
    { apply Forall_forall. intros [r g] Hin. cbn.
      specialize (Hgroups _ Hin). cbn in Hgroups.
      destruct g as [|first rest]; [done|].
      apply padding_outcomes_known. apply Forall_forall. intros f Hf.
      apply Hknown. eapply (groupby_elem relid); [exact Hin | by right]. }
    exists sizes. split; [done|]. intros k.
    rewrite (padding_sizes_loop_dom _ _ _ _ k Hs). split.
    + intros [[x Hx]|(r & Hr & ->)]; [by rewrite lookup_empty in Hx|].
      apply list_elem_of_fmap in Hr as ([r' g] & -> & Hin). cbn.
      specialize (Hgroups _ Hin). cbn in Hgroups.
      destruct g as [|f g]; [done|].
      destruct (groupby_elem relid rows r' (f :: g) f Hin) as [Hf Hkf]; [left|].
      exists f. by rewrite Hkf.
    + intros (f & Hf & ->). right. exists (relid f).
      split; [by apply groupby_covers|done].
Qed.

(** With the rows sorted by table, as the query delivers them, the entry
    of a table is the padding of exactly the rows of that table, and a
    table without rows has no entry. *)
Theorem padding_sizes_sorted (dict : gmap string Z) (rows : list field_info)
    (sizes : gmap dkey Z) (r p : Z) :
  Sorted Z.le (relid <$> rows) ->
  _calculate_padding_size_for_tables dict rows = Ok sizes ->
  sizes !! KNum r 1 = Some p
  <-> _calculate_padding_size_for_table dict
        (filter (fun f => relid f = r) rows) = Ok p.
Proof.
  intros Hsorted Hsizes.
  apply Sorted_StronglySorted in Hsorted; [|intros x y z; apply Z.le_trans].
  destruct (filter (fun f => relid f = r) rows) as [|f0 run0] eqn:Hrun.
  - split; [|done]. intros Hp.
    unfold _calculate_padding_size_for_tables in Hsizes.
    destruct (proj1 (padding_sizes_loop_dom _ _ _ _ (KNum r 1) Hsizes))
      as [[x Hx]|(r' & Hr' & [= <-])]; [by eexists|by rewrite lookup_empty in Hx|].
    apply list_elem_of_fmap in Hr' as ([r' g] & -> & Hin). cbn in *.
    pose proof (groupby_groups relid rows) as Hgroups.
    rewrite Forall_forall in Hgroups. specialize (Hgroups _ Hin). cbn in Hgroups.
    destruct g as [|f g]; [done|].
    destruct (groupby_elem relid rows r' (f :: g) f Hin) as [Hf Hkf]; [left|].
    exfalso. eapply (filter_nil_not_elem_of _ _ f); [exact Hrun|exact Hkf|exact Hf].
  - pose proof (sorted_run rows r Hsorted) as Hsplit.
    rewrite Hrun in Hsplit. rewrite Hsplit in Hsizes.
    assert (Forall (fun f => relid f = r) (f0 :: run0)) as Hall.
    { rewrite <- Hrun. apply Forall_forall.
      by intros f [? ?]%list_elem_of_filter. }
    assert (Forall (fun f => relid f <> r)
              (filter (fun f => r < relid f) rows)) as Hafter.
    { apply Forall_forall. intros f [? ?]%list_elem_of_filter. lia. }
    assert (match last (filter (fun f => relid f < r) rows) with
            | Some f => relid f <> r
            | None => True
            end) as Hbefore.
    { destruct (last _) as [f|] eqn:Hl; [|done].
      apply last_Some_elem_of, list_elem_of_filter in Hl as [? ?]. lia. }
    assert (f0 :: run0 <> []) as Hne by done.
    destruct (padding_sizes_last_run dict _ _ _ r sizes
                Hne Hall Hafter Hbefore Hsizes) as (p0 & Hp0 & Hlookup).
    rewrite Hlookup, Hp0. split; congruence.
Qed.

Lemma padding_sizes_sorted_example :
  (<[KNum 1544350 1 := 3]> (<[KNum 1544371 1 := 3]> ∅) : gmap dkey Z)
    !! KNum 1544350 1 = Some 3
  <-> _calculate_padding_size_for_table pg_alignment_dict
        (filter (fun f => relid f = 1544350)
           (example_columns
            ++ [{| relid := 1544371; attname := "id"; attalign := "d";
                   avg_width := 8 |};
                {| relid := 1544371; attname := "flag"; attalign := "c";
                   avg_width := 1 |}])) = Ok 3.
Proof.
  apply (padding_sizes_sorted pg_alignment_dict).
  - cbn. repeat (constructor; try lia).
  - vm_compute. reflexivity.
Defined.

(** When rows of another table separate the rows of a table, the entry of
    the table is computed from the rows after the separation alone. *)
Theorem padding_sizes_split_table (dict : gmap string Z)
    (head_rows other_rows tail_rows : list field_info) (r r' : Z)
    (sizes : gmap dkey Z) :
  Forall (fun f => relid f = r) head_rows ->
  Forall (fun f => relid f = r') other_rows ->
  Forall (fun f => relid f = r) tail_rows ->
  other_rows <> [] -> tail_rows <> [] -> r <> r' ->
  _calculate_padding_size_for_tables dict (head_rows ++ other_rows ++ tail_rows)
    = Ok sizes ->
  exists p, _calculate_padding_size_for_table dict tail_rows = Ok p
            /\ sizes !! KNum r 1 = Some p.
Proof.
  intros Hhead Hother Htail Hne_other Hne_tail Hr Hsizes.
  apply (padding_sizes_last_run dict (head_rows ++ other_rows) tail_rows [] r);
    [done | done | done | |].
  - rewrite last_app.
    destruct (last other_rows) as [f|] eqn:Hl.
    + apply last_Some_elem_of in Hl. rewrite Forall_forall in Hother.
      rewrite (Hother f Hl). congruence.
    + by apply last_None in Hl.
  - by rewrite app_nil_r, <- app_assoc.
Qed.

Lemma padding_sizes_split_table_example :
  exists p,
    _calculate_padding_size_for_table pg_alignment_dict
      [{| relid := 1; attname := "c"; attalign := "c"; avg_width := 1 |}] = Ok p
    /\ (<[KNum 1 1 := 3]> (<[KNum 2 1 := 0]> ∅) : gmap dkey Z) !! KNum 1 1
       = Some p.
Proof.
  apply (padding_sizes_split_table pg_alignment_dict
           [{| relid := 1; attname := "a"; attalign := "i"; avg_width := 4 |};
            {| relid := 1; attname := "b"; attalign := "d"; avg_width := 8 |}]
           [{| relid := 2; attname := "x"; attalign := "i"; avg_width := 4 |}]
           [{| relid := 1; attname := "c"; attalign := "c"; avg_width := 1 |}]
           1 2).
  - repeat constructor.
  - repeat constructor.
  - repeat constructor.
  - done.
  - done.
  - done.
  - vm_compute. reflexivity.
Defined.

(** ** Knobs and row counts *)

Lemma dict_of_zip_from (keys : list string) (values : list pyval)
    (d : gmap string pyval) (name : string) (x : pyval) :
  fold_left (fun d entry => <[entry.1 := entry.2]> d) (zip keys values) d
    !! name = Some x ->
  d !! name = Some x
  \/ exists i, keys !! i = Some name /\ values !! i = Some x.
Proof.
  revert values d. induction keys as [|k keys IH]; intros values d; [by left|].
  destruct values as [|v values]; [by left|].
  cbn [zip zip_with fold_left fst snd]. intros [Hd|(i & Hk & Hv)]%IH.
  - apply lookup_insert_Some in Hd as [[<- <-]|[_ Hd]]; [|by left].
    right. by exists 0%nat.
  - right. by exists (S i).
Qed.

Lemma dict_of_zip_other (keys : list string) (values : list pyval)
    (d : gmap string pyval) (name : string) :
  name ∉ keys ->
  fold_left (fun d entry => <[entry.1 := entry.2]> d) (zip keys values) d
    !! name = d !! name.
Proof.
  revert values d. induction keys as [|k keys IH]; intros values d Hn; [done|].
  destruct values as [|v values]; [done|].
  apply not_elem_of_cons in Hn as [Hne Hn].
  cbn [zip zip_with fold_left fst snd].
  rewrite IH by done. by rewrite lookup_insert_ne.
Qed.

Lemma dict_of_zip_lookup (keys : list string) (values : list pyval)
    (i : nat) (name : string) (x : pyval) :
  NoDup keys -> keys !! i = Some name -> values !! i = Some x ->
  dict_of_zip keys values !! name = Some x.
Proof.
  unfold dict_of_zip. generalize (∅ : gmap string pyval).
  revert values i. induction keys as [|k keys IH]; intros values i d Hnd Hk Hv;
    [done|].
  destruct values as [|v values]; [done|].
  apply NoDup_cons in Hnd as [Hk' Hnd].
  cbn [zip zip_with fold_left fst snd].
  destruct i as [|i]; cbn in Hk, Hv.
  - injection Hk as ->. injection Hv as ->.
    rewrite dict_of_zip_other by done. by rewrite lookup_insert_eq.
  - by eapply IH.
Qed.

(** The row counts are the cells of the first row under the names of their
    columns, a null cell included; further rows, and cells or columns
    without a partner, are ignored.  An answer without rows raises
    [IndexError]; one statement is sent and the store is left alone. *)
Theorem row_number_stats_of_first_row (srv : server) (s : state) :
  let out := collect_table_row_number_stats srv s in
  trace out.2 = trace s ++ [EFetch ROW_NUMS_SQL]
  /\ heap out.2 = heap s
  /\ match srv (trace s) (EFetch ROW_NUMS_SQL) with
     | Rows (first_row :: _) columns =>
         exists stats,
           out.1 = Ok stats
           /\ (forall name x,
                 stats !! name = Some x ->
                 exists i, columns !! i = Some name /\ first_row !! i = Some x)
           /\ (NoDup columns ->
               forall i name x,
                 columns !! i = Some name -> first_row !! i = Some x ->
                 stats !! name = Some x)
     | Rows [] _ => out.1 = Raise IndexError
     | _ => out.1 = Raise (PostgresCollectorException ROW_NUMS_SQL)
     end.
Proof.
  cbv zeta. unfold collect_table_row_number_stats.
  rewrite run_bind, run_cmd.
  destruct (srv (trace s) (EFetch ROW_NUMS_SQL)) as [| |res columns]; [done..|].
  rewrite run_bind, run_lift. cbn [fst snd].
  destruct res as [|first_row res]; [done|].
  cbn [index lookup list_lookup]. rewrite run_ret. cbn [fst snd heap trace].
  split; [done|]. split; [done|].
  eexists. split; [done|]. split.
  - intros name x [Hx|Hx]%dict_of_zip_from; [|done].
    by rewrite lookup_empty in Hx.
  - intros Hnd i name x. by apply dict_of_zip_lookup.
Qed.

Lemma knobs_loop_run (r : loc) (rows : list (list pyval)) :
  forall (s : state) (d : gmap dkey val),
    heap s !! r = Some (ODict d) ->
    Forall (fun knob_tuple => (2 <= length knob_tuple)%nat) rows ->
    for_each rows (fun knob_tuple =>
      val ← lift (index knob_tuple 1);
      let val := knob_setting val in
      name ← lift (index knob_tuple 0);
      setitem (Ref r) (key_of name) (Sc val)) s
    = (Ok tt, {| heap := <[r := ODict (knobs_after d rows)]> (heap s);
                 trace := trace s |}).
Proof.
  induction rows as [|t rows IH]; intros s d Hr Hlen.
  - cbn [for_each knobs_after fold_left]. rewrite list_insert_id by done.
    by destruct s.
  - apply Forall_cons in Hlen as [Ht Hlen].
    destruct t as [|name [|setting rest]]; [cbn in Ht; lia..|].
    cbn [for_each]. rewrite run_bind, run_bind, run_lift.
    cbn [index lookup list_lookup]. cbv zeta.
    rewrite run_bind, run_lift. cbn [index lookup list_lookup].
    rewrite (run_setitem_dict r d) by done.
    assert (r < length (heap s))%nat as Hlt by (by eapply lookup_lt_Some).
    rewrite (IH _ (<[key_of name := Sc (knob_setting setting)]> d));
      [| cbn [heap]; by apply list_lookup_insert_eq | done].
    cbn [heap trace knobs_after fold_left]. by rewrite list_insert_insert_eq.
Qed.

Lemma knobs_after_cons (t : list pyval) (rows : list (list pyval))
    (d : gmap dkey val) :
  knobs_after d (t :: rows)
  = knobs_after (match t with
                 | name :: setting :: _ =>
                     <[key_of name := Sc (knob_setting setting)]> d
                 | _ => d
                 end) rows.
Proof. reflexivity. Qed.

Lemma knobs_after_from (rows : list (list pyval)) (d : gmap dkey val)
    (k : dkey) (v : val) :
  knobs_after d rows !! k = Some v ->
  d !! k = Some v
  \/ exists name setting rest,
       (name :: setting :: rest) ∈ rows
       /\ k = key_of name /\ v = Sc (knob_setting setting).
Proof.
  revert d. induction rows as [|t rows IH]; intros d; [by left|].
  rewrite knobs_after_cons. intros [Hd|(name & setting & rest & Hin & H)]%IH.
  - destruct t as [|name [|setting rest]]; [by left..|].
    apply lookup_insert_Some in Hd as [[<- <-]|[_ Hd]]; [|by left].
    right. exists name, setting, rest. split; [left|done].
  - right. exists name, setting, rest. split; [by right|done].
Qed.

Lemma knobs_after_other (rows : list (list pyval)) (d : gmap dkey val)
    (k : dkey) :
  Forall (fun knob_tuple =>
            forall name, head knob_tuple = Some name -> key_of name <> k) rows ->
  knobs_after d rows !! k = d !! k.
Proof.
  intros H. revert d. induction H as [|t rows Ht _ IH]; intros d; [done|].
  rewrite knobs_after_cons, IH.
  destruct t as [|name [|setting rest]]; [done..|].
  rewrite lookup_insert_ne; [done|]. by apply Ht.
Qed.

Lemma knobs_after_app (rows1 rows2 : list (list pyval)) (d : gmap dkey val) :
  knobs_after d (rows1 ++ rows2) = knobs_after (knobs_after d rows1) rows2.
Proof. apply fold_left_app. Qed.

Lemma collect_knobs_unfold (srv : server) (s : state)
    (knobs_info : list (list pyval)) (meta : list string) :
  srv (trace s) (EFetch KNOBS_SQL) = Rows knobs_info meta ->
  let n := length (heap s) in
  collect_knobs srv s
  = (for_each knobs_info (fun knob_tuple =>
       val ← lift (index knob_tuple 1);
       let val := knob_setting val in
       name ← lift (index knob_tuple 0);
       setitem (Ref (n + 3)%nat) (key_of name) (Sc val));;
     outer ← getitem (Ref (n + 2)%nat) "global";
     setitem outer "global" (Ref (n + 3)%nat);;
     mret (Ref (n + 2)%nat))
      {| heap := heap s
                 ++ [ ODict ∅;
                      ODict {[ KStr "global" := Ref n ]};
                      ODict (<[ KStr "global" := Ref (n + 1)%nat ]>
                               {[ KStr "local" := Sc PNone ]});
                      ODict ∅ ];
         trace := trace s ++ [EFetch KNOBS_SQL] |}.
Proof.
  intros Hreply n. unfold collect_knobs.
  rewrite run_bind, run_alloc, run_bind, run_alloc, run_bind, run_alloc.
  cbn [heap trace]. rewrite run_bind, run_cmd. cbn [heap trace].
  rewrite Hreply, run_bind, run_alloc. cbn [heap trace].
  rewrite !length_app. cbn [length]. fold n.
  replace (n + 1 + 1)%nat with (n + 2)%nat by lia.
  replace (n + 2 + 1)%nat with (n + 3)%nat by lia.
  by rewrite <- !app_assoc.
Qed.

(** The knobs that are returned: [knobs["global"]["global"]] holds, for
    every row of the answer, the setting (a timestamp in ISO form, a null
    kept as null) under the name, the last row winning among rows with the
    same name; [knobs["local"]] is null.  A row with fewer than two cells
    raises [IndexError]. *)
Theorem collect_knobs_result (srv : server) (s : state)
    (knobs_info : list (list pyval)) (meta : list string) :
  srv (trace s) (EFetch KNOBS_SQL) = Rows knobs_info meta ->
  let n := length (heap s) in
  (Forall (fun knob_tuple => (2 <= length knob_tuple)%nat) knobs_info ->
   exists knobs_json,
     collect_knobs srv s
     = (Ok (Ref (n + 2)%nat),
        {| heap := heap s
                   ++ [ ODict ∅;
                        ODict {[ KStr "global" := Ref (n + 3)%nat ]};
                        ODict (<[ KStr "global" := Ref (n + 1)%nat ]>
                                 {[ KStr "local" := Sc PNone ]});
                        ODict knobs_json ];
           trace := trace s ++ [EFetch KNOBS_SQL] |})
     /\ (forall k v,
           knobs_json !! k = Some v ->
           exists name setting rest,
             (name :: setting :: rest) ∈ knobs_info
             /\ k = key_of name /\ v = Sc (knob_setting setting))
     /\ (forall before name setting rest after,
           knobs_info = before ++ (name :: setting :: rest) :: after ->
           Forall (fun knob_tuple =>
                     forall name', head knob_tuple = Some name' ->
                                   key_of name' <> key_of name) after ->
           knobs_json !! key_of name = Some (Sc (knob_setting setting))))
  /\ (forall before knob_tuple after,
        knobs_info = before ++ knob_tuple :: after ->
        Forall (fun knob_tuple => (2 <= length knob_tuple)%nat) before ->
        (length knob_tuple < 2)%nat ->
        (collect_knobs srv s).1 = Raise IndexError).
Proof.
  intros Hreply n. rewrite (collect_knobs_unfold srv s _ _ Hreply). fold n.
  split.
  - intros Hlen. exists (knobs_after ∅ knobs_info).
    split; [|split].
    + rewrite run_bind, (knobs_loop_run _ _ _ ∅);
        [| cbn [heap]; subst n; by rewrite lookup_tail | done].
      cbn [heap trace]. subst n. rewrite insert_app_r. cbn [insert list_insert].
      rewrite run_bind.
      erewrite run_getitem_dict;
        [| cbn [heap]; by rewrite lookup_tail | by rewrite lookup_insert_eq].
      rewrite run_bind.
      erewrite run_setitem_dict by (cbn [heap]; by rewrite lookup_tail).
      cbn [heap trace]. rewrite run_ret, insert_app_r. cbn [insert list_insert].
      by rewrite insert_singleton_eq.
    + intros k v [Hk|Hk]%knobs_after_from; [|done].
      by rewrite lookup_empty in Hk.
    + intros before name setting rest after -> Hafter.
      rewrite knobs_after_app, knobs_after_cons, knobs_after_other by done.
      by rewrite lookup_insert_eq.
  - intros before t after -> Hbefore Ht.
    rewrite run_bind, for_each_app, run_bind.
    rewrite (knobs_loop_run _ _ _ ∅);
      [| cbn [heap]; subst n; by rewrite lookup_tail | done].
    cbn [for_each]. rewrite !run_bind, run_lift.
    destruct t as [|name [|setting rest]]; [done|done|cbn in Ht; lia].
Qed.

Lemma collect_knobs_result_example :
  exists knobs_json,
    collect_knobs knobs_server empty_store
    = (Ok (Ref 2%nat),
       {| heap := [ ODict ∅;
                    ODict {[ KStr "global" := Ref 3%nat ]};
                    ODict (<[ KStr "global" := Ref 1%nat ]>
                             {[ KStr "local" := Sc PNone ]});
                    ODict knobs_json ];
          trace := [EFetch KNOBS_SQL] |})
    /\ knobs_json !! KStr "max_connections" = Some (Sc (PStr "200"))
    /\ knobs_json !! KStr "ssl_passphrase_command" = Some (Sc PNone).
Proof.
  destruct (collect_knobs_result knobs_server empty_store sample_knobs
              ["name"; "setting"] eq_refl) as [Hrows _].
  destruct Hrows as (knobs_json & Hrun & _ & Hlast).
  { repeat constructor. }
  exists knobs_json. split; [exact Hrun|]. split.
  - apply (Hlast [ [PStr "max_connections"; PStr "100"];
                   [PStr "ssl_passphrase_command"; PNone] ]
                 (PStr "max_connections") (PStr "200") [] []); [done|].
    constructor.
  - apply (Hlast [ [PStr "max_connections"; PStr "100"] ]
                 (PStr "ssl_passphrase_command") PNone []
                 [ [PStr "max_connections"; PStr "200"] ]); [done|].
    repeat constructor. by intros name' [= <-].
Defined.

(** ** What a computation leaves alone in the store *)

Section FrameLemmas.

Variable h0 : list obj.
Variable b : nat.
Variable protected : loc -> Prop.

Local Abbreviation kept := (kept h0 b protected).
Local Abbreviation writable := (writable b protected).
Local Abbreviation keeps := (keeps h0 b protected).

Lemma keeps_bind {A B} (G : A -> Prop) (G' : B -> Prop) (m : M A)
    (f : A -> M B) :
  keeps G m -> (forall a, G a -> keeps G' (f a)) -> keeps G' (m ≫= f).
Proof.
  intros Hm Hf s Hs. rewrite run_bind.
  destruct (Hm s Hs) as [Hs1 HG].
  destruct (m s) as [[a|e] s1]; cbn [fst snd] in *; [|done].
  exact (Hf a (HG a eq_refl) s1 Hs1).
Qed.

Lemma keeps_weaken {A} (G G' : A -> Prop) (m : M A) :
  (forall a, G a -> G' a) -> keeps G m -> keeps G' m.
Proof.
  intros HGG Hm s Hs. destruct (Hm s Hs) as [Hs1 HG].
  split; [done|]. intros a Ha. by apply HGG, HG.
Qed.

Lemma keeps_same {A} (m : M A) :
  (forall s, heap (m s).2 = heap s) -> keeps (fun _ => True) m.
Proof. intros Hm s Hs. by rewrite Hm. Qed.

Lemma keeps_ret {A} (G : A -> Prop) (a : A) : G a -> keeps G (mret a).
Proof. intros Ha s Hs. split; [done|]. by intros a' [= <-]. Qed.

Lemma keeps_raise {A} (G : A -> Prop) e : keeps G (raise e : M A).
Proof. by intros s Hs. Qed.

Lemma keeps_lift {A} (r : result A) : keeps (fun _ => True) (lift r).
Proof. by apply keeps_same. Qed.

Lemma keeps_send srv ev : keeps (fun _ => True) (send srv ev).
Proof. by apply keeps_same. Qed.

Lemma keeps_cmd srv sql : keeps (fun _ => True) (_cmd srv sql).
Proof. apply keeps_same. intros s. by rewrite run_cmd. Qed.

Lemma keeps_cmd_wo_fetch srv sql :
  keeps (fun _ => True) (_cmd_wo_fetch srv sql).
Proof. apply keeps_same. intros s. by rewrite run_cmd_wo_fetch. Qed.

Lemma keeps_alloc o : keeps writable (alloc o).
Proof.
  intros s [Hb Hs]. cbn. split.
  - split; [rewrite length_app; lia|].
    intros k Hk Hp. rewrite lookup_app_l by lia. by apply Hs.
  - intros a [= <-]. by left.
Qed.

Lemma keeps_update k o : writable (Ref k) -> keeps (fun _ => True) (update k o).
Proof.
  intros Hk s [Hb Hs]. cbn. split; [|done].
  split; [by rewrite length_insert|].
  intros k' Hk' Hp. rewrite list_lookup_insert_ne; [by apply Hs|].
  intros ->. destruct Hk; [lia|done].
Qed.

Lemma keeps_deref v e : keeps (fun lo => v = Ref lo.1) (deref v e).
Proof.
  intros s Hs. unfold deref. destruct v as [x|k]; [done|].
  destruct (heap s !! k); [|done]. split; [done|]. by intros a [= <-].
Qed.

Lemma keeps_for_each {A} (xs : list A) (body : A -> M unit) :
  (forall x, keeps (fun _ => True) (body x)) ->
  keeps (fun _ => True) (for_each xs body).
Proof.
  intros Hbody. induction xs as [|x xs IH]; cbn [for_each].
  - by apply keeps_same.
  - apply (keeps_bind (fun _ => True)); [apply Hbody | by intros _ _].
Qed.

Lemma keeps_try_any {A} (G : A -> Prop) (m h : M A) :
  keeps G m -> keeps G h -> keeps G (try_any m h).
Proof.
  intros Hm Hh s Hs. unfold try_any.
  destruct (Hm s Hs) as [Hs1 HG].
  destruct (m s) as [[a|e] s1]; cbn [fst snd] in *; [done|].
  exact (Hh s1 Hs1).
Qed.

Lemma keeps_try_collector {A} (G : A -> Prop) (m h : M A) :
  keeps G m -> keeps G h -> keeps G (try_collector m h).
Proof.
  intros Hm Hh s Hs. unfold try_collector.
  destruct (Hm s Hs) as [Hs1 HG].
  destruct (m s) as [[a|e] s1]; cbn [fst snd] in *; [done|].
  destruct e; try done. exact (Hh s1 Hs1).
Qed.

Lemma keeps_setitem v k x :
  writable v -> keeps (fun _ => True) (setitem v k x).
Proof.
  intros Hv. unfold setitem. apply (keeps_bind (fun lo => v = Ref lo.1)); [apply keeps_deref|].
  intros [l o] Hl. cbn in Hl. subst v.
  destruct o; [apply keeps_raise | by apply keeps_update].
Qed.

Lemma keeps_list_append v x :
  writable v -> keeps (fun _ => True) (list_append v x).
Proof.
  intros Hv. unfold list_append. apply (keeps_bind (fun lo => v = Ref lo.1)); [apply keeps_deref|].
  intros [l o] Hl. cbn in Hl. subst v.
  destruct o; [by apply keeps_update | apply keeps_raise].
Qed.

Lemma keeps_reading {B} (v : val) (e : exn) (f : loc * obj -> M B) :
  (forall lo s, heap (f lo s).2 = heap s) ->
  keeps (fun _ => True) (deref v e ≫= f).
Proof.
  intros Hf. apply keeps_same. intros s. rewrite run_bind. unfold deref.
  destruct v as [x|k]; [done|]. destruct (heap s !! k); [apply Hf|done].
Qed.

Lemma keeps_getitem v k : keeps (fun _ => True) (getitem v k).
Proof.
  unfold getitem. apply (@keeps_reading val). intros [l o] s.
  destruct o as [|d]; [done|]. by destruct (d !! k).
Qed.

Lemma keeps_getitem_index v i : keeps (fun _ => True) (getitem_index v i).
Proof.
  unfold getitem_index. apply (@keeps_reading val). intros [l o] s.
  by destruct o.
Qed.

Lemma keeps_py_len v : keeps (fun _ => True) (py_len v).
Proof.
  unfold py_len. apply (@keeps_reading nat). intros [l o] s. by destruct o.
Qed.

Lemma keeps_list_items v : keeps (fun _ => True) (list_items v).
Proof.
  unfold list_items. apply (@keeps_reading (list val)). intros [l o] s.
  by destruct o.
Qed.

Lemma keeps_dict_entries v e : keeps (fun _ => True) (dict_entries v e).
Proof.
  unfold dict_entries. apply (@keeps_reading (gmap dkey val)).
  intros [l o] s. by destruct o.
Qed.

Lemma keeps_assert_one_row rows : keeps (fun _ => True) (assert_one_row rows).
Proof.
  unfold assert_one_row. apply (keeps_bind (fun _ => True)); [apply keeps_py_len|].
  intros n _. destruct (n =? 1)%nat; [by apply keeps_ret | apply keeps_raise].
Qed.

(** A protected dictionary that was there from the start is read as it
    was. *)
Lemma keeps_getitem_known (l : loc) (d : gmap dkey val) (k : dkey) (x : val) :
  (l < b)%nat -> protected l ->
  h0 !! l = Some (ODict d) -> d !! k = Some x ->
  keeps (fun v => v = x) (getitem (Ref l) k).
Proof.
  intros Hl Hp Hd Hk s Hs.
  pose proof (eq_trans (proj2 Hs l Hl Hp) Hd) as Hheap.
  rewrite (run_getitem_dict l d k x) by done.
  split; [done|]. by intros a [= <-].
Qed.

Lemma keeps_fill_row row col data :
  writable row -> forall idx, keeps (fun _ => True) (fill_row row col idx data).
Proof.
  intros Hrow. induction data as [|val data IH]; intros idx; cbn [fill_row].
  - by apply keeps_ret.
  - apply (keeps_bind (fun _ => True)); [|intros _ _; apply IH].
    destruct val; try by apply keeps_ret.
    all: apply (keeps_bind (fun _ => True)); [apply keeps_lift|].
    all: intros name _; by apply keeps_setitem.
Qed.

Lemma keeps_get_metrics srv query : keeps writable (_get_metrics srv query).
Proof.
  unfold _get_metrics.
  apply (keeps_bind writable); [apply keeps_alloc|]. intros metrics Hmetrics.
  apply (keeps_bind (fun _ => True)); [apply keeps_cmd|]. intros [ret col] _.
  apply (keeps_bind (fun _ => True)); [|intros _ _; by apply keeps_ret].
  destruct (0 <? length ret)%nat; [|by apply keeps_ret].
  apply keeps_for_each. intros data.
  apply (keeps_bind writable); [apply keeps_alloc|]. intros row Hrow.
  apply (keeps_bind (fun _ => True)); [by apply keeps_fill_row|]. intros _ _.
  by apply keeps_list_append.
Qed.

Lemma keeps_driver_call srv ev :
  keeps (fun _ => True)
    (r ← send srv ev;
     match r with Failed => raise DriverError | _ => mret tt end).
Proof.
  apply (keeps_bind (fun _ => True)); [apply keeps_send|].
  intros r _. destruct r; first [apply keeps_raise | by apply keeps_ret].
Qed.

Lemma keeps_load_stat_statements srv :
  keeps (fun _ => True) (_load_stat_statements srv).
Proof.
  unfold _load_stat_statements.
  apply (keeps_bind (fun _ => True)); [apply keeps_cmd|]. intros [res meta] _.
  apply (keeps_bind (fun _ => True)); [apply keeps_lift|]. intros row _.
  apply (keeps_bind (fun _ => True)); [apply keeps_lift|]. intros count _.
  cbv zeta. destruct (negb _); [|by apply keeps_ret].
  apply keeps_try_any.
  - apply (keeps_bind (fun _ => True)); [apply keeps_driver_call|]. intros _ _.
    apply (keeps_bind (fun _ => True)); [apply keeps_driver_call|]. intros _ _.
    by apply keeps_ret.
  - apply (keeps_bind (fun _ => True)); [apply keeps_driver_call|]. intros _ _.
    by apply keeps_ret.
Qed.

Lemma keeps_get_stat_statements srv :
  keeps writable (_get_stat_statements srv).
Proof.
  unfold _get_stat_statements.
  apply (keeps_bind writable); [apply keeps_alloc|]. intros res Hres.
  apply (keeps_bind (fun _ => True)); [apply keeps_load_stat_statements|]. intros success _.
  destruct success; [|by apply keeps_ret].
  apply keeps_try_collector; [|by apply keeps_ret].
  apply (keeps_bind writable); [apply keeps_get_metrics|]. intros rows Hrows.
  apply (keeps_bind (fun _ => True)); [|intros _ _; by apply keeps_ret].
  apply keeps_try_collector; [apply keeps_cmd_wo_fetch | by apply keeps_ret].
Qed.

End FrameLemmas.

(** [_get_metrics] and [_get_stat_statements] change no object that
    existed before the call: whatever the server replies and whether or
    not they return, every object of the store is found as it was. *)
Theorem reading_changes_no_object (srv : server) (query : string)
    (s : state) (k : loc) (o : obj) :
  heap s !! k = Some o ->
  heap (_get_metrics srv query s).2 !! k = Some o
  /\ heap (_get_stat_statements srv s).2 !! k = Some o.
Proof.
  intros Hk.
  assert (kept (heap s) (length (heap s)) (fun _ => True) (heap s)) as Hs
    by (by split).
  assert (k < length (heap s))%nat as Hlt by (by eapply lookup_lt_Some).
  split.
  - destruct (keeps_get_metrics (heap s) (length (heap s)) (fun _ => True)
                srv query s Hs) as [[_ Hkept] _].
    by rewrite Hkept.
  - destruct (keeps_get_stat_statements (heap s) (length (heap s))
                (fun _ => True) srv s Hs) as [[_ Hkept] _].
    by rewrite Hkept.
Qed.

Lemma reading_changes_no_object_example :
  heap (_get_metrics sample_reply_server "SELECT * FROM pg_stat_database;"
          empty_metrics).2 !! 0%nat = Some (OList [])
  /\ heap (_get_stat_statements sample_reply_server empty_metrics).2 !! 0%nat
     = Some (OList []).
Proof.
  apply (reading_changes_no_object sample_reply_server
           "SELECT * FROM pg_stat_database;" empty_metrics 0%nat (OList [])).
  reflexivity.
Defined.

(** ** The dictionary-shaped collection *)

Lemma only_json_dumps P json_dumps v : only P (py_json_dumps json_dumps v).
Proof. by apply only_same. Qed.

Section CollectMetrics.

Variable srv : server.
Variable int_of_str : string -> result Z.
Variable json_dumps : list obj -> val -> result string.
Variable self : collector.

Lemma no_stat_reset_get_metrics query :
  only not_stat_reset (_get_metrics srv query).
Proof. unfold _get_metrics. sends. by apply only_cmd. Qed.

Lemma no_stat_reset_get_stat_statements :
  only not_stat_reset (_get_stat_statements srv).
Proof.
  unfold _get_stat_statements, _get_metrics, _load_stat_statements,
    raw_execute, commit, rollback.
  sends; first [by apply only_cmd | by apply only_cmd_wo_fetch].
Qed.

Lemma no_stat_reset_global metrics :
  only not_stat_reset (collect_metrics_global srv json_dumps self metrics).
Proof.
  unfold collect_metrics_global.
  pose proof no_stat_reset_get_metrics. pose proof no_stat_reset_get_stat_statements.
  pose proof only_json_dumps.
  sends.
Qed.

Lemma collect_metrics_unfold (s : state) :
  let n := length (heap s) in
  let metrics := Ref (n + 6)%nat in
  collect_metrics srv int_of_str json_dumps self s
  = (collect_metrics_global srv json_dumps self metrics;;
     of_local ← getitem metrics "local";
     _aggregated_local_stats srv local_categories of_local;;
     of_local ← getitem metrics "local";
     _raw_local_stats srv local_categories of_local;;
     of_local ← getitem metrics "local";
     _collect_activity_stats srv int_of_str of_local;;
     _cmd_wo_fetch srv stat_reset_sql;;
     mret metrics) (metrics_display s).
Proof.
  cbv zeta. unfold collect_metrics.
  do 7 (rewrite run_bind, run_alloc; cbn [heap trace]).
  rewrite !length_app. cbn [length].
  replace (length (heap s) + 1 + 1)%nat with (length (heap s) + 2)%nat by lia.
  replace (length (heap s) + 2 + 1)%nat with (length (heap s) + 3)%nat by lia.
  replace (length (heap s) + 3 + 1)%nat with (length (heap s) + 4)%nat by lia.
  replace (length (heap s) + 4 + 1)%nat with (length (heap s) + 5)%nat by lia.
  replace (length (heap s) + 5 + 1)%nat with (length (heap s) + 6)%nat by lia.
  unfold metrics_display. cbv zeta. by rewrite <- !app_assoc.
Qed.

Lemma keeps_json_dumps h0 b protected v :
  keeps h0 b protected (fun _ => True) (py_json_dumps json_dumps v).
Proof. by apply keeps_same. Qed.

(** The first part of [collect_metrics] leaves [metrics] and
    [metrics["local"]] as they were displayed. *)
Lemma keeps_global (s : state) :
  let n := length (heap s) in
  keeps (heap (metrics_display s)) (n + 7)%nat
    (fun k => k = (n + 5)%nat \/ k = (n + 6)%nat) (fun _ => True)
    (collect_metrics_global srv json_dumps self (Ref (n + 6)%nat)).
Proof.
  intros n. unfold collect_metrics_global.
  set (h0 := heap (metrics_display s)).
  set (protected := fun k => k = (n + 5)%nat \/ k = (n + 6)%nat).
  assert (keeps h0 (n + 7)%nat protected (fun v => v = Ref n)
            (getitem (Ref (n + 6)%nat) "global")) as Hglobal.
  { eapply (keeps_getitem_known h0 (n + 7)%nat protected (n + 6)%nat).
    - lia.
    - by right.
    - subst h0 n. unfold metrics_display. cbn [heap]. by rewrite lookup_tail.
    - by rewrite lookup_insert_eq. }
  assert (writable (n + 7)%nat protected (Ref n)) as Hn.
  { right. unfold protected. lia. }
  apply (keeps_bind _ _ _ (fun _ => True)).
  { apply keeps_for_each. intros view. cbv zeta.
    apply (keeps_bind _ _ _ (writable (n + 7)%nat protected));
      [apply keeps_get_metrics|]. intros rows _.
    apply (keeps_bind _ _ _ (fun _ => True));
      [apply keeps_assert_one_row|]. intros _ _.
    apply (keeps_bind _ _ _ (fun _ => True));
      [apply keeps_getitem_index|]. intros row _.
    apply (keeps_bind _ _ _ (fun v => v = Ref n)); [exact Hglobal|].
    intros of_global ->. by apply keeps_setitem. }
  intros _ _.
  apply (keeps_bind _ _ _ (writable (n + 7)%nat protected));
    [apply keeps_get_stat_statements|]. intros statements _.
  apply (keeps_bind _ _ _ (fun _ => True)); [apply keeps_json_dumps|].
  intros dumped _.
  apply (keeps_bind _ _ _ (writable (n + 7)%nat protected)); [apply keeps_alloc|].
  intros blank _.
  apply (keeps_bind _ _ _ (fun v => v = Ref n)); [exact Hglobal|].
  intros of_global ->. by apply keeps_setitem.
Qed.

Lemma aggregated_local_stats_database (l : loc) (entries : gmap dkey val)
    (data : val) (s : state) :
  heap s !! l = Some (ODict entries) ->
  entries !! KStr "database" = Some data ->
  _aggregated_local_stats srv local_categories (Ref l) s
  = (Raise (KeyError (KStr "pg_stat_database")), s).
Proof.
  intros Hl Hdata. unfold _aggregated_local_stats, for_each_item.
  rewrite run_bind, run_bind, (run_dict_entries l entries) by done.
  unfold local_categories. cbn [for_each]. rewrite run_bind.
  by rewrite Hdata.
Qed.

(** [collect_metrics] never returns and never resets the statistics: its
    class dictionary [PG_STAT_LOCAL_QUERY] has no query for the database
    views, so that, once the global views and the statements are read,
    [_aggregated_local_stats] raises [KeyError] on the first view of the
    first category, before any local statistic is read. *)
Theorem collect_metrics_never_returns (s : state) :
  let n := length (heap s) in
  let out := collect_metrics srv int_of_str json_dumps self s in
  let global :=
    collect_metrics_global srv json_dumps self (Ref (n + 6)%nat)
      (metrics_display s) in
  out = (match global.1 with
         | Ok _ => Raise (KeyError (KStr "pg_stat_database"))
         | Raise e => Raise e
         end, global.2)
  /\ exists evs, trace out.2 = trace s ++ evs
                 /\ forallb not_stat_reset evs = true.
Proof.
  intros n out global.
  assert (out = (match global.1 with
                 | Ok _ => Raise (KeyError (KStr "pg_stat_database"))
                 | Raise e => Raise e
                 end, global.2)) as Hout.
  { subst out. rewrite collect_metrics_unfold. fold n. rewrite run_bind.
    fold global.
    destruct (keeps_global s (metrics_display s)) as [Hkept _].
    { split; [unfold metrics_display; cbn [heap]; rewrite length_app; cbn; lia|]. done. }
    fold n in Hkept. fold global in Hkept.
    destruct global as [[[]|e] s2]; [|done]. cbn [fst snd] in *.
    destruct Hkept as [Hb Hkept].
    rewrite run_bind.
    erewrite (run_getitem_dict (n + 6)%nat);
      [| rewrite Hkept; [unfold metrics_display; cbn [heap]; subst n; by rewrite lookup_tail | lia | by right]
       | by rewrite lookup_insert_ne, lookup_singleton_eq ].
    rewrite run_bind.
    erewrite aggregated_local_stats_database;
      [ done
      | rewrite Hkept; [unfold metrics_display; cbn [heap]; subst n; by rewrite lookup_tail | lia | by left]
      | by rewrite lookup_insert_eq ]. }
  split; [done|]. rewrite Hout. cbn [snd].
  destruct (no_stat_reset_global (Ref (n + 6)%nat) (metrics_display s))
    as (evs & Ht & Hevs).
  exists evs. by split.
Qed.

End CollectMetrics.

Lemma collect_metrics_never_returns_example :
  (collect_metrics healthy_server no_int_of_str sample_json_dumps
     sample_collector empty_store).1
  = Raise (KeyError (KStr "pg_stat_database")).
Proof.
  destruct (collect_metrics_never_returns healthy_server no_int_of_str
              sample_json_dumps sample_collector empty_store) as [Hout _].
  rewrite Hout. vm_compute. reflexivity.
Defined.

(** ** Statement statistics *)

Lemma forallb_nothing (evs : list event) : forallb nothing evs = true -> evs = [].
Proof. by destruct evs. Qed.

Section Statements.

Variable srv : server.

Lemma get_metrics_sends (query : string) (s : state) :
  trace (_get_metrics srv query s).2 = trace s ++ [EFetch query]
  /\ forall v, (_get_metrics srv query s).1 = Ok v ->
       v = Ref (length (heap s))
       /\ exists rows col, srv (trace s) (EFetch query) = Rows rows col.
Proof.
  unfold _get_metrics. rewrite run_bind, run_alloc, run_bind, run_cmd.
  cbn [heap trace].
  destruct (srv (trace s) (EFetch query)) as [| |rows col]; [done..|].
  rewrite run_bind.
  match goal with |- context [?loop ?st] =>
    match type of loop with M unit =>
      assert (only nothing loop) as Hloop
    end
  end.
  { destruct (0 <? length rows)%nat; sends. }
  match goal with |- context [?loop ?st] =>
    match type of loop with M unit =>
      destruct (Hloop st) as (evs & Ht & ->%forallb_nothing);
      destruct (loop st) as [[[]|e] s2]
    end
  end; cbn [fst snd trace] in *; rewrite ?run_ret; cbn [fst snd];
    rewrite Ht, app_nil_r.
  - split; [done|]. intros v [= <-]. split; [done|]. by eexists _, _.
  - done.
Qed.

Lemma load_stat_statements_sends : only not_exec (_load_stat_statements srv).
Proof.
  unfold _load_stat_statements, raw_execute, commit, rollback.
  sends. by apply only_cmd.
Qed.

Lemma same_heap_bind {A B} (m : M A) (f : A -> M B) :
  (forall s, heap (m s).2 = heap s) ->
  (forall a s, heap (f a s).2 = heap s) ->
  forall s, heap ((m ≫= f) s).2 = heap s.
Proof.
  intros Hm Hf s. rewrite run_bind. specialize (Hm s).
  destruct (m s) as [[a|e] s1]; cbn [snd] in *; [|done].
  by rewrite Hf.
Qed.

Lemma same_heap_try_any {A} (m h : M A) :
  (forall s, heap (m s).2 = heap s) ->
  (forall s, heap (h s).2 = heap s) ->
  forall s, heap (try_any m h s).2 = heap s.
Proof.
  intros Hm Hh s. unfold try_any. specialize (Hm s).
  destruct (m s) as [[a|e] s1]; cbn [snd] in *; [done|].
  by rewrite Hh.
Qed.

Lemma same_heap_driver_call ev (s : state) :
  heap ((r ← send srv ev;
         match r with Failed => raise DriverError | _ => mret tt end) s).2
  = heap s.
Proof. rewrite run_bind. unfold send. by destruct (srv (trace s) ev). Qed.

Lemma load_stat_statements_heap (s : state) :
  heap (_load_stat_statements srv s).2 = heap s.
Proof.
  revert s. unfold _load_stat_statements.
  apply same_heap_bind; [intros s; by rewrite run_cmd|]. intros [res meta].
  apply same_heap_bind; [done|]. intros row.
  apply same_heap_bind; [done|]. intros count.
  cbv zeta. destruct (negb _); [|done].
  apply same_heap_try_any.
  - apply same_heap_bind; [apply same_heap_driver_call|]. intros _.
    apply same_heap_bind; [apply same_heap_driver_call|]. by intros _.
  - apply same_heap_bind; [apply same_heap_driver_call|]. by intros _.
Qed.

Lemma not_exec_no_reset (evs : list event) (sql : string) :
  forallb not_exec evs = true -> EExec sql ∈ evs -> False.
Proof.
  intros Hall Hin. rewrite forallb_forall in Hall.
  apply list_elem_of_In in Hin. by specialize (Hall _ Hin).
Qed.

Lemma raises_get_stat_statements :
  raises (fails_only_on check_module_sql) (_get_stat_statements srv).
Proof.
  unfold _get_stat_statements.
  apply raises_bind; [by intros s e|]. intros res.
  apply raises_bind; [apply raises_load_stat_statements|].
  intros [|]; [|apply raises_ret].
  apply raises_try_collector; [|apply raises_ret].
  intros e Hne sql' ->. by destruct (Hne sql').
Qed.

(** What [_get_stat_statements] does with a failure: a failing read of the
    statements or a failing reset never reaches the caller; the reset of
    the statement statistics is sent only as the last statement, directly
    after a read of the statements that the server answered; and whenever
    the reset was sent, successful or not, the rows that were read are
    returned. *)
Theorem get_stat_statements_outcomes (s : state) :
  let out := _get_stat_statements srv s in
  (forall sql, out.1 = Raise (PostgresCollectorException sql) ->
               sql = check_module_sql)
  /\ exists evs,
       trace out.2 = trace s ++ evs
       /\ (EExec stat_statements_reset_sql ∈ evs ->
           exists pre rows col,
             evs = pre ++ [ EFetch PG_STAT_STATEMENTS_EDA_SQL;
                            EExec stat_statements_reset_sql ]
             /\ forallb not_exec pre = true
             /\ srv (trace s ++ pre) (EFetch PG_STAT_STATEMENTS_EDA_SQL)
                = Rows rows col
             /\ out.1 = Ok (Ref (S (length (heap s))))).
Proof.
  intros out. split.
  { intros sql H. exact (raises_get_stat_statements s _ H sql eq_refl). }
  assert (out = _get_stat_statements srv s) as Hrun by done. clearbody out.
  unfold _get_stat_statements in Hrun.
  rewrite run_bind, run_alloc, run_bind in Hrun.
  set (s1 := {| heap := heap s ++ [OList []]; trace := trace s |}) in Hrun.
  destruct (load_stat_statements_sends s1) as (evs1 & Ht1 & Hevs1).
  pose proof (load_stat_statements_heap s1) as Hh1.
  change (trace s1) with (trace s) in Ht1.
  change (heap s1) with (heap s ++ [OList []]) in Hh1.
  destruct (_load_stat_statements srv s1) as [[[|]|e] s2];
    cbn [fst snd trace heap] in *.
  2,3: subst out; exists evs1; split; [done|];
       intros Hin; by destruct (not_exec_no_reset _ _ Hevs1 Hin).
  unfold try_collector at 1 in Hrun. rewrite run_bind in Hrun.
  destruct (get_metrics_sends PG_STAT_STATEMENTS_EDA_SQL s2) as [Ht2 Hok].
  destruct (_get_metrics srv PG_STAT_STATEMENTS_EDA_SQL s2) as [[rows|e] s3];
    cbn [fst snd] in *.
  - destruct (Hok rows eq_refl) as (-> & rws & col & Hreply).
    rewrite run_bind in Hrun. unfold try_collector in Hrun.
    rewrite run_cmd_wo_fetch in Hrun.
    exists (evs1 ++ [EFetch PG_STAT_STATEMENTS_EDA_SQL;
                     EExec stat_statements_reset_sql]).
    assert (Ref (length (heap s2)) = Ref (S (length (heap s)))) as Hres.
    { rewrite Hh1, length_app. cbn. f_equal. lia. }
    rewrite Hres in Hrun. rewrite Ht1 in Hreply.
    assert (trace out.2
            = trace s ++ evs1 ++ [EFetch PG_STAT_STATEMENTS_EDA_SQL;
                                  EExec stat_statements_reset_sql]
            /\ out.1 = Ok (Ref (S (length (heap s))))) as [Htr Hout].
    { destruct (srv (trace s3) (EExec stat_statements_reset_sql));
        subst out; cbn [fst snd trace heap mret M_ret ret];
        rewrite Ht2, Ht1; by rewrite <- !app_assoc. }
    split; [done|]. intros _. by exists evs1, rws, col.
  - exists (evs1 ++ [EFetch PG_STAT_STATEMENTS_EDA_SQL]).
    assert (EExec stat_statements_reset_sql
              ∈ evs1 ++ [EFetch PG_STAT_STATEMENTS_EDA_SQL] -> False) as Hno.
    { intros [Hin|Hin]%elem_of_app; [by eapply not_exec_no_reset|].
      by apply list_elem_of_singleton in Hin. }
    assert (trace out.2
            = trace s ++ evs1 ++ [EFetch PG_STAT_STATEMENTS_EDA_SQL]) as Htr.
    { destruct e; subst out; cbn [fst snd trace heap mret M_ret ret];
        rewrite Ht2, Ht1; by rewrite <- !app_assoc. }
    by split.
Qed.

End Statements.

(** ** The collector object *)

Lemma split_char_free (c : ascii) (s : string) :
  has_char c s = false -> split_char c s = [s].
Proof.
  induction s as [|a s IH]; [done|]. cbn [has_char split_char].
  intros [Ha Hs]%orb_false_elim. apply bool_decide_eq_false in Ha.
  rewrite decide_False by done. by rewrite IH.
Qed.

Lemma split_char_first (c : ascii) (s rest : string) :
  has_char c s = false ->
  split_char c (s +:+ String c rest) = s :: split_char c rest.
Proof.
  induction s as [|a s IH]; simpl.
  - intros _. by rewrite decide_True.
  - intros [Ha Hs]%orb_false_elim. apply bool_decide_eq_false in Ha.
    rewrite decide_False by done. by rewrite IH.
Qed.

Lemma string_app_assoc (a b c : string) :
  (a +:+ b) +:+ c = a +:+ (b +:+ c).
Proof.
  induction a as [|x a IH]; [done|].
  change (String x ((a +:+ b) +:+ c) = String x (a +:+ (b +:+ c))).
  by rewrite IH.
Qed.

Lemma split_char_cons (c : ascii) (s : string) :
  exists w ws, split_char c s = w :: ws.
Proof.
  destruct s as [|a s]; [by eexists _, _|]. cbn [split_char].
  destruct (decide (a = c)); [by eexists _, _|].
  destruct (split_char c s); by eexists _, _.
Qed.

(** The version the collector compares is read from the first two
    dot-separated parts of the version string alone: a third part changes
    neither the views nor the statement that are chosen, while
    [get_version] still gives the whole string; a version without a dot is
    read as a whole. *)
Theorem init_reads_major_minor (py_float : string -> result Q)
    (major minor rest : string) :
  has_char dot major = false -> has_char dot minor = false ->
  let short := major +:+ "." +:+ minor in
  let long := short +:+ "." +:+ rest in
  version_float py_float long = py_float short
  /\ version_float py_float short = py_float short
  /\ version_float py_float major = py_float major
  /\ forall self,
       __init__ py_float long = Ok self ->
       get_version self = long
       /\ exists self',
            __init__ py_float short = Ok self'
            /\ PG_STAT_VIEWS self = PG_STAT_VIEWS self'
            /\ PG_STAT_STATEMENTS_SQL self = PG_STAT_STATEMENTS_SQL self'.
Proof.
  intros Hmajor Hminor short long.
  assert (version_float py_float long = py_float short) as Hlong.
  { unfold version_float, long, short.
    rewrite string_app_assoc.
    change (("." +:+ minor) +:+ "." +:+ rest)
      with (String dot (minor +:+ String dot rest)).
    rewrite !split_char_first by done.
    destruct (split_char_cons dot rest) as (w & ws & ->). done. }
  assert (version_float py_float short = py_float short) as Hshort.
  { unfold version_float, short.
    change ("." +:+ minor) with (String dot minor).
    rewrite split_char_first, split_char_free by done. done. }
  split; [done|]. split; [done|]. split.
  { unfold version_float. by rewrite split_char_free. }
  intros self. unfold __init__. rewrite Hlong, Hshort.
  destruct (py_float short) as [v|]; [|done].
  cbn [mbind result_bind]. intros [= <-]. split; [done|].
  by eexists.
Qed.

Lemma init_reads_major_minor_example :
  version_float sample_float "14.2.1" = sample_float "14.2"
  /\ version_float sample_float "14.2" = sample_float "14.2"
  /\ version_float sample_float "14" = sample_float "14"
  /\ forall self,
       __init__ sample_float "14.2.1" = Ok self ->
       get_version self = "14.2.1"
       /\ exists self',
            __init__ sample_float "14.2" = Ok self'
            /\ PG_STAT_VIEWS self = PG_STAT_VIEWS self'
            /\ PG_STAT_STATEMENTS_SQL self = PG_STAT_STATEMENTS_SQL self'.
Proof.
  apply (init_reads_major_minor sample_float "14" "2" "1"); reflexivity.
Defined.

(** ** More on row normalisation *)

Lemma split_ws_word_app (w t : string) :
  word w -> split_ws (w +:+ String space t) = w :: split_ws t.
Proof.
  intros [Hne Hw]. induction w as [|a w IH]; [done|].
  cbn [no_ws] in Hw. apply andb_true_iff in Hw as [Ha Hw].
  apply negb_true_iff in Ha.
  change (String a w +:+ String space t) with (String a (w +:+ String space t)).
  cbn [split_ws]. rewrite Ha.
  destruct w as [|b w].
  - change (EmptyString +:+ String space t) with (String space t).
    by change (py_isspace space) with true.
  - change (String b w +:+ String space t)
      with (String b (w +:+ String space t)) in *.
    cbn [no_ws] in Hw. pose proof Hw as Hw'.
    apply andb_true_iff in Hw' as [Hb _]. apply negb_true_iff in Hb.
    rewrite Hb. by rewrite IH.
Qed.

Lemma split_ws_word (w : string) : word w -> split_ws w = [w].
Proof.
  intros [Hne Hw]. induction w as [|a w IH]; [done|].
  cbn [no_ws] in Hw. apply andb_true_iff in Hw as [Ha Hw].
  apply negb_true_iff in Ha. cbn [split_ws]. rewrite Ha.
  destruct w as [|b w]; [done|].
  cbn [no_ws] in Hw. pose proof Hw as Hw'.
  apply andb_true_iff in Hw' as [Hb _]. apply negb_true_iff in Hb.
  rewrite Hb. by rewrite IH.
Qed.

Lemma split_ws_join (ws : list string) :
  Forall word ws -> split_ws (String.concat " " ws) = ws.
Proof.
  induction 1 as [|w ws Hw Hws IH]; [done|].
  cbn [String.concat]. destruct ws as [|w' ws'].
  - by apply split_ws_word.
  - change (" " +:+ ?t) with (String space t).
    change (w +:+ " " +:+ String.concat " " (w' :: ws'))
      with (w +:+ String space (String.concat " " (w' :: ws'))).
    by rewrite split_ws_word_app, IH.
Qed.

Lemma remove_char_spaces_only (c : ascii) (s : string) :
  py_isspace c = true -> c <> space -> spaces_only s = true ->
  remove_char c s = s.
Proof.
  intros Hc Hne. induction s as [|a s IH]; [done|].
  cbn [spaces_only remove_char]. intros [Ha Hs]%andb_true_iff.
  rewrite decide_False; [by rewrite IH|].
  intros ->. apply orb_true_iff in Ha as [Ha|Ha].
  - by apply bool_decide_eq_true in Ha.
  - by rewrite Hc in Ha.
Qed.

Lemma clean_clean (s : string) : clean (clean s) = clean s.
Proof.
  destruct (clean_normal_form s) as (ws & Hclean & Hws & _ & Hspaces).
  unfold clean at 1.
  rewrite (remove_char_spaces_only tab), (remove_char_spaces_only newline)
    by done.
  by rewrite Hclean, split_ws_join.
Qed.

Lemma clean_no_ws (s : string) : no_ws s = true -> clean s = s.
Proof.
  intros Hs. unfold clean.
  rewrite (remove_char_spaces_only tab), (remove_char_spaces_only newline);
    try done; try by apply no_ws_spaces_only.
  destruct s as [|a s]; [done|]. by rewrite split_ws_word.
Qed.

(** Normalising is idempotent: a value that was normalised is left as it
    is by another normalisation.  (A timestamp becomes its ISO form, which
    holds no whitespace.) *)
Theorem normalize_idempotent (val : pyval) :
  (forall iso, val = PDatetime iso -> no_ws iso = true) ->
  normalize (normalize val) = normalize val.
Proof.
  intros Hiso. destruct val as [| | | |s|iso|]; try done.
  - cbn [normalize]. f_equal. apply clean_clean.
  - cbn [normalize]. f_equal. apply clean_no_ws. by apply Hiso.
Qed.

Lemma normalize_idempotent_example :
  normalize (normalize (PDatetime "2023-05-12T19:48:47"))
  = normalize (PDatetime "2023-05-12T19:48:47").
Proof.
  apply (normalize_idempotent (PDatetime "2023-05-12T19:48:47")).
  intros iso [= <-]. reflexivity.
Defined.

(** ** Rows that are longer than the description of the columns *)

Lemma fill_row_outcome (r : loc) (col : list string) (data : list pyval) :
  forall (idx : nat) (s : state) (d : gmap dkey val),
    heap s !! r = Some (ODict d) ->
    exists d',
      fill_row (Ref r) col idx data s
      = (if described col idx data then Ok tt else Raise IndexError,
         {| heap := <[r := ODict d']> (heap s); trace := trace s |}).
Proof.
  induction data as [|val data IH]; intros idx s d Hr.
  - exists d. cbn [fill_row described]. rewrite list_insert_id by done.
    by destruct s.
  - assert (r < length (heap s))%nat as Hlt by (by eapply lookup_lt_Some).
    assert (forall x,
      exists d',
        ((name ← lift (index col idx); setitem (Ref r) (KStr name) (Sc x));;
         fill_row (Ref r) col (S idx) data) s
        = (if bool_decide (idx < length col)%nat && described col (S idx) data
           then Ok tt else Raise IndexError,
           {| heap := <[r := ODict d']> (heap s); trace := trace s |})) as Hset.
    { intros x. rewrite run_bind, run_bind, run_lift. unfold index.
      destruct (col !! idx) as [name|] eqn:Hname.
      - rewrite bool_decide_eq_true_2 by (by eapply lookup_lt_Some).
        rewrite (run_setitem_dict r d) by done.
        destruct (IH (S idx) {| heap := <[r := ODict (<[KStr name := Sc x]> d)]> (heap s);
                                trace := trace s |}
                     (<[KStr name := Sc x]> d)) as [d' ->].
        { cbn [heap]. by apply list_lookup_insert_eq. }
        exists d'. cbn [heap trace andb]. by rewrite list_insert_insert_eq.
      - rewrite bool_decide_eq_false_2 by (by apply Nat.nlt_ge, lookup_ge_None).
        exists d. cbn [andb]. rewrite list_insert_id by done. by destruct s. }
    cbn [fill_row described].
    destruct val; try apply Hset.
    rewrite run_bind, run_ret. cbn [andb]. by apply (IH (S idx) s d).
Qed.

Lemma rows_loop_outcome (n : loc) (col : list string)
    (rows : list (list pyval)) :
  forall (s : state) (items : list val),
    heap s !! n = Some (OList items) ->
    exists h' items',
      for_each rows (fun data =>
        row ← alloc (ODict ∅);
        fill_row row col 0 data;;
        list_append (Ref n) row) s
      = (if forallb (described col 0) rows then Ok tt else Raise IndexError,
         {| heap := h'; trace := trace s |})
      /\ h' !! n = Some (OList items').
Proof.
  induction rows as [|data rows IH]; intros s items Hn.
  - exists (heap s), items. cbn [for_each forallb]. split; [by destruct s|done].
  - assert (n < length (heap s))%nat as Hlt by (by eapply lookup_lt_Some).
    cbn [for_each forallb]. rewrite run_bind, run_bind, run_alloc, run_bind.
    destruct (fill_row_outcome (length (heap s)) col data 0
                {| heap := heap s ++ [ODict ∅]; trace := trace s |} ∅)
      as [d' ->].
    { cbn [heap]. by rewrite list_lookup_middle. }
    cbn [heap trace].
    assert (<[length (heap s) := ODict d']> (heap s ++ [ODict ∅]) !! n
            = Some (OList items)) as Hn'.
    { rewrite list_lookup_insert_ne by lia. by rewrite lookup_app_l. }
    destruct (described col 0 data).
    + rewrite (run_list_append_list n items) by done. cbn [heap trace andb].
      eapply (IH {| heap := _; trace := trace s |}). cbn [heap].
      apply list_lookup_insert_eq. rewrite length_insert, length_app. lia.
    + cbn [andb]. by eexists _, _.
Qed.

(** The outcome of [_get_metrics]: a statement that fails raises
    [PostgresCollectorException]; a row with a cell that is not null and
    lies beyond the described columns raises [IndexError]; otherwise the
    new list is returned.  Null cells need no column. *)
Theorem get_metrics_outcomes (srv : server) (query : string) (s : state) :
  (_get_metrics srv query s).1
  = match srv (trace s) (EFetch query) with
    | Rows ret col =>
        if forallb (described col 0) ret
        then Ok (Ref (length (heap s)))
        else Raise IndexError
    | _ => Raise (PostgresCollectorException query)
    end.
Proof.
  unfold _get_metrics. rewrite run_bind, run_alloc, run_bind, run_cmd.
  cbn [heap trace].
  destruct (srv (trace s) (EFetch query)) as [| |ret col]; [done..|].
  rewrite run_bind.
  destruct ret as [|data ret]; [done|].
  change (0 <? length (data :: ret))%nat with true. cbv iota.
  destruct (rows_loop_outcome (length (heap s)) col (data :: ret)
              {| heap := heap s ++ [OList []];
                 trace := trace s ++ [EFetch query] |} [])
    as (h' & items' & -> & _).
  { cbn [heap]. by rewrite list_lookup_middle. }
  by destruct (forallb _ _).
Qed.

(** ** The result of the index statistics *)

Lemma map_result_length {A B} (f : A -> result B) (xs : list A) (ys : list B) :
  map_result f xs = Ok ys -> length ys = length xs.
Proof.
  revert ys. induction xs as [|x xs IH]; intros ys; cbn [map_result].
  - by intros [= <-].
  - destruct (f x); [|done]. destruct (map_result f xs) as [ys'|]; [|done].
    intros [= <-]. cbn. f_equal. by apply IH.
Qed.

Lemma map_result_pairs (res sizes : list (list pyval)) :
  map_result (fun t => match index t 0, index t 1 with
                       | Ok a, Ok b => Ok [a; b]
                       | Raise e, _ => Raise e
                       | _, Raise e => Raise e
                       end) res = Ok sizes ->
  sizes = take 2 <$> res.
Proof.
  revert sizes. induction res as [|t res IH]; intros sizes; cbn [map_result].
  - by intros [= <-].
  - destruct t as [|a [|b t]]; [done..|]. cbn [index lookup list_lookup].
    destruct (map_result _ res) as [sizes'|]; [|done].
    intros [= <-]. cbn. f_equal. by apply IH.
Qed.

Lemma index_stats_loop_dom srv items list_str (m0 m : gmap string table) s s' :
  index_stats_loop srv items list_str m0 s = (Ok m, s') ->
  heap s' = heap s
  /\ dom m = dom m0 ∪ list_to_set items.*1
  /\ forall k, k ∉ items.*1 -> m !! k = m0 !! k.
Proof.
  revert m0 s. induction items as [|[field tpl] items IH]; intros m0 s.
  - cbn. intros [= <- <-]. split; [done|]. split; [|done].
    by rewrite (right_id_L ∅ (∪)).
  - cbn [index_stats_loop]. rewrite run_bind, run_cmd.
    destruct (srv (trace s) (EFetch (tpl list_str))) as [| |res meta]; [done..|].
    intros (Hh & Hdom & Hother)%IH. cbn [heap] in Hh.
    split; [done|]. split.
    + rewrite Hdom, dom_insert_L. cbn [fmap list_fmap fst list_to_set].
      apply set_eq. intros x. set_unfold. tauto.
    + intros k [Hk Hks]%not_elem_of_cons. cbn [fst] in Hk.
      rewrite Hother by done. by rewrite lookup_insert_ne.
Qed.

Lemma index_metrics_keys (m : gmap string table) (t : table)
    (a b c : string -> string) :
  dom m = dom (∅ : gmap string table)
          ∪ list_to_set (INDEX_STATS_SQLS a b c).*1 ->
  dom (<["indexes_size" := t]> m)
  = {[ "pg_stat_user_indexes_all_fields";
       "pg_statio_user_indexes_all_fields";
       "pg_index_all_fields"; "indexes_size" ]}.
Proof.
  intros Hdom. rewrite dom_insert_L, Hdom, dom_empty_L.
  unfold INDEX_STATS_SQLS. cbn [fmap list_fmap fst list_to_set].
  apply set_eq. intros x. set_unfold. tauto.
Qed.

Section IndexMetrics.

Variable srv : server.
Variable repr_other str_other : pyval -> string.
Variable TOP_N_LARGEST_INDEXES_SQL_TEMPLATE : string -> Z -> string.
Variable PG_STAT_USER_INDEXES_TEMPLATE : string -> string.
Variable PG_STATIO_USER_INDEXES_TEMPLATE : string -> string.
Variable PG_INDEX_TEMPLATE : string -> string.

(** What [collect_index_metrics] returns: a dictionary with exactly the
    three statistics and ["indexes_size"], where the sizes are the first
    two cells of every row of the ranking, in its order; the store is left
    alone. *)
Theorem index_metrics_result (info : target_table_info) (n : Z) (s : state)
    (res : list (list pyval)) (meta : list string) :
  srv (trace s)
    (EFetch (TOP_N_LARGEST_INDEXES_SQL_TEMPLATE (target_tables_str info) n))
  = Rows res meta ->
  let out :=
    collect_index_metrics srv repr_other str_other
      TOP_N_LARGEST_INDEXES_SQL_TEMPLATE PG_STAT_USER_INDEXES_TEMPLATE
      PG_STATIO_USER_INDEXES_TEMPLATE PG_INDEX_TEMPLATE info n s in
  forall m, out.1 = Ok m ->
    heap out.2 = heap s
    /\ dom m = {[ "pg_stat_user_indexes_all_fields";
                  "pg_statio_user_indexes_all_fields";
                  "pg_index_all_fields"; "indexes_size" ]}
    /\ m !! "indexes_size"
       = Some {| columns := ["indexrelid"; "index_size"];
                 rows := take 2 <$> res |}
    /\ Forall (fun row => length row = 2%nat) (take 2 <$> res).
Proof.
  intros Hreply out m. subst out. unfold collect_index_metrics. cbv zeta.
  rewrite run_bind, run_cmd, Hreply. rewrite run_bind, run_lift.
  destruct (map_result (fun t => index t 0) res) as [ids|] eqn:Hids; [|done].
  rewrite run_bind.
  destruct (index_stats_loop srv _ _ _ _) as [[m1|] s1] eqn:Hloop; [|done].
  apply index_stats_loop_dom in Hloop as (Hh & Hdom & _). cbn [heap] in Hh.
  destruct ids as [|id ids].
  - apply map_result_length in Hids. destruct res; [|done].
    rewrite run_ret. cbn [fst snd]. intros [= <-].
    split; [done|]. split; [exact (index_metrics_keys _ _ _ _ _ Hdom)|].
    split; [by rewrite lookup_insert_eq|done].
  - rewrite run_bind, run_lift.
    match goal with
    | |- context [match ?x with Ok _ => mret _ _ | Raise _ => _ end] =>
        destruct x as [sizes|] eqn:Hsizes; [|done]
    end.
    rewrite run_ret. cbn [fst snd]. intros [= <-].
    pose proof (map_result_pairs _ _ Hsizes) as ->.
    split; [done|]. split; [|split].
    + rewrite insert_insert_eq. exact (index_metrics_keys _ _ _ _ _ Hdom).
    + by rewrite lookup_insert_eq.
    + clear -Hsizes. revert Hsizes. generalize (take 2 <$> res) at 1.
      induction res as [|t res IH]; intros sizes; [done|].
      cbn [map_result]. destruct t as [|a [|b t]]; [done..|].
      cbn [index lookup list_lookup].
      destruct (map_result _ res) as [sizes'|] eqn:Hs; [|done].
      intros _. constructor; [done|]. by eapply IH.
Qed.

End IndexMetrics.

Lemma index_metrics_result_example :
  exists m,
    (collect_index_metrics two_tables_server no_render no_render
       top_indexes_sql (index_view_sql "pg_stat_user_indexes")
       (index_view_sql "pg_statio_user_indexes") (index_view_sql "pg_index")
       two_tables_info 2 empty_store).1 = Ok m
    /\ heap (collect_index_metrics two_tables_server no_render no_render
               top_indexes_sql (index_view_sql "pg_stat_user_indexes")
               (index_view_sql "pg_statio_user_indexes")
               (index_view_sql "pg_index") two_tables_info 2 empty_store).2
       = heap empty_store
    /\ dom m = {[ "pg_stat_user_indexes_all_fields";
                  "pg_statio_user_indexes_all_fields";
                  "pg_index_all_fields"; "indexes_size" ]}
    /\ m !! "indexes_size"
       = Some {| columns := ["indexrelid"; "index_size"];
                 rows := take 2 <$> [[PInt 16384; PInt 90112];
                                     [PInt 16390; PInt 8192]] |}
    /\ Forall (fun row => length row = 2%nat)
         (take 2 <$> [[PInt 16384; PInt 90112]; [PInt 16390; PInt 8192]]).
Proof.
  assert (exists m,
            (collect_index_metrics two_tables_server no_render no_render
               top_indexes_sql (index_view_sql "pg_stat_user_indexes")
               (index_view_sql "pg_statio_user_indexes")
               (index_view_sql "pg_index") two_tables_info 2 empty_store).1
            = Ok m) as [m Hm]
    by (vm_compute; eexists; reflexivity).
  exists m. split; [exact Hm|].
  apply (index_metrics_result two_tables_server no_render no_render
           top_indexes_sql (index_view_sql "pg_stat_user_indexes")
           (index_view_sql "pg_statio_user_indexes") (index_view_sql "pg_index")
           two_tables_info 2 empty_store
           [[PInt 16384; PInt 90112]; [PInt 16390; PInt 8192]]
           ["relid"; "size"]); [reflexivity | exact Hm].
Defined.

(** ** Bloat ratios per table *)

Section Odict.

Context {V : Type}.

Lemma odict_set_keys (k : pyval) (v : V) (d : odict V) :
  key_of <$> (odict_set k v d).*1
  = if decide (key_of k ∈ key_of <$> d.*1) then key_of <$> d.*1
    else (key_of <$> d.*1) ++ [key_of k].
Proof.
  induction d as [|[k' v'] d IH]; [done|].
  cbn [odict_set fmap list_fmap fst]. destruct (decide (key_of k' = key_of k)) as [Hk|Hk].
  - rewrite decide_True; [done|]. rewrite <- Hk. left.
  - cbn [fmap list_fmap fst]. fold (@fmap list _ _ _ (@fst pyval V)) in *.
    fold (@fmap list _ _ _ key_of) in *. rewrite IH.
    destruct (decide (key_of k ∈ key_of <$> d.*1)) as [Hin|Hin].
    + rewrite decide_True; [done|]. by right.
    + rewrite decide_False; [done|].
      intros [?|?]%elem_of_cons; [congruence|done].
Qed.

Lemma odict_set_NoDup (k : pyval) (v : V) (d : odict V) :
  NoDup (key_of <$> d.*1) -> NoDup (key_of <$> (odict_set k v d).*1).
Proof.
  intros Hd. rewrite odict_set_keys.
  destruct (decide _) as [Hin|Hin]; [done|].
  apply NoDup_app. split; [done|]. split; [|apply NoDup_singleton].
  intros x Hx ->%list_elem_of_singleton. done.
Qed.

Lemma odict_set_elem (k : pyval) (v : V) (d : odict V) :
  exists k', (k', v) ∈ odict_set k v d /\ key_of k' = key_of k.
Proof.
  induction d as [|[k0 v0] d IH]; cbn [odict_set].
  - exists k. split; [left|done].
  - destruct (decide (key_of k0 = key_of k)) as [Hk|Hk].
    + exists k0. split; [left|done].
    + destruct IH as (k' & Hin & Hk'). exists k'. split; [by right|done].
Qed.

Lemma odict_set_other (k k0 : pyval) (v v0 : V) (d : odict V) :
  (k0, v0) ∈ d -> key_of k0 <> key_of k -> (k0, v0) ∈ odict_set k v d.
Proof.
  induction d as [|[k1 v1] d IH]; [by intros ?%elem_of_nil|].
  cbn [odict_set]. intros [[= <- <-]|Hin]%elem_of_cons Hne.
  - rewrite decide_False by done. left.
  - destruct (decide (key_of k1 = key_of k)); right; [done|by apply IH].
Qed.

Lemma odict_set_from (k k0 : pyval) (v v0 : V) (d : odict V) :
  (k0, v0) ∈ odict_set k v d ->
  (k0, v0) ∈ d \/ v0 = v /\ key_of k0 = key_of k
                  /\ (k0 = k \/ k0 ∈ d.*1).
Proof.
  induction d as [|[k1 v1] d IH]; cbn [odict_set].
  - intros [= -> ->]%list_elem_of_singleton. right. by repeat split; left.
  - destruct (decide (key_of k1 = key_of k)) as [Hk|Hk].
    + intros [[= -> ->]|Hin]%elem_of_cons.
      * right. repeat split; [done|]. right. left.
      * left. by right.
    + intros [[= -> ->]|Hin]%elem_of_cons; [left; left|].
      destruct (IH Hin) as [?|(-> & ? & [->|?])].
      * left. by right.
      * right. by repeat split; left.
      * right. repeat split; [done|]. right. by right.
Qed.

End Odict.

Lemma factors_loop_cons (columns : list string) (factor : list pyval)
    (rest : list (list pyval)) (d : odict (gmap string pyval)) :
  factors_loop columns (factor :: rest) d
  = relid ← index factor 0;
    factors_loop columns rest
      (odict_set relid (dict_of_zip (tail columns) (tail factor)) d).
Proof. reflexivity. Qed.

Lemma factors_loop_NoDup (columns : list string) (rows : list (list pyval)) :
  forall d d',
    factors_loop columns rows d = Ok d' ->
    NoDup (key_of <$> d.*1) -> NoDup (key_of <$> d'.*1).
Proof.
  induction rows as [|row rows IH]; intros d d'; [by intros [= <-]|].
  rewrite factors_loop_cons. destruct row as [|relid cells]; [done|].
  cbn [index lookup list_lookup mbind result_bind tail].
  intros Hloop Hd. eapply IH; [exact Hloop|]. by apply odict_set_NoDup.
Qed.

Lemma factors_loop_from (columns : list string) (rows : list (list pyval)) :
  forall d d' relid f,
    factors_loop columns rows d = Ok d' ->
    (relid, f) ∈ d' ->
    ((relid, f) ∈ d
     \/ exists x cells,
          (x :: cells) ∈ rows /\ key_of x = key_of relid
          /\ f = dict_of_zip (tail columns) cells)
    /\ (relid ∈ d.*1 \/ exists cells, (relid :: cells) ∈ rows).
Proof.
  induction rows as [|row rows IH]; intros d d' relid f.
  - intros [= <-] Hin. split; [by left|]. left.
    apply list_elem_of_fmap. by exists (relid, f).
  - rewrite factors_loop_cons. destruct row as [|x cells]; [done|].
    cbn [index lookup list_lookup mbind result_bind tail].
    intros Hloop Hin. destruct (IH _ _ _ _ Hloop Hin) as [H1 H2]. split.
    + destruct H1 as [H1|(x' & cells' & Hrow & Hk & Hf)].
      * apply odict_set_from in H1 as [H1|(-> & Hk & _)]; [by left|].
        right. exists x, cells. split; [left|done].
      * right. exists x', cells'. split; [by right|done].
    + destruct H2 as [H2|(cells' & Hrow)].
      * apply list_elem_of_fmap in H2 as ([k0 v0] & -> & H2). cbn [fst].
        apply odict_set_from in H2 as [H2|(_ & _ & [->|H2])].
        -- left. apply list_elem_of_fmap. by exists (k0, v0).
        -- right. exists cells. left.
        -- by left.
      * right. exists cells'. by right.
Qed.

Lemma factors_loop_keeps (columns : list string) (rows : list (list pyval)) :
  forall d d' k0 v0,
    factors_loop columns rows d = Ok d' ->
    (k0, v0) ∈ d ->
    Forall (fun row => forall r, head row = Some r ->
                                 key_of r <> key_of k0) rows ->
    (k0, v0) ∈ d'.
Proof.
  induction rows as [|row rows IH]; intros d d' k0 v0; [by intros [= <-]|].
  rewrite factors_loop_cons. destruct row as [|x cells]; [done|].
  cbn [index lookup list_lookup mbind result_bind tail].
  intros Hloop Hin [Hx Hrows]%Forall_cons.
  eapply IH; [exact Hloop| |done].
  apply odict_set_other; [done|]. intros Hk. by apply (Hx x).
Qed.

Lemma factors_loop_last (columns : list string) (before : list (list pyval)) :
  forall d d' relid cells after,
    factors_loop columns (before ++ (relid :: cells) :: after) d = Ok d' ->
    Forall (fun row => forall r, head row = Some r ->
                                 key_of r <> key_of relid) after ->
    exists relid',
      (relid', dict_of_zip (tail columns) cells) ∈ d'
      /\ key_of relid' = key_of relid.
Proof.
  induction before as [|row before IH]; intros d d' relid cells after.
  - cbn [app]. rewrite factors_loop_cons.
    cbn [index lookup list_lookup mbind result_bind tail].
    intros Hloop Hafter.
    destruct (odict_set_elem relid (dict_of_zip (tail columns) cells) d)
      as (relid' & Hin & Hk).
    exists relid'. split; [|done].
    eapply factors_loop_keeps; [exact Hloop|exact Hin|].
    eapply Forall_impl; [exact Hafter|]. intros row Hrow r Hr.
    rewrite Hk. by apply Hrow.
  - cbn [app]. rewrite factors_loop_cons. destruct row as [|x cells']; [done|].
    cbn [index lookup list_lookup mbind result_bind tail]. apply IH.
Qed.

Lemma factors_loop_total (columns : list string) (rows : list (list pyval)) :
  forall d, Forall (fun row => row <> []) rows ->
            exists d', factors_loop columns rows d = Ok d'.
Proof.
  induction rows as [|row rows IH]; intros d; [by eexists|].
  intros [Hrow Hrows]%Forall_cons. rewrite factors_loop_cons.
  destruct row as [|x cells]; [done|].
  cbn [index lookup list_lookup mbind result_bind tail]. by apply IH.
Qed.

(** The factors of the tables: a dictionary with one entry for each table
    id of the answer (ids that are equal as numbers are one id), in the
    order in which the ids first occur, where the factors of a table are
    the cells after the id of the last row that begins with this id, under
    the names of their columns.  An empty row raises [IndexError]. *)
Theorem bloat_factors_by_table (srv : server)
    (TABLE_BLOAT_RATIO_FACTOR_TEMPLATE : string -> string)
    (target_tables_str : string) (s : state)
    (factors : list (list pyval)) (columns : list string) :
  srv (trace s) (EFetch (TABLE_BLOAT_RATIO_FACTOR_TEMPLATE target_tables_str))
  = Rows factors columns ->
  let out := _retrive_bloat_ratio_factors_for_tables srv
               TABLE_BLOAT_RATIO_FACTOR_TEMPLATE target_tables_str s in
  (Forall (fun row => row <> []) factors -> exists d, out.1 = Ok d)
  /\ (~ Forall (fun row => row <> []) factors -> out.1 = Raise IndexError)
  /\ forall d, out.1 = Ok d ->
       NoDup (key_of <$> d.*1)
       /\ (forall relid f,
             (relid, f) ∈ d ->
             (exists cells, (relid :: cells) ∈ factors)
             /\ exists x cells,
                  (x :: cells) ∈ factors /\ key_of x = key_of relid
                  /\ f = dict_of_zip (tail columns) cells)
       /\ (forall before relid cells after,
             factors = before ++ (relid :: cells) :: after ->
             Forall (fun row => forall r, head row = Some r ->
                                          key_of r <> key_of relid) after ->
             exists relid',
               (relid', dict_of_zip (tail columns) cells) ∈ d
               /\ key_of relid' = key_of relid).
Proof.
  intros Hreply out. subst out.
  unfold _retrive_bloat_ratio_factors_for_tables.
  rewrite run_bind, run_cmd, Hreply, run_lift. cbn [fst].
  split; [apply factors_loop_total|]. split.
  - intros Hnot. clear Hreply.
    generalize (@nil (pyval * gmap string pyval)).
    induction factors as [|row rows IH]; intros d; [by destruct Hnot|].
    rewrite factors_loop_cons. destruct row as [|x cells]; [done|].
    cbn [index lookup list_lookup mbind result_bind tail]. apply IH.
    intros Hrows. apply Hnot. by constructor.
  - intros d Hd. split; [|split].
    + eapply factors_loop_NoDup; [exact Hd|constructor].
    + intros relid f Hin.
      destruct (factors_loop_from _ _ _ _ _ _ Hd Hin) as [H1 H2]. split.
      * destruct H2 as [H2|H2]; [by apply elem_of_nil in H2|done].
      * destruct H1 as [H1|H1]; [by apply elem_of_nil in H1|done].
    + intros before relid cells after -> Hafter.
      by eapply factors_loop_last.
Qed.

Lemma bloat_factors_by_table_example :
  exists d,
    (_retrive_bloat_ratio_factors_for_tables knobs_server (fun t => t)
       "16384" empty_store).1 = Ok d.
Proof.
  refine (proj1 (bloat_factors_by_table knobs_server (fun t => t) "16384"
                   empty_store sample_knobs ["name"; "setting"] eq_refl) _).
  repeat constructor; discriminate.
Defined.

Lemma call_typed_factors (untyped : Z -> gmap string pyval -> result pyval)
    (padding_size : Z) (is_na : bool) (tpl_data_size tpl_hdr_size : Q)
    (ma : Z) (tblpages reltuples bs page_hdr fillfactor : Q) :
  call_bloat_ratio untyped padding_size
    (typed_factors is_na tpl_data_size tpl_hdr_size ma tblpages reltuples bs
       page_hdr fillfactor)
  = _calculate_bloat_ratio_for_table is_na padding_size tpl_data_size
      tpl_hdr_size ma tblpages reltuples bs page_hdr fillfactor.
Proof.
  unfold call_bloat_ratio. rewrite bool_decide_eq_true_2; [done|].
  unfold typed_factors, bloat_ratio_factors.
  rewrite !dom_insert_L, dom_empty_L. cbn [list_to_set].
  apply set_eq. intros x. set_unfold. tauto.
Qed.

Lemma bloat_ratios_loop_spec
    (untyped : Z -> gmap string pyval -> result pyval)
    (sizes : gmap dkey Z) (items : odict (gmap string pyval)) :
  forall res0 res,
    bloat_ratios_loop untyped sizes items res0 = Ok res ->
    exists rows,
      res = res0 ++ rows
      /\ Forall2 (fun item row =>
                    exists ratio,
                      row = [item.1; ratio]
                      /\ call_bloat_ratio untyped
                           (default 0 (sizes !! key_of item.1)) item.2
                         = Ok ratio) items rows.
Proof.
  induction items as [|[relid factors] items IH]; intros res0 res.
  - intros [= <-]. exists []. by rewrite app_nil_r.
  - cbn [bloat_ratios_loop]. cbv zeta.
    change (match sizes !! key_of relid with Some size => size | None => 0 end)
      with (default 0 (sizes !! key_of relid)).
    destruct (call_bloat_ratio untyped _ factors) as [ratio|] eqn:Hcall; [|done].
    cbn [mbind result_bind]. intros (rows & -> & Hrows)%IH.
    exists ([relid; ratio] :: rows). rewrite <- app_assoc. split; [done|].
    constructor; [|done]. by exists ratio.
Qed.

(** The bloat ratios: one row [[relid, ratio]] for each table of the
    factors, in their order, the ratio computed with the padding size of
    the table, or with 0 for a table without one.  The factors of every
    table have to consist of exactly the nine names that
    [_calculate_bloat_ratio_for_table] expects, and for factors of the
    expected types the ratio is the one this function computes. *)
Theorem bloat_ratios_rows (untyped : Z -> gmap string pyval -> result pyval)
    (sizes : gmap dkey Z) (items : odict (gmap string pyval))
    (res : list (list pyval)) :
  _calculate_bloat_ratios untyped sizes items = Ok res ->
  length res = length items
  /\ forall i relid factors,
       items !! i = Some (relid, factors) ->
       dom factors = list_to_set bloat_ratio_factors
       /\ exists ratio,
            res !! i = Some [relid; ratio]
            /\ forall is_na tpl_data_size tpl_hdr_size ma tblpages reltuples
                      bs page_hdr fillfactor,
                 factors = typed_factors is_na tpl_data_size tpl_hdr_size ma
                             tblpages reltuples bs page_hdr fillfactor ->
                 _calculate_bloat_ratio_for_table is_na
                   (default 0 (sizes !! key_of relid)) tpl_data_size
                   tpl_hdr_size ma tblpages reltuples bs page_hdr fillfactor
                 = Ok ratio.
Proof.
  unfold _calculate_bloat_ratios.
  intros (rows & -> & Hrows)%bloat_ratios_loop_spec. cbn [app].
  split; [symmetry; by eapply Forall2_length|].
  intros i relid factors Hi.
  destruct (Forall2_lookup_l _ _ _ _ _ Hrows Hi) as (row & Hrow & ratio & -> & Hcall).
  cbn [fst snd] in Hcall. split.
  - unfold call_bloat_ratio in Hcall.
    destruct (bool_decide _) eqn:Hdom; [|done].
    by apply bool_decide_eq_true in Hdom.
  - exists ratio. split; [done|]. intros * ->.
    by rewrite <- call_typed_factors with (untyped := untyped).
Qed.

Lemma bloat_ratios_rows_example :
  length [[PInt 16384; PInt 0]; [PInt 16390; PNone]] = 2%nat
  /\ forall i relid factors,
       [ (PInt 16384, typed_factors false 24 23 8 100 1000 8192 24 1);
         (PInt 16390, typed_factors true 24 23 8 100 1000 8192 24 1) ] !! i
       = Some (relid, factors) ->
       dom factors = list_to_set bloat_ratio_factors
       /\ exists ratio,
            [[PInt 16384; PInt 0]; [PInt 16390; PNone]] !! i
            = Some [relid; ratio]
            /\ forall is_na tpl_data_size tpl_hdr_size ma tblpages reltuples
                      bs page_hdr fillfactor,
                 factors = typed_factors is_na tpl_data_size tpl_hdr_size ma
                             tblpages reltuples bs page_hdr fillfactor ->
                 _calculate_bloat_ratio_for_table is_na
                   (default 0 ((∅ : gmap dkey Z) !! key_of relid))
                   tpl_data_size tpl_hdr_size ma tblpages reltuples bs
                   page_hdr fillfactor
                 = Ok ratio.
Proof.
  apply (bloat_ratios_rows no_untyped_ratio ∅
           [ (PInt 16384, typed_factors false 24 23 8 100 1000 8192 24 1);
             (PInt 16390, typed_factors true 24 23 8 100 1000 8192 24 1) ]).
  vm_compute. reflexivity.
Defined.

(** ** The result of the table statistics *)

Lemma table_stats_loop_run srv items list_str (m0 : gmap string table) s :
  let out := table_stats_loop srv items list_str m0 s in
  heap out.2 = heap s
  /\ exists sent : list string,
       trace out.2 = trace s ++ (EFetch <$> sent)
       /\ sent `prefix_of` ((fun it => it.2 list_str) <$> items)
       /\ forall m, out.1 = Ok m ->
            sent = (fun it => it.2 list_str) <$> items
            /\ dom m = dom m0 ∪ list_to_set items.*1.
Proof.
  cbv zeta. revert m0 s.
  induction items as [|[field tpl] items IH]; intros m0 s.
  - cbn. split; [done|]. exists []. rewrite app_nil_r.
    split; [done|]. split; [done|]. intros m [= <-].
    split; [done|]. by rewrite (right_id_L ∅ (∪)).
  - cbn [table_stats_loop]. rewrite run_bind, run_cmd.
    destruct (srv (trace s) (EFetch (tpl list_str))) as [| |res meta] eqn:Hr.
    1,2: (split; [done|]; exists [tpl list_str]; split; [done|];
          split; [by apply prefix_cons, prefix_nil | intros ? Hm; discriminate Hm]).
    set (s1 := {| heap := heap s; trace := trace s ++ [EFetch (tpl list_str)] |}).
    destruct (IH (<[field := {| columns := meta; rows := res |}]> m0) s1)
      as (Hh & sent & Ht & Hp & Hok).
    split; [done|]. exists (tpl list_str :: sent). split; [|split].
    + rewrite Ht. subst s1. cbn [trace]. by rewrite <- app_assoc.
    + by apply prefix_cons.
    + intros m Hm. destruct (Hok m Hm) as [-> Hdom]. split; [done|].
      rewrite Hdom, dom_insert_L. cbn [fmap list_fmap fst list_to_set].
      apply set_eq. intros x. set_unfold. tauto.
Qed.

Lemma table_metrics_keys (m : gmap string table) (t : table)
    (a b c : string -> string) :
  dom m = dom (∅ : gmap string table)
          ∪ list_to_set (TABLE_LEVEL_STATS_SQLS a b c).*1 ->
  dom (<["table_bloat_ratios" := t]> m)
  = {[ "pg_stat_user_tables_all_fields";
       "pg_statio_user_tables_all_fields";
       "pg_stat_user_tables_table_sizes"; "table_bloat_ratios" ]}.
Proof.
  intros Hdom. rewrite dom_insert_L, Hdom, dom_empty_L.
  unfold TABLE_LEVEL_STATS_SQLS. cbn [fmap list_fmap fst list_to_set].
  apply set_eq. intros x. set_unfold. tauto.
Qed.

Lemma bloat_ratios_distinct
    (untyped : Z -> gmap string pyval -> result pyval)
    (sizes : gmap dkey Z) (items : odict (gmap string pyval))
    (rows : list (list pyval)) :
  _calculate_bloat_ratios untyped sizes items = Ok rows ->
  NoDup (key_of <$> items.*1) ->
  Forall (fun row => length row = 2%nat) rows
  /\ NoDup ((fun row => key_of <$> head row) <$> rows).
Proof.
  unfold _calculate_bloat_ratios.
  intros (rows' & -> & Hrows)%bloat_ratios_loop_spec. cbn [app].
  assert (Forall (fun row => length row = 2%nat) rows'
          /\ (fun row => key_of <$> head row) <$> rows'
             = Some <$> (key_of <$> items.*1)) as [Hlen Hkeys].
  { induction Hrows as [|[relid f] row items rows (ratio & -> & _) _ [IH1 IH2]];
      [by split|].
    split; [by constructor|]. cbn [fmap list_fmap fst head]. by f_equal. }
  intros Hnd. split; [done|]. rewrite Hkeys.
  apply NoDup_fmap; [|done]. by intros x y [= ->].
Qed.

Section TableMetrics.

Variable srv : server.
Variable ALIGNMENT_DICT : gmap string Z.
Variable PG_STAT_TABLE_STATS_TEMPLATE : string -> string.
Variable PG_STATIO_TABLE_STATS_TEMPLATE : string -> string.
Variable TABLE_SIZE_TABLE_STATS_TEMPLATE : string -> string.
Variable PADDING_HELPER_TEMPLATE : string -> string.
Variable TABLE_BLOAT_RATIO_FACTOR_TEMPLATE : string -> string.
Variable untyped_padding_sizes : list (list pyval) -> result (gmap dkey Z).
Variable untyped_bloat_ratio : Z -> gmap string pyval -> result pyval.

(** What [collect_table_level_metrics] sends and returns: the three
    statistics statements and, only with a target table, the padding and
    the factor statement after them, all with the rendered table list; the
    store is left alone; a result has exactly the three statistics and
    ["table_bloat_ratios"], whose rows are pairs with distinct table ids
    and are none without a target table. *)
Theorem table_level_metrics_result (info : target_table_info) (s : state) :
  let out :=
    collect_table_level_metrics srv ALIGNMENT_DICT
      PG_STAT_TABLE_STATS_TEMPLATE PG_STATIO_TABLE_STATS_TEMPLATE
      TABLE_SIZE_TABLE_STATS_TEMPLATE PADDING_HELPER_TEMPLATE
      TABLE_BLOAT_RATIO_FACTOR_TEMPLATE untyped_padding_sizes
      untyped_bloat_ratio info s in
  let list_str := target_tables_str info in
  let statements :=
    [ PG_STAT_TABLE_STATS_TEMPLATE list_str;
      PG_STATIO_TABLE_STATS_TEMPLATE list_str;
      TABLE_SIZE_TABLE_STATS_TEMPLATE list_str ]
    ++ match target_tables info with
       | [] => []
       | _ => [ PADDING_HELPER_TEMPLATE list_str;
                TABLE_BLOAT_RATIO_FACTOR_TEMPLATE list_str ]
       end in
  heap out.2 = heap s
  /\ exists sent,
       trace out.2 = trace s ++ (EFetch <$> sent)
       /\ sent `prefix_of` statements
       /\ forall m, out.1 = Ok m ->
            sent = statements
            /\ dom m = {[ "pg_stat_user_tables_all_fields";
                          "pg_statio_user_tables_all_fields";
                          "pg_stat_user_tables_table_sizes";
                          "table_bloat_ratios" ]}
            /\ exists rows,
                 m !! "table_bloat_ratios"
                 = Some {| columns := ["relid"; "bloat_ratio"]; rows := rows |}
                 /\ (target_tables info = [] -> rows = [])
                 /\ Forall (fun row => length row = 2%nat) rows
                 /\ NoDup ((fun row => key_of <$> head row) <$> rows).
Proof.
  intros out list_str statements.
  assert (out = collect_table_level_metrics srv ALIGNMENT_DICT
      PG_STAT_TABLE_STATS_TEMPLATE PG_STATIO_TABLE_STATS_TEMPLATE
      TABLE_SIZE_TABLE_STATS_TEMPLATE PADDING_HELPER_TEMPLATE
      TABLE_BLOAT_RATIO_FACTOR_TEMPLATE untyped_padding_sizes
      untyped_bloat_ratio info s) as Hout by done.
  clearbody out. unfold collect_table_level_metrics in Hout. cbv zeta in Hout.
  fold list_str in Hout. rewrite run_bind in Hout.
  destruct (table_stats_loop_run srv
              (TABLE_LEVEL_STATS_SQLS PG_STAT_TABLE_STATS_TEMPLATE
                 PG_STATIO_TABLE_STATS_TEMPLATE TABLE_SIZE_TABLE_STATS_TEMPLATE)
              list_str ∅ s) as (Hh1 & sent1 & Ht1 & Hp1 & Hok1).
  destruct (table_stats_loop srv _ list_str ∅ s) as [[m1|e1] s1];
    cbn [fst snd] in *.
  2:{ subst out. split; [done|]. exists sent1. split; [done|].
      split; [by apply prefix_app_r|done]. }
  destruct (Hok1 m1 eq_refl) as [-> Hdom1]. clear Hok1 Hp1.
  change ((fun it : string * (string -> string) => it.2 list_str) <$>
          TABLE_LEVEL_STATS_SQLS PG_STAT_TABLE_STATS_TEMPLATE
            PG_STATIO_TABLE_STATS_TEMPLATE TABLE_SIZE_TABLE_STATS_TEMPLATE)
    with [ PG_STAT_TABLE_STATS_TEMPLATE list_str;
           PG_STATIO_TABLE_STATS_TEMPLATE list_str;
           TABLE_SIZE_TABLE_STATS_TEMPLATE list_str ] in Ht1.
  subst statements.
  destruct (target_tables info) as [|t ts] eqn:Htargets.
  - rewrite run_ret in Hout. subst out. cbn [fst snd].
    split; [done|]. eexists. split; [exact Ht1|].
    rewrite app_nil_r. split; [done|]. intros m [= <-]. split; [done|].
    split; [exact (table_metrics_keys _ _ _ _ _ Hdom1)|].
    exists []. split; [by rewrite lookup_insert_eq|].
    split; [done|]. split; constructor.
  - rewrite run_bind, run_cmd in Hout.
    set (stats := [ PG_STAT_TABLE_STATS_TEMPLATE list_str;
                    PG_STATIO_TABLE_STATS_TEMPLATE list_str;
                    TABLE_SIZE_TABLE_STATS_TEMPLATE list_str ]) in *.
    assert (forall tr, tr = trace s1 ++ [EFetch (PADDING_HELPER_TEMPLATE list_str)] ->
              tr = trace s ++ (EFetch <$> stats ++ [PADDING_HELPER_TEMPLATE list_str]))
      as Htr2.
    { intros tr ->. rewrite Ht1, fmap_app. by rewrite <- app_assoc. }
    assert ((stats ++ [PADDING_HELPER_TEMPLATE list_str])
              `prefix_of` stats ++ [ PADDING_HELPER_TEMPLATE list_str;
                                     TABLE_BLOAT_RATIO_FACTOR_TEMPLATE list_str ])
      as Hp2.
    { apply prefix_app, prefix_cons, prefix_nil. }
    destruct (srv (trace s1) (EFetch (PADDING_HELPER_TEMPLATE list_str)))
      as [| |raw_padding_info meta].
    1,2: subst out; cbn [fst snd heap trace]; split; [done|];
         eexists; split; [by apply Htr2|]; by split.
    rewrite run_bind, run_lift in Hout.
    destruct (match mapM field_of_row raw_padding_info with
              | Some fields => _calculate_padding_size_for_tables ALIGNMENT_DICT fields
              | None => untyped_padding_sizes raw_padding_info
              end) as [sizes|e2].
    2:{ subst out; cbn [fst snd heap trace]; split; [done|].
        eexists; split; [by apply Htr2|]; by split. }
    rewrite run_bind in Hout.
    unfold _retrive_bloat_ratio_factors_for_tables in Hout.
    rewrite run_bind, run_cmd in Hout. cbn [heap trace] in Hout.
    assert (forall tr,
              tr = (trace s1 ++ [EFetch (PADDING_HELPER_TEMPLATE list_str)])
                   ++ [EFetch (TABLE_BLOAT_RATIO_FACTOR_TEMPLATE list_str)] ->
              tr = trace s
                   ++ (EFetch <$> stats
                         ++ [ PADDING_HELPER_TEMPLATE list_str;
                              TABLE_BLOAT_RATIO_FACTOR_TEMPLATE list_str ]))
      as Htr3.
    { intros tr ->. rewrite Ht1, fmap_app. by rewrite <- !app_assoc. }
    destruct (srv _ (EFetch (TABLE_BLOAT_RATIO_FACTOR_TEMPLATE list_str)))
      as [| |factors columns].
    1,2: subst out; cbn [fst snd heap trace]; split; [done|];
         eexists; split; [by apply Htr3|]; by split.
    rewrite run_lift in Hout.
    destruct (factors_loop columns factors []) as [d|e3] eqn:Hfactors.
    2:{ subst out; cbn [fst snd heap trace]; split; [done|].
        eexists; split; [by apply Htr3|]; by split. }
    rewrite run_bind, run_lift in Hout.
    destruct (_calculate_bloat_ratios untyped_bloat_ratio sizes d)
      as [rows|e4] eqn:Hratios.
    2:{ subst out; cbn [fst snd heap trace]; split; [done|].
        eexists; split; [by apply Htr3|]; by split. }
    rewrite run_ret in Hout. subst out. cbn [fst snd heap trace].
    split; [done|]. eexists. split; [by apply Htr3|]. split; [done|].
    intros m [= <-]. split; [done|]. split.
    { rewrite insert_insert_eq. exact (table_metrics_keys _ _ _ _ _ Hdom1). }
    exists rows. split; [by rewrite lookup_insert_eq|]. split; [done|].
    eapply bloat_ratios_distinct; [exact Hratios|].
    eapply factors_loop_NoDup; [exact Hfactors|constructor].
Qed.

End TableMetrics.

(** ** Divisions by zero in the bloat ratio *)

Local Open Scope Q_scope.

Lemma py_div_zero (x y : Q) : y == 0 -> py_div x y = Raise ZeroDivisionError.
Proof. intros H. unfold py_div. by apply Qis_zero_true in H as ->. Qed.

Lemma est_tblpages_ff_zero_divisors (padding_size : Z)
    (tpl_data_size tpl_hdr_size : Q) (ma : Z)
    (reltuples bs page_hdr fillfactor : Q) :
  ma = 0%Z \/ bs == page_hdr \/ fillfactor == 0 ->
  est_tblpages_ff padding_size tpl_data_size tpl_hdr_size ma reltuples bs
    page_hdr fillfactor = Raise ZeroDivisionError.
Proof.
  intros H. unfold est_tblpages_ff. cbv zeta.
  destruct (py_mod_float tpl_hdr_size (inject_Z ma)) as [hdr_rem|e] eqn:Hhdr.
  2:{ unfold py_mod_float in Hhdr. destruct (Qis_zero _); [|done].
      by injection Hhdr as <-. }
  cbn [mbind result_bind].
  destruct (py_mod_int _ ma) as [data_rem|e] eqn:Hdata.
  2:{ unfold py_mod_int in Hdata. destruct (ma =? 0)%Z; [|done].
      by injection Hdata as <-. }
  cbn [mbind result_bind].
  destruct H as [->|H].
  { unfold py_mod_int in Hdata. done. }
  unfold py_div at 2. destruct (Qis_zero _); [done|].
  cbn [mbind result_bind]. rewrite py_div_zero; [done|].
  unfold Qdiv. destruct H as [H|H]; rewrite H; ring.
Qed.

(** Where [_calculate_bloat_ratio_for_table] divides by zero: with an
    alignment width of 0, with a block size equal to the page header size
    or with a fill factor of 0 the call raises [ZeroDivisionError]; and
    once the page estimate is computed, the division by [tblpages] raises
    it exactly when [tblpages] is 0 and the estimate is negative. *)
Theorem bloat_ratio_division_by_zero (padding_size : Z)
    (tpl_data_size tpl_hdr_size : Q) (ma : Z)
    (tblpages reltuples bs page_hdr fillfactor : Q) :
  (ma = 0%Z \/ bs == page_hdr \/ fillfactor == 0 ->
   _calculate_bloat_ratio_for_table false padding_size tpl_data_size
     tpl_hdr_size ma tblpages reltuples bs page_hdr fillfactor
   = Raise ZeroDivisionError)
  /\ forall e,
       est_tblpages_ff padding_size tpl_data_size tpl_hdr_size ma reltuples
         bs page_hdr fillfactor = Ok e ->
       (_calculate_bloat_ratio_for_table false padding_size tpl_data_size
          tpl_hdr_size ma tblpages reltuples bs page_hdr fillfactor
        = Raise ZeroDivisionError
        <-> tblpages == 0 /\ (e < 0)%Z).
Proof.
  split.
  - intros H. unfold _calculate_bloat_ratio_for_table.
    by rewrite est_tblpages_ff_zero_divisors.
  - intros e He. unfold _calculate_bloat_ratio_for_table. rewrite He.
    cbn [mbind result_bind].
    destruct (Qpositive (tblpages - inject_Z e)) eqn:Hpos.
    + apply Qpositive_true in Hpos. unfold py_div.
      destruct (Qis_zero tblpages) eqn:Hz.
      * apply Qis_zero_true in Hz. split; [intros _|done].
        split; [done|]. rewrite Hz in Hpos.
        apply Z.lt_nge. intros Hge. apply inject_Z_nonneg in Hge. lra.
      * apply Qis_zero_false in Hz. split; [done|]. by intros [? _].
    + apply Qpositive_false in Hpos. split; [done|].
      intros [Hz Hneg]. exfalso. rewrite Hz in Hpos.
      assert (inject_Z e < 0); [|lra].
      change 0 with (inject_Z 0). by rewrite <- Zlt_Qlt.
Qed.

Lemma bloat_ratio_division_by_zero_example :
  _calculate_bloat_ratio_for_table false 0 0 0 1 0 1 0 400 1
  = Raise ZeroDivisionError
  <-> 0 == 0 /\ (-1 < 0)%Z.
Proof.
  apply (proj2 (bloat_ratio_division_by_zero 0 0 0 1 0 1 0 400 1) (-1)%Z).
  vm_compute. reflexivity.
Defined.

Local Close Scope Q_scope.

(** ** The local statistics *)

Lemma only_dict_get P v k : only P (dict_get v k).
Proof. unfold dict_get. sends. Qed.

Lemma only_for_each_item P categories local_metric body :
  (forall category data, only P (body category data)) ->
  only P (for_each_item categories local_metric body).
Proof. intros Hbody. unfold for_each_item. sends. Qed.

Section LocalStatistics.

Variable srv : server.
Variable int_of_str : string -> result Z.

Lemma reads_get_metrics query : only is_read (_get_metrics srv query).
Proof. unfold _get_metrics. sends. by apply only_cmd. Qed.

Lemma reads_sessions_loop metric slot :
  only is_read (sessions_loop srv int_of_str metric slot).
Proof. unfold sessions_loop. sends. by apply only_cmd. Qed.

(** The helpers that fill [metrics["local"]] only query: whatever the
    server replies, every statement they send is executed with a fetch;
    nothing is executed without one, committed or reset. *)
Theorem local_statistics_only_read (categories : list dkey)
    (local_metric : val) :
  only is_read (_aggregated_local_stats srv categories local_metric)
  /\ only is_read (_raw_local_stats srv categories local_metric)
  /\ only is_read (_collect_activity_stats srv int_of_str local_metric).
Proof.
  pose proof reads_get_metrics. pose proof reads_sessions_loop.
  pose proof only_dict_get.
  split; [|split].
  - unfold _aggregated_local_stats.
    apply only_bind; [|sends]. apply only_for_each_item. sends.
  - unfold _raw_local_stats.
    apply only_bind; [|sends]. apply only_for_each_item. sends.
  - unfold _collect_activity_stats. sends.
Qed.

(** [_raw_local_stats] relies on [_aggregated_local_stats] having made the
    dictionary of each view: on a [database] dictionary without an entry
    for [pg_stat_database] it never returns.  Once the view is read, the
    assignment to [data[view]["raw"]] raises [KeyError] for the view. *)
Theorem raw_local_stats_needs_the_views (s : state) (l d : loc)
    (entries of_database : gmap dkey val) :
  heap s !! l = Some (ODict entries) ->
  entries !! KStr "database" = Some (Ref d) ->
  heap s !! d = Some (ODict of_database) ->
  of_database !! KStr "pg_stat_database" = None ->
  (_raw_local_stats srv local_categories (Ref l) s).1
  = match (_get_metrics srv "SELECT * FROM pg_stat_database;" s).1 with
    | Ok _ => Raise (KeyError (KStr "pg_stat_database"))
    | Raise e => Raise e
    end.
Proof.
  intros Hl Hentries Hd Hview. unfold _raw_local_stats, for_each_item.
  rewrite run_bind, run_bind, (run_dict_entries l entries) by done.
  unfold local_categories. cbn [for_each]. rewrite run_bind, Hentries.
  change (negb (bool_decide (KStr "database" = KStr "database"))) with false.
  cbv iota. rewrite run_bind, run_lift.
  change (class_getitem PG_STAT_VIEWS_LOCAL_RAW (KStr "database"))
    with (Ok ["pg_stat_database"; "pg_stat_database_conflicts"]).
  cbv iota. rewrite run_bind, run_lift.
  change (class_getitem PG_STAT_VIEWS_LOCAL_KEY (KStr "database"))
    with (Ok "datid").
  cbv iota. cbn [for_each]. cbv zeta. rewrite run_bind, run_bind.
  change ("SELECT * FROM " +:+ "pg_stat_database" +:+ ";")
    with "SELECT * FROM pg_stat_database;".
  destruct (keeps_get_metrics (heap s) (length (heap s)) (fun _ => True)
              srv "SELECT * FROM pg_stat_database;" s) as [[Hlen Hkept] _];
    [split; [lia|done]|].
  destruct (_get_metrics srv "SELECT * FROM pg_stat_database;" s)
    as [[rows|e] s1]; cbn [fst snd] in *; [|done].
  rewrite run_bind, run_alloc, run_bind.
  assert (d < length (heap s))%nat as Hlt by (by eapply lookup_lt_Some).
  unfold getitem at 1. rewrite run_bind. unfold deref at 1. cbn [heap].
  pose proof (eq_trans (Hkept d Hlt I) Hd) as Hd1.
  rewrite lookup_app_l, Hd1 by lia. by rewrite Hview.
Qed.

End LocalStatistics.

Lemma raw_local_stats_needs_the_views_example :
  (_raw_local_stats sample_reply_server local_categories (Ref 0%nat)
     {| heap := [ODict {[ KStr "database" := Ref 1%nat ]}; ODict ∅];
        trace := [] |}).1
  = match (_get_metrics sample_reply_server "SELECT * FROM pg_stat_database;"
             {| heap := [ODict {[ KStr "database" := Ref 1%nat ]}; ODict ∅];
                trace := [] |}).1 with
    | Ok _ => Raise (KeyError (KStr "pg_stat_database"))
    | Raise e => Raise e
    end.
Proof.
  by apply (raw_local_stats_needs_the_views sample_reply_server _ 0%nat 1%nat
              {[ KStr "database" := Ref 1%nat ]} ∅).
Defined.
